(** * Reversi: a shallow embedding of the game engine of [reversi.py]

    The development follows the class [Reversi] of [src/reversi.py]:

    - Python values: a cell is [option Z] ([None] or a player label), a
      grid is a list of rows, a position is a pair of integers;
    - Python list indexing, with negative indices and [IndexError];
    - read-only methods are functions of the engine value that end in a
      [result] (a result or a raised exception);
    - mutating methods ([done], [apply_move], [load_game]) live in a state
      and exception monad [M] that keeps the state reached when an
      exception is raised, as Python does;
    - the object layer ([Module Store]) puts engines and grids in a heap,
      so that aliasing ([load_game] keeps the caller's list) and copying
      (the [grid] property deep-copies) are visible;
    - the class [Piece] of the same file ([Module Piece]) and the
      strategies [Random] and [Smart] of [bot.py] ([Module Bot]), which
      work on an engine in the heap, with the random source as a
      parameter. *)

From stdpp Require Import base option list gmap strings.
From Stdlib Require Import ZArith Lia.

Local Open Scope Z_scope.

(** ** Results of Python computations *)

Inductive exn : Type :=
  | ValueError (msg : string)
  | IndexError
  | ZeroDivisionError.

(** A [Fault] is not a Python exception: [NoFuel] says that a [while] loop
    did not finish within the bound the model gives it, [NoObject] that a
    reference does not point into the heap. *)
Inductive fault : Type := NoFuel | NoObject.

Inductive result (A : Type) : Type :=
  | Ok (a : A)
  | Raise (e : exn)
  | Fault (f : fault).

Arguments Ok {A} a.
Arguments Raise {A} e.
Arguments Fault {A} f.

#[global] Instance result_ret : MRet result := fun A a => Ok a.
#[global] Instance result_bind : MBind result := fun A B f m =>
  match m with
  | Ok a => f a
  | Raise e => Raise e
  | Fault x => Fault x
  end.

(** [for x in l: acc = f acc x], where the body may raise. *)
Fixpoint foldM {A B : Type} (f : B -> A -> result B) (acc : B) (l : list A)
  : result B :=
  match l with
  | [] => Ok acc
  | x :: l' => acc' ← f acc x; foldM f acc' l'
  end.

(** [[f(x) for x in l]], where [f] may raise. *)
Fixpoint mapM {A B : Type} (f : A -> result B) (l : list A) : result (list B) :=
  match l with
  | [] => Ok []
  | x :: l' => y ← f x; ys ← mapM f l'; Ok (y :: ys)
  end.

(** [for x in l: if f(x): return True] followed by [return False]. *)
Fixpoint existsM {A : Type} (f : A -> result bool) (l : list A) : result bool :=
  match l with
  | [] => Ok false
  | x :: l' => b ← f x; if b : bool then Ok true else existsM f l'
  end.

(** ** Python lists *)

(** [range(a, b)] *)
Definition range (a b : Z) : list Z := seqZ a (b - a).

(** [enumerate(l)] *)
Definition enumerate {A : Type} (l : list A) : list (Z * A) :=
  zip (seqZ 0 (Z.of_nat (length l))) l.

(** The place of index [i] in a list of length [n]: negative indices count
    from the end, anything else is out of range. *)
Definition py_index (n : nat) (i : Z) : option nat :=
  if bool_decide (0 <= i < Z.of_nat n) then Some (Z.to_nat i)
  else if bool_decide (- Z.of_nat n <= i < 0) then Some (Z.to_nat (i + Z.of_nat n))
  else None.

(** [l[i]] *)
Definition py_get {A : Type} (l : list A) (i : Z) : result A :=
  match py_index (length l) i ≫= (fun k => l !! k) with
  | Some x => Ok x
  | None => Raise IndexError
  end.

(** [l[i] = x] *)
Definition py_set {A : Type} (l : list A) (i : Z) (x : A) : result (list A) :=
  match py_index (length l) i with
  | Some k => Ok (<[k := x]> l)
  | None => Raise IndexError
  end.

(** [a % b] on integers: the sign of the result follows the divisor, as
    [Z.modulo] does. *)
Definition py_mod (a b : Z) : result Z :=
  if bool_decide (b = 0) then Raise ZeroDivisionError else Ok (a mod b).

(** ** The engine *)

Abbreviation cell := (option Z).
Abbreviation BoardGridType := (list (list (option Z))).
Abbreviation position := (Z * Z)%type.

Record Reversi : Type := mkReversi {
  _side : Z;
  _players : Z;
  _othello : bool;
  _grid : BoardGridType;
  _turn : Z
}.

Definition with_turn (t : Z) (self : Reversi) : Reversi :=
  mkReversi (_side self) (_players self) (_othello self) (_grid self) t.

Definition with_grid (g : BoardGridType) (self : Reversi) : Reversi :=
  mkReversi (_side self) (_players self) (_othello self) g (_turn self).

(** The state and exception monad of the mutating methods. *)
Definition M (A : Type) : Type := Reversi -> result A * Reversi.

#[global] Instance M_ret : MRet M := fun A a self => (Ok a, self).
#[global] Instance M_bind : MBind M := fun A B f m self =>
  match m self with
  | (Ok a, self') => f a self'
  | (Raise e, self') => (Raise e, self')
  | (Fault x, self') => (Fault x, self')
  end.

Definition get : M Reversi := fun self => (Ok self, self).
Definition put (self' : Reversi) : M unit := fun _ => (Ok tt, self').
(** A read-only computation, or a raise, inside a mutating method. *)
Definition lift {A : Type} (o : result A) : M A := fun self => (o, self).
Definition read {A : Type} (f : Reversi -> result A) : M A := fun self => (f self, self).
Definition set_turn (t : Z) : M unit := fun self => (Ok tt, with_turn t self).

(** [for x in l: body(x)] in a mutating method. *)
Fixpoint forM_ {A : Type} (body : A -> M unit) (l : list A) : M unit :=
  match l with
  | [] => mret tt
  | x :: l' => body x;; forM_ body l'
  end.

Module Msg.
Definition out_of_bounds : string :=
  "Specified position is outside the bounds of the board".
Definition parity : string := "Parity of side and players is incorrect".
Definition othello_players : string := "Othello game can only have 2 players".
Definition too_small : string :=
  "Size of board must be larger than 2 cells per side".
Definition bad_turn : string :=
  "Value of turn is inconsistent with the number of players".
Definition bad_length : string :=
  "Length of inputted grid is inconsistent with current grid size".
Definition sim_out_of_bounds : string :=
  "Specified position is outside the bounds ofthe board".
Definition occupied : string := "There is already a piece at this location".
End Msg.

(** [g[row][col] = v] on the list of rows [g]: the row is updated in
    place. *)
Definition grid_put (g : BoardGridType) (row col : Z) (v : Z)
  : result BoardGridType :=
  r ← py_get g row; r' ← py_set r col (Some v); py_set g row r'.

(** [Reversi.__init__] *)
Definition __init__ (side players : Z) (othello : bool) : result Reversi :=
  let grid : BoardGridType :=
    (fun _ => replicate (Z.to_nat side) None) <$> range 0 side in
  if bool_decide (players mod 2 ≠ Z.of_nat (length grid) mod 2) then
    Raise (ValueError Msg.parity)
  else if othello && bool_decide (players ≠ 2) then
    Raise (ValueError Msg.othello_players)
  else if bool_decide (Z.of_nat (length grid) < 3) then
    Raise (ValueError Msg.too_small)
  else
    grid ←
      (if othello then
         let bot_right_center := side / 2 in
         g1 ← grid_put grid bot_right_center bot_right_center 2;
         g2 ← grid_put g1 (bot_right_center - 1) bot_right_center 1;
         g3 ← grid_put g2 (bot_right_center - 1) (bot_right_center - 1) 2;
         grid_put g3 bot_right_center (bot_right_center - 1) 1
       else Ok grid);
    Ok (mkReversi side players othello grid 1).

(** [Reversi.size], [Reversi.num_players], [Reversi.turn] *)
Definition size (self : Reversi) : Z := _side self.
Definition num_players (self : Reversi) : Z := _players self.
Definition turn (self : Reversi) : Z := _turn self.

(** [Reversi._in_bounds] *)
Definition _in_bounds (self : Reversi) (pos : position) : bool :=
  let '(row, col) := pos in
  bool_decide (0 <= row < _side self) && bool_decide (0 <= col < _side self).

(** [self._grid[row][col]] *)
Definition grid_get (self : Reversi) (row col : Z) : result cell :=
  r ← py_get (_grid self) row; py_get r col.

(** [self._grid[row][col] = v] *)
Definition grid_set (row col : Z) (v : Z) : M unit := fun self =>
  match grid_put (_grid self) row col v with
  | Ok g' => (Ok tt, with_grid g' self)
  | Raise e => (Raise e, self)
  | Fault x => (Fault x, self)
  end.

(** [loc_piece not in (None, player)] *)
Definition not_in_none_player (loc_piece : cell) (player : Z) : bool :=
  match loc_piece with
  | None => false
  | Some q => negb (bool_decide (q = player))
  end.

(** The [while] loop of [_check_direction]. The result is [None] when the
    loop leaves the function through [return None], and the values of
    [check_row], [check_col] and [loc_piece] when it ends normally. *)
Fixpoint check_direction_loop (fuel : nat) (self : Reversi) (player : Z)
    (r_shift c_shift check_row check_col : Z) (loc_piece : cell)
  : result (option (Z * Z * cell)) :=
  if not_in_none_player loc_piece player then
    match fuel with
    | O => Fault NoFuel
    | S fuel' =>
        let check_row := check_row + r_shift in
        let check_col := check_col + c_shift in
        if negb (_in_bounds self (check_row, check_col)) then Ok None
        else
          loc_piece ← grid_get self check_row check_col;
          check_direction_loop fuel' self player r_shift c_shift
            check_row check_col loc_piece
    end
  else Ok (Some (check_row, check_col, loc_piece)).

(** [Reversi._check_direction]; the walk stays on the board, so that it
    takes fewer than [_side] steps ([check_direction_ends]). *)
Definition _check_direction (self : Reversi) (player : Z) (pos : position)
    (direction : Z * Z) : result (option position) :=
  let '(r_shift, c_shift) := direction in
  let '(row, col) := pos in
  let check_row := row + r_shift in
  let check_col := col + c_shift in
  if negb (_in_bounds self (check_row, check_col)) then Ok None
  else
    loc_piece ← grid_get self check_row check_col;
    if not_in_none_player loc_piece player then
      w ← check_direction_loop (Z.to_nat (_side self)) self player
             r_shift c_shift check_row check_col loc_piece;
      match w with
      | None => Ok None
      | Some (check_row, check_col, loc_piece) =>
          if _in_bounds self (check_row, check_col)
             && bool_decide (loc_piece = Some player)
          then Ok (Some (check_row, check_col))
          else Ok None
      end
    else Ok None.

(** [Reversi._center_pieces] *)
Definition _center_pieces (self : Reversi) : list position :=
  let lo := (_side self - _players self) / 2 in
  let hi := _side self - (_side self - _players self) / 2 in
  i ← range lo hi; j ← range lo hi; [(i, j)].

(** [Reversi.piece_at] *)
Definition piece_at (self : Reversi) (pos : position) : result cell :=
  if negb (_in_bounds self pos) then Raise (ValueError Msg.out_of_bounds)
  else let '(row, col) := pos in grid_get self row col.

Definition directions : list (Z * Z) :=
  [(1, 0); (-1, 0); (0, 1); (0, -1); (1, 1); (-1, 1); (1, -1); (-1, -1)].

(** The loop over [directions] of [legal_move]: [return True] at the first
    direction that finds an origin piece, [return False] after the loop. *)
Definition some_direction (self : Reversi) (pos : position) : result bool :=
  existsM (fun direction =>
             move_loc ← _check_direction self (_turn self) pos direction;
             Ok (bool_decide (move_loc ≠ None)))
          directions.

(** The cells of a grid with their positions, in the order of the nested
    [enumerate] loops. *)
Definition enumerate_grid (g : BoardGridType) : list (position * cell) :=
  '(i, row) ← enumerate g; '(j, piece) ← enumerate row; [((i, j), piece)].

(** [Reversi.legal_move] *)
Definition legal_move (self : Reversi) (pos : position) : result bool :=
  if negb (_in_bounds self pos) then Raise (ValueError Msg.out_of_bounds)
  else
    let '(row, col) := pos in
    here ← grid_get self row col;
    if bool_decide (here ≠ None) then Ok false
    else
      let center_sqs := _center_pieces self in
      pieces ← mapM (piece_at self) center_sqs;
      let not_filled := bool_decide (None ∈ pieces) in
      if not_filled then
        match find (fun '((i, j), iter_piece) =>
                      bool_decide ((i, j) ∉ center_sqs)
                      && bool_decide (iter_piece ≠ None))
                   (enumerate_grid (_grid self)) with
        | Some _ => some_direction self pos
        | None =>
            if bool_decide (pos ∈ center_sqs) then
              here ← grid_get self row col; Ok (bool_decide (here = None))
            else Ok false
        end
      else some_direction self pos.

(** [Reversi.available_moves]: the positions are collected in a set, the
    list that is returned has them in no particular order. *)
Definition available_moves (self : Reversi) : result (list position) :=
  moves ←
    foldM (fun (moves : gset position) '((i, j), _) =>
             b ← legal_move self (i, j);
             Ok (if b : bool then {[ (i, j) ]} ∪ moves else moves))
          ∅ (enumerate_grid (_grid self));
  Ok (elements moves).

(** The [for] loop of [done]: [no_moves and len(self.available_moves) == 0]
    asks for the moves only while [no_moves] is still true. *)
Fixpoint done_loop (players : list Z) (no_moves : bool) : M bool :=
  match players with
  | [] => mret no_moves
  | player :: players' =>
      set_turn player;;
      no_moves ←
        (if no_moves then
           moves ← read available_moves;
           mret (bool_decide (length moves = 0%nat))
         else mret false);
      done_loop players' no_moves
  end.

(** [Reversi.done] *)
Definition done : M bool :=
  self ← get;
  let current_player := _turn self in
  no_moves ← done_loop (range 1 (_players self + 1)) true;
  set_turn current_player;;
  mret no_moves.

(** [player_pieces[cell] = 1] or [player_pieces[cell] += 1]; the dictionary
    is an association list in insertion order, the order in which Python
    iterates over it. *)
Fixpoint dict_count (player_pieces : list (Z * Z)) (cell : Z) : list (Z * Z) :=
  match player_pieces with
  | [] => [(cell, 1)]
  | (k, v) :: rest =>
      if bool_decide (k = cell) then (k, v + 1) :: rest
      else (k, v) :: dict_count rest cell
  end.

Definition count_pieces (g : BoardGridType) : list (Z * Z) :=
  foldl (fun player_pieces row =>
           foldl (fun player_pieces (c : cell) =>
                    match c with
                    | Some label => dict_count player_pieces label
                    | None => player_pieces
                    end)
                 player_pieces row)
        [] g.

Definition maximum_of (values : list Z) : Z :=
  foldl (fun maximum_pieces pieces =>
           if bool_decide (pieces > maximum_pieces) then pieces
           else maximum_pieces)
        0 values.

(** [Reversi.outcome]; a label is an integer, so that
    [isinstance(player, int)] holds for every key of the dictionary. *)
Definition outcome : M (list Z) :=
  d ← done;
  if negb d then mret []
  else
    self ← get;
    let player_pieces := count_pieces (_grid self) in
    let maximum_pieces := maximum_of (snd <$> player_pieces) in
    mret (fst <$> filter (fun kv => snd kv = maximum_pieces) player_pieces).

(** The two statements that move [_turn] to the next player. *)
Definition next_turn : M unit :=
  self ← get;
  t ← lift (py_mod (_turn self + 1) (_players self + 1));
  set_turn t;;
  if bool_decide (t = 0) then set_turn (t + 1) else mret tt.

(** The last [while] loop of [apply_move]. *)
Fixpoint skip_loop (fuel : nat) : M unit :=
  moves ← read available_moves;
  if bool_decide (length moves = 0%nat) then
    d ← done;
    if negb d then
      match fuel with
      | O => lift (Fault NoFuel)
      | S fuel' => next_turn;; skip_loop fuel'
      end
    else mret tt
  else mret tt.

(** The first loop over [directions] of [apply_move]. *)
Definition retrace_directions (pos : position) (self : Reversi)
  : result (list (Z * Z)) :=
  foldM (fun retrace_dir direction =>
           origin_loc ← _check_direction self (_turn self) pos direction;
           Ok (if bool_decide (origin_loc ≠ None)
               then retrace_dir ++ [direction] else retrace_dir))
        [] directions.

(** The [while] loop that turns the pieces of one direction over. *)
Fixpoint flip_loop (fuel : nat) (r_shift c_shift check_row check_col : Z)
  : M unit :=
  self ← get;
  here ← lift (grid_get self check_row check_col);
  if bool_decide (here ≠ Some (_turn self)) then
    match fuel with
    | O => lift (Fault NoFuel)
    | S fuel' =>
        grid_set check_row check_col (_turn self);;
        flip_loop fuel' r_shift c_shift
          (check_row + r_shift) (check_col + c_shift)
    end
  else mret tt.

Definition flip_direction (pos : position) (direction : Z * Z) : M unit :=
  let '(row, col) := pos in
  let '(r_shift, c_shift) := direction in
  self ← get;
  flip_loop (Z.to_nat (_side self)) r_shift c_shift
    (row + r_shift) (col + c_shift).

(** [Reversi.apply_move] *)
Definition apply_move (pos : position) : M unit :=
  self ← get;
  if negb (_in_bounds self pos) then lift (Raise (ValueError Msg.out_of_bounds))
  else
    let '(row, col) := pos in
    (if negb (_othello self) && bool_decide (pos ∈ _center_pieces self) then
       grid_set row col (_turn self)
     else
       grid_set row col (_turn self);;
       retrace_dir ← read (retrace_directions pos);
       forM_ (flip_direction pos) retrace_dir);;
    next_turn;;
    self ← get;
    skip_loop (Z.to_nat (_players self)).

(** The checks of [load_game], which come before its two assignments. *)
Definition load_game_checks (turn : Z) (grid : BoardGridType) (self : Reversi)
  : result unit :=
  if bool_decide (turn <= 0) || bool_decide (turn > _players self) then
    Raise (ValueError Msg.bad_turn)
  else if bool_decide (length grid ≠ length (_grid self)) then
    Raise (ValueError Msg.bad_length)
  else
    foldM (fun _ row =>
             foldM (fun _ (item : cell) =>
                      match item with
                      | Some item =>
                          if bool_decide (item <= 0)
                             || bool_decide (item > _players self)
                          then Raise (ValueError Msg.bad_turn)
                          else Ok tt
                      | None => Ok tt
                      end)
                   tt row)
          tt grid.

(** [Reversi.load_game], on grids as values. *)
Definition load_game (turn : Z) (grid : BoardGridType) : M unit :=
  read (load_game_checks turn grid);;
  set_turn turn;;
  self ← get;
  put (with_grid grid self).

(** ** Engines as objects

    An engine object holds a reference to its grid. The [grid] property
    answers with a deep copy, a new list; [load_game] keeps the list it is
    given. A grid is stored as a whole: its rows are distinct lists, as
    the constructor and [deepcopy] make them. *)

Module Store.

Definition loc : Type := nat.

Record object : Type := mkObject {
  o_side : Z;
  o_players : Z;
  o_othello : bool;
  o_grid : loc;
  o_turn : Z
}.

Record heap : Type := mkHeap {
  objects : gmap loc object;
  grids : gmap loc BoardGridType
}.

Definition H (A : Type) : Type := heap -> result A * heap.

#[global] Instance H_ret : MRet H := fun A a h => (Ok a, h).
#[global] Instance H_bind : MBind H := fun A B f m h =>
  match m h with
  | (Ok a, h') => f a h'
  | (Raise e, h') => (Raise e, h')
  | (Fault x, h') => (Fault x, h')
  end.

Definition fail {A : Type} (e : exn) : H A := fun h => (Raise e, h).

(** The engine value that the object at [self] stands for. *)
Definition view (h : heap) (self : loc) : option Reversi :=
  o ← objects h !! self;
  g ← grids h !! o_grid o;
  Some (mkReversi (o_side o) (o_players o) (o_othello o) g (o_turn o)).

(** A read-only method of the object at [self]. *)
Definition observe {A : Type} (self : loc) (f : Reversi -> result A) : H A :=
  fun h =>
    match view h self with
    | Some s => (f s, h)
    | None => (Fault NoObject, h)
    end.

(** A mutating method of the object at [self]: [_turn] is assigned in
    the object, the cells are assigned in the list the object refers
    to. *)
Definition call {A : Type} (self : loc) (m : M A) : H A := fun h =>
  match objects h !! self with
  | Some o =>
      match grids h !! o_grid o with
      | Some g =>
          let '(r, s') :=
            m (mkReversi (o_side o) (o_players o) (o_othello o) g (o_turn o)) in
          (r, mkHeap
                (<[self := mkObject (o_side o) (o_players o) (o_othello o)
                             (o_grid o) (_turn s')]> (objects h))
                (<[o_grid o := _grid s']> (grids h)))
      | None => (Fault NoObject, h)
      end
  | None => (Fault NoObject, h)
  end.

(** A new list object. *)
Definition alloc_grid (g : BoardGridType) : H loc := fun h =>
  let l := fresh (dom (grids h)) in
  (Ok l, mkHeap (objects h) (<[l := g]> (grids h))).

(** [Reversi(side, players, othello)] *)
Definition new (side players : Z) (othello : bool) : H loc := fun h =>
  match __init__ side players othello with
  | Ok s =>
      let g := fresh (dom (grids h)) in
      let l := fresh (dom (objects h)) in
      (Ok l, mkHeap
               (<[l := mkObject (_side s) (_players s) (_othello s) g (_turn s)]>
                  (objects h))
               (<[g := _grid s]> (grids h)))
  | Raise e => (Raise e, h)
  | Fault x => (Fault x, h)
  end.

(** [self.grid]: [deepcopy(self._grid)] *)
Definition grid (self : loc) : H loc :=
  g ← observe self (fun s => Ok (_grid s));
  alloc_grid g.

(** [self.turn] *)
Definition turn (self : loc) : H Z := observe self (fun s => Ok (_turn s)).

(** [self.load_game(turn, grid)]: after the checks, [self._grid] is the
    very list that was passed. *)
Definition load_game (self : loc) (turn : Z) (grid : loc) : H unit := fun h =>
  match grids h !! grid with
  | Some g =>
      match observe self (load_game_checks turn g) h with
      | (Ok _, h) =>
          match objects h !! self with
          | Some o =>
              (Ok tt, mkHeap
                        (<[self := mkObject (o_side o) (o_players o)
                                     (o_othello o) grid turn]> (objects h))
                        (grids h))
          | None => (Fault NoObject, h)
          end
      | (Raise e, h) => (Raise e, h)
      | (Fault x, h) => (Fault x, h)
      end
  | None => (Fault NoObject, h)
  end.

(** [self.apply_move(pos)] *)
Definition apply_move (self : loc) (pos : position) : H unit :=
  call self (apply_move pos).

(** The body of the loop of [simulate_moves]. *)
Definition simulate_move (self sim_reversi : loc) (move : position) : H unit :=
  let '(row, col) := move in
  inside ← observe self (fun s => Ok (_in_bounds s move));
  if negb inside then fail (ValueError Msg.sim_out_of_bounds)
  else
    copy ← grid sim_reversi;
    here ← (fun h =>
              match grids h !! copy with
              | Some g => (r ← py_get g row; py_get r col, h)
              | None => (Fault NoObject, h)
              end);
    if bool_decide (here ≠ None) then fail (ValueError Msg.occupied)
    else apply_move sim_reversi move.

Fixpoint simulate_loop (self sim_reversi : loc) (moves : list position)
  : H unit :=
  match moves with
  | [] => mret tt
  | move :: moves' =>
      simulate_move self sim_reversi move;;
      simulate_loop self sim_reversi moves'
  end.

(** [self.simulate_moves(moves)] *)
Definition simulate_moves (self : loc) (moves : list position) : H loc :=
  '(side, players, othello) ←
    observe self (fun s => Ok (_side s, _players s, _othello s));
  sim_reversi ← new side players othello;
  turn ← turn self;
  copy ← grid self;
  load_game sim_reversi turn copy;;
  simulate_loop self sim_reversi moves;;
  mret sim_reversi.

(** An assignment of the caller to a list of its own, [grid[i][j] = v]
    and the like: the list at [l] becomes [g]. *)
Definition write_list (l : loc) (g : BoardGridType) : H unit := fun h =>
  match grids h !! l with
  | Some _ => (Ok tt, mkHeap (objects h) (<[l := g]> (grids h)))
  | None => (Fault NoObject, h)
  end.

(** A computation that does not touch the heap. *)
Definition lift_result {A : Type} (o : result A) : H A := fun h => (o, h).

(** [for x in l: acc = f(acc, x)] on the heap. *)
Fixpoint foldH {A B : Type} (f : B -> A -> H B) (acc : B) (l : list A) : H B :=
  match l with
  | [] => mret acc
  | x :: l' => acc' ← f acc x; foldH f acc' l'
  end.

(** [d[k] = v] on a dictionary from positions to numbers, an association
    list in insertion order: a key that is there keeps its place. *)
Fixpoint dict_set (d : list (position * Z)) (k : position) (v : Z)
  : list (position * Z) :=
  match d with
  | [] => [(k, v)]
  | (k', v') :: rest =>
      if bool_decide (k' = k) then (k', v) :: rest
      else (k', v') :: dict_set rest k v
  end.

(** The list at [l]. *)
Definition read_grid (l : loc) : H BoardGridType := fun h =>
  match grids h !! l with
  | Some g => (Ok g, h)
  | None => (Fault NoObject, h)
  end.

(** The two inner loops of [sim_num_pieces]: the cells of [sim.grid] at
    which [sim.piece_at] answers [turn]. *)
Definition count_turn (sim : loc) (turn : Z) : H Z :=
  copy ← grid sim;
  g ← read_grid copy;
  foldH (fun num_pieces '((i, j), _) =>
           piece ← observe sim (fun s => piece_at s (i, j));
           mret (if bool_decide (piece = Some turn) then num_pieces + 1
                 else num_pieces))
        0 (enumerate_grid g).

(** [self.sim_num_pieces(moves, turn)] *)
Definition sim_num_pieces (self : loc) (moves : list position) (turn : Z)
  : H (list (position * Z)) :=
  foldH (fun pieces_dict move =>
           sim ← simulate_moves self [move];
           num_pieces ← count_turn sim turn;
           mret (dict_set pieces_dict move num_pieces))
        [] moves.

End Store.

(** ** The class [Piece] *)

Module Piece.

Record t : Type := mk {
  _pos : position;
  _grid : BoardGridType
}.

(** [Piece.__init__]: the grid is that of a new engine, and the position
    is checked after the engine is made. *)
Definition __init__ (side players : Z) (othello : bool) (pos : position)
  : result t :=
  reversi_game ← __init__ side players othello;
  let '(mkReversi _ _ _ grid _) := reversi_game in
  if negb (_in_bounds reversi_game pos) then
    Raise (ValueError Msg.sim_out_of_bounds)
  else Ok (mk pos grid).

(** [Piece.player_num] *)
Definition player_num (self : t) : result cell :=
  let '(row, col) := _pos self in
  r ← py_get (_grid self) row; py_get r col.

(** [Piece.piece_at] *)
Definition piece_at (self : t) : position := _pos self.

End Piece.

(** ** The strategies [Random] and [Smart] of [bot.py]

    A strategy holds a reference to the game. The random source is the
    index that [random.choice] draws for a sequence of a given
    length. *)

Module Bot.
Import Store.

Definition empty_max : string := "max() arg is an empty sequence".

(** [max(values)] *)
Definition py_max (values : list Z) : result Z :=
  match values with
  | [] => Raise (ValueError empty_max)
  | v :: values' => Ok (foldl Z.max v values')
  end.

Section random.
Context (randbelow : nat → nat).

(** [random.choice(seq)] *)
Definition choice {A : Type} (seq : list A) : result A :=
  if bool_decide (length seq = 0%nat) then Raise IndexError
  else
    match seq !! randbelow (length seq) with
    | Some x => Ok x
    | None => Raise IndexError
    end.

(** [Random.best_move] *)
Definition random_best_move (game : loc) : H position :=
  moves ← observe game available_moves;
  lift_result (choice moves).

(** [Smart.best_move]: [max] is asked for every item of the
    dictionary. *)
Definition smart_best_move (game : loc) : H position :=
  moves ← observe game available_moves;
  turn ← turn game;
  num_pc ← sim_num_pieces game moves turn;
  lift_result
    (best_moves ←
       foldM (fun best_moves '(key, val) =>
                m ← py_max (num_pc.*2);
                Ok (if bool_decide (val = m) then best_moves ++ [key]
                    else best_moves))
             [] num_pc;
     choice best_moves).
End random.

End Bot.

(** ** Game states and the words of the specification *)

(** The cell at a position of the board, [None] off the board. *)
Definition cell_at (self : Reversi) (pos : position) : option cell :=
  if _in_bounds self pos then
    _grid self !! Z.to_nat pos.1 ≫= (fun row => row !! Z.to_nat pos.2)
  else None.

(** The grid is [side] by [side]. *)
Definition square (side : Z) (g : BoardGridType) : Prop :=
  length g = Z.to_nat side ∧ Forall (fun row => length row = Z.to_nat side) g.

(** Every cell is [None] or a label in [[1, players]]. *)
Definition label_ok (players : Z) (c : cell) : Prop :=
  match c with
  | Some q => 1 <= q <= players
  | None => True
  end.

Definition labelled (players : Z) (g : BoardGridType) : Prop :=
  Forall (Forall (label_ok players)) g.

#[global] Instance square_dec side g : Decision (square side g).
Proof. unfold square. apply _. Defined.

#[global] Instance label_ok_dec players c : Decision (label_ok players c).
Proof. destruct c; apply _. Defined.

#[global] Instance labelled_dec players g : Decision (labelled players g).
Proof. unfold labelled. apply _. Defined.

(** A game state as the data model words it: at least one player, a grid
    of [side] by [side] with labels of players, and a turn that is a
    player. Nothing bounds the number of players by the side, and the
    constructor does not either. *)
Definition data_state (self : Reversi) : Prop :=
  1 <= _players self
  ∧ square (_side self) (_grid self)
  ∧ labelled (_players self) (_grid self)
  ∧ 1 <= _turn self <= _players self.

#[global] Instance data_state_dec self : Decision (data_state self).
Proof. unfold data_state. apply _. Defined.

(** A game state whose center block lies on the board: a state of the
    data model, [data_state], with at most [side] players. *)
Definition game_state (self : Reversi) : Prop :=
  1 <= _players self <= _side self
  ∧ square (_side self) (_grid self)
  ∧ labelled (_players self) (_grid self)
  ∧ 1 <= _turn self <= _players self.

#[global] Instance game_state_dec self : Decision (game_state self).
Proof. unfold game_state. apply _. Defined.

(** The center block: rows and columns
    [[(side - players) / 2, side - (side - players) / 2)]. *)
Definition in_center (self : Reversi) (pos : position) : Prop :=
  let lo := (_side self - _players self) / 2 in
  let hi := _side self - (_side self - _players self) / 2 in
  (lo <= pos.1 < hi) ∧ (lo <= pos.2 < hi).

(** Regime B: every square of the center block holds a piece. *)
Definition center_full (self : Reversi) : Prop :=
  ∀ pos, in_center self pos → ∃ q, cell_at self pos = Some (Some q).

(** The position [k] steps from [pos] in a direction. *)
Definition ahead (pos : position) (direction : Z * Z) (k : Z) : position :=
  (pos.1 + k * direction.1, pos.2 + k * direction.2).

(** A ray captures: from the cell next to [pos] it passes through [n]
    cells of other players, [n] at least [least], and then lands on a cell
    of [player], all on the board. *)
Definition ray_captures (least : nat) (self : Reversi) (player : Z)
    (pos : position) (direction : Z * Z) : Prop :=
  ∃ n : nat,
    (least <= n)%nat
    ∧ (∀ k, 1 <= k <= Z.of_nat n →
         ∃ q, cell_at self (ahead pos direction k) = Some (Some q) ∧ q ≠ player)
    ∧ cell_at self (ahead pos direction (Z.of_nat n + 1)) = Some (Some player).

(** The moves of [player], asked as if it were that player's turn. *)
Definition moves_of (self : Reversi) (player : Z) : result (list position) :=
  available_moves (with_turn player self).

(** The player after [t], with player [players] followed by player 1. *)
Definition following (players t : Z) : Z :=
  if bool_decide (t = players) then 1 else t + 1.

(** The number of occupied cells, and of the pieces of one player. *)
Definition occupied (g : BoardGridType) : nat :=
  length (filter (fun c : cell => c ≠ None) (concat g)).

Definition pieces_of (g : BoardGridType) (player : Z) : nat :=
  length (filter (fun c : cell => c = Some player) (concat g)).

#[global] Instance in_center_dec self pos : Decision (in_center self pos).
Proof. unfold in_center. apply _. Defined.

(** ** Notions of the proofs *)

(** A cell of a player other than [player]. *)
Definition foreign (player : Z) (c : cell) : Prop := ∃ q, c = Some q ∧ q ≠ player.

(** The cell [k] steps from [pos] in the direction [(rs, cs)] belongs to
    a player other than [player]. *)
Definition foreign_at (self : Reversi) (player : Z) (pos : position)
    (rs cs k : Z) : Prop :=
  ∃ q, cell_at self (ahead pos (rs, cs) k) = Some (Some q) ∧ q ≠ player.

(** The number of steps that are left before a walk leaves the board. *)
Definition room (self : Reversi) (direction : Z * Z) (pos : position) : Z :=
  if bool_decide (direction.1 = 1) then _side self - 1 - pos.1
  else if bool_decide (direction.1 = -1) then pos.1
  else if bool_decide (direction.2 = 1) then _side self - 1 - pos.2
  else pos.2.

(** What [check_direction_loop] answers when it starts [k] steps from
    [pos]: it ends on a cell that is empty or of [player], or it leaves
    the board, after cells of other players only. *)
Definition walk_post (self : Reversi) (player : Z) (pos : position)
    (rs cs k : Z) (w : option (Z * Z * cell)) : Prop :=
  match w with
  | Some (r, c, lp) =>
      ∃ m, k <= m ∧ (r, c) = ahead pos (rs, cs) m
           ∧ cell_at self (r, c) = Some lp
           ∧ not_in_none_player lp player = false
           ∧ ∀ j, k <= j < m → foreign_at self player pos rs cs j
  | None =>
      ∃ m, k < m ∧ _in_bounds self (ahead pos (rs, cs) m) = false
           ∧ ∀ j, k <= j < m → foreign_at self player pos rs cs j
  end.

(** Some direction captures for the player to move. *)
Definition captures_some (self : Reversi) (pos : position) : Prop :=
  ∃ d, d ∈ directions ∧ ray_captures 1 self (_turn self) pos d.

(** A cell outside the center block holds a piece. *)
Definition outside_occupied (self : Reversi) : Prop :=
  ∃ pos q, cell_at self pos = Some (Some q) ∧ ¬ in_center self pos.

(** The squares of the center block are on the board. *)
Definition center_on_board (self : Reversi) : Prop :=
  ∀ sq, in_center self sq → _in_bounds self sq = true.

(** No player has a move on the grid [g]. *)
Definition over (g : BoardGridType) (side players : Z) (othello : bool) : Prop :=
  ∀ player, 1 <= player <= players →
    moves_of (mkReversi side players othello g 1) player = Ok [].

(** The number of pieces in a row. *)
Definition row_occupied (row : list cell) : nat :=
  length (filter (fun c : cell => c ≠ None) row).

(** From [g] to [g'], cells of other players became cells of [t], and
    nothing else changed. *)
Definition flips (side players : Z) (othello : bool) (t : Z)
    (g g' : BoardGridType) : Prop :=
  square side g'
  ∧ occupied g' = occupied g
  ∧ ∀ pos, cell_at (mkReversi side players othello g' t) pos
           = cell_at (mkReversi side players othello g t) pos
           ∨ ((∃ q, cell_at (mkReversi side players othello g t) pos
                    = Some (Some q) ∧ q ≠ t)
              ∧ cell_at (mkReversi side players othello g' t) pos
                = Some (Some t)).

(** The walk from step [j] finds a cell of [t] at step [m], after cells
    of other players only. *)
Definition bracket (side players : Z) (othello : bool) (t : Z)
    (pos : position) (rs cs : Z) (g : BoardGridType) (j m : Z) : Prop :=
  j <= m
  ∧ (∀ k, j <= k < m →
       foreign_at (mkReversi side players othello g t) t pos rs cs k)
  ∧ cell_at (mkReversi side players othello g t) (ahead pos (rs, cs) m)
    = Some (Some t).

(** The part of [apply_move] that works on the grid: the piece is placed,
    and cells of other players are turned over. *)
Definition placed (side players : Z) (othello : bool) (t : Z)
    (pos : position) (g g' : BoardGridType) : Prop :=
  square side g'
  ∧ cell_at (mkReversi side players othello g' t) pos = Some (Some t)
  ∧ (∀ old, cell_at (mkReversi side players othello g t) pos = Some old →
       occupied g' = (occupied g + if old is None then 1 else 0)%nat)
  ∧ ∀ p, p ≠ pos →
         cell_at (mkReversi side players othello g' t) p
         = cell_at (mkReversi side players othello g t) p
         ∨ ((∃ q, cell_at (mkReversi side players othello g t) p
                  = Some (Some q) ∧ q ≠ t)
            ∧ cell_at (mkReversi side players othello g' t) p
              = Some (Some t)).

(** The number of cells with the label [k]. *)
Definition count (k : Z) (cells : list cell) : nat :=
  length (filter (fun c : cell => c = Some k) cells).

(** The dictionary after the cells [cells]: one entry for every label
    that occurs, with the number of its occurrences. *)
Definition counted (d : list (Z * Z)) (cells : list cell) : Prop :=
  NoDup (d.*1)
  ∧ ∀ k v, (k, v) ∈ d ↔ v = Z.of_nat (count k cells) ∧ (0 < count k cells)%nat.

(** One step of the two loops of [count_pieces]. *)
Definition count_step (player_pieces : list (Z * Z)) (c : cell) : list (Z * Z) :=
  match c with
  | Some label => dict_count player_pieces label
  | None => player_pieces
  end.

(** [m] keeps [P]: the state it leaves satisfies [P], whether [m] returns
    or raises. *)
Definition keeps (P : Reversi → Prop) {A : Type} (m : M A) : Prop :=
  ∀ s, P s → P (m s).2.

(** Every row has [n] cells, when a number [n] is given. *)
Definition rows_ok (n : option nat) (g : BoardGridType) : Prop :=
  match n with
  | Some n => Forall (fun row : list cell => length row = n) g
  | None => True
  end.

(** The engine is the one that was made, its grid has [k] rows of labels
    of players, and the turn is a player. *)
Definition inv (side players : Z) (othello : bool) (k : nat) (n : option nat)
    (s : Reversi) : Prop :=
  _side s = side ∧ _players s = players ∧ _othello s = othello
  ∧ length (_grid s) = k ∧ rows_ok n (_grid s)
  ∧ labelled players (_grid s) ∧ 1 <= _turn s <= players.

(** No engine other than the one at [self] holds the list at [grid]. *)
Definition unshared (h : Store.heap) (self grid : Store.loc) : Prop :=
  ∀ other o, Store.objects h !! other = Some o → other ≠ self →
    Store.o_grid o ≠ grid.

(** No engine holds the list at [l]. *)
Definition unheld (h : Store.heap) (l : Store.loc) : Prop :=
  ∀ self o, Store.objects h !! self = Some o → Store.o_grid o ≠ l.

(** The heaps of a program that makes engines and lists and calls
    [apply_move], [load_game] and [grid] on any of them, with whatever
    result. An engine keeps the list that [load_game] is given, so that
    the same list can be given to several engines: [allowed h self grid]
    says which lists the engine at [self] may be given in the heap [h].
    The program writes to its lists too, but not while an engine holds
    them. A list is a grid with its rows, which the heap stores as a
    whole. *)
Inductive reachable (allowed : Store.heap → Store.loc → Store.loc → Prop)
    : Store.heap → Prop :=
  | reach_empty : reachable allowed (Store.mkHeap ∅ ∅)
  | reach_new h side players othello :
      reachable allowed h →
      reachable allowed (Store.new side players othello h).2
  | reach_list h g :
      reachable allowed h → reachable allowed (Store.alloc_grid g h).2
  | reach_write h l g :
      reachable allowed h → unheld h l →
      reachable allowed (Store.write_list l g h).2
  | reach_grid h self :
      reachable allowed h → reachable allowed (Store.grid self h).2
  | reach_apply_move h self pos :
      reachable allowed h → reachable allowed (Store.apply_move self pos h).2
  | reach_load_game h self turn grid :
      reachable allowed h → allowed h self grid →
      reachable allowed (Store.load_game self turn grid h).2.

(** The rows of every list that [allowed] lets through have the length
    of the side of the engine that is given the list. *)
Definition full_rows (allowed : Store.heap → Store.loc → Store.loc → Prop)
    : Prop :=
  ∀ h self grid o g,
    allowed h self grid →
    Store.objects h !! self = Some o → Store.grids h !! grid = Some g →
    Forall (fun row => length row = Z.to_nat (Store.o_side o)) g.

(** The object [o] with the list [g] as its grid: the constructor
    accepts its side and players, and with one player or more it
    satisfies [inv]; [rows] asks for rows of length [side] too. *)
Definition object_inv (rows : bool) (o : Store.object) (g : BoardGridType)
    : Prop :=
  (∃ s0, __init__ (Store.o_side o) (Store.o_players o) (Store.o_othello o)
         = Ok s0)
  ∧ (1 <= Store.o_players o →
     inv (Store.o_side o) (Store.o_players o) (Store.o_othello o)
       (Z.to_nat (Store.o_side o))
       (if rows then Some (Z.to_nat (Store.o_side o)) else None)
       (mkReversi (Store.o_side o) (Store.o_players o) (Store.o_othello o)
          g (Store.o_turn o))).

(** Every engine of the heap has its grid in the heap, and no two
    engines hold the same list. *)
Definition heap_inv (rows : bool) (h : Store.heap) : Prop :=
  (∀ self o, Store.objects h !! self = Some o →
     ∃ g, Store.grids h !! Store.o_grid o = Some g ∧ object_inv rows o g)
  ∧ (∀ a b oa ob,
       Store.objects h !! a = Some oa → Store.objects h !! b = Some ob →
       Store.o_grid oa = Store.o_grid ob → a = b).

(** [m] keeps [P] in the heap, whether it returns or raises. *)
Definition keeps_heap (P : Store.heap → Prop) {A : Type} (m : Store.H A) : Prop :=
  ∀ h, P h → P (m h).2.

(** The object at [self] and its grid are as they were. *)
Definition kept (self : Store.loc) (o : Store.object) (g : BoardGridType)
    (h : Store.heap) : Prop :=
  Store.objects h !! self = Some o ∧ Store.grids h !! Store.o_grid o = Some g.

(** The engine at [sim] is another object than the one at [self], with
    another grid. *)
Definition apart (self : Store.loc) (o : Store.object) (g : BoardGridType)
    (sim : Store.loc) (h : Store.heap) : Prop :=
  kept self o g h ∧ sim ≠ self
  ∧ ∃ osim, Store.objects h !! sim = Some osim
            ∧ Store.o_grid osim ≠ Store.o_grid o.

(** The grid that [__init__] allocates. *)
Definition empty_grid (side : Z) : BoardGridType :=
  (fun _ => replicate (Z.to_nat side) None) <$> range 0 side.

(** The four pieces of the opening of Othello. *)
Definition othello_seed (side : Z) (pos : position) : cell :=
  let h := side / 2 in
  if decide (pos = (h, h) ∨ pos = (h - 1, h - 1)) then Some 2
  else if decide (pos = (h - 1, h) ∨ pos = (h, h - 1)) then Some 1
  else None.

(** A cell that a move at [pos] captures for [player]: it lies on one of
    the eight rays from [pos], among cells of other players that are
    followed by a cell of [player]. *)
Definition captured (self : Reversi) (player : Z) (pos p : position) : Prop :=
  ∃ d k m, d ∈ directions ∧ 1 <= k < m ∧ p = ahead pos d k
    ∧ (∀ j, 1 <= j < m →
         ∃ q, cell_at self (ahead pos d j) = Some (Some q) ∧ q ≠ player)
    ∧ cell_at self (ahead pos d m) = Some (Some player).

(** The cells that the directions [dirs] capture on the grid [g]. *)
Definition captured_in (side players : Z) (othello : bool) (t : Z)
    (pos : position) (g : BoardGridType) (dirs : list (Z * Z))
    (p : position) : Prop :=
  ∃ d k m, d ∈ dirs ∧ 1 <= k < m ∧ p = ahead pos d k
    ∧ bracket side players othello t pos d.1 d.2 g 1 m.

(** The part of [apply_move] that writes to the grid. *)
Definition place (pos : position) : M unit :=
  self ← get;
  let '(row, col) := pos in
  if negb (_othello self) && bool_decide (pos ∈ _center_pieces self) then
    grid_set row col (_turn self)
  else
    grid_set row col (_turn self);;
    retrace_dir ← read (retrace_directions pos);
    forM_ (flip_direction pos) retrace_dir.

(** The engine [s'] is the engine [s] in another state. *)
Definition same_engine (s s' : Reversi) : Prop :=
  _side s' = _side s ∧ _players s' = _players s ∧ _othello s' = _othello s.

(** The body of the loop of [simulate_moves], on engine values: [self]
    is the receiver, [sim] the engine that plays the moves. *)
Definition simulate_step (self sim : Reversi) (move : position)
  : result Reversi :=
  let '(row, col) := move in
  if negb (_in_bounds self move) then Raise (ValueError Msg.sim_out_of_bounds)
  else
    here ← grid_get sim row col;
    if bool_decide (here ≠ None) then Raise (ValueError Msg.occupied)
    else
      match apply_move move sim with
      | (Ok _, sim') => Ok sim'
      | (Raise e, _) => Raise e
      | (Fault x, _) => Fault x
      end.

(** [simulate_moves] on engine values: a new engine is made, the state
    of [self] is loaded into it, and the moves are played. *)
Definition simulate (self : Reversi) (moves : list position) : result Reversi :=
  sim ← __init__ (_side self) (_players self) (_othello self);
  load_game_checks (_turn self) (_grid self) sim;;
  foldM (simulate_step self)
    (mkReversi (_side sim) (_players sim) (_othello sim) (_grid self) (_turn self))
    moves.

(** [sim_num_pieces] on engine values. *)
Definition num_pieces (self : Reversi) (moves : list position) (turn : Z)
  : result (list (position * Z)) :=
  foldM (fun pieces_dict move =>
           sim ← simulate self [move];
           Ok (Store.dict_set pieces_dict move
                 (Z.of_nat (pieces_of (_grid sim) turn))))
        [] moves.

(** The object at [sim] stands for [cur], apart from the receiver. *)
Definition simulating (self : Store.loc) (o : Store.object) (g : BoardGridType)
    (sim : Store.loc) (cur : Reversi) (h : Store.heap) : Prop :=
  apart self o g sim h ∧ Store.view h sim = Some cur.

(** ** Some engines *)

(** The engine that [Reversi(8, 2, True)] makes. *)
Definition othello_8 : Reversi :=
  mkReversi 8 2 true
    [[None; None; None; None; None; None; None; None];
     [None; None; None; None; None; None; None; None];
     [None; None; None; None; None; None; None; None];
     [None; None; None; Some 2; Some 1; None; None; None];
     [None; None; None; Some 1; Some 2; None; None; None];
     [None; None; None; None; None; None; None; None];
     [None; None; None; None; None; None; None; None];
     [None; None; None; None; None; None; None; None]]
    1.

(** The grid of the test [test_turn_skip_1]. *)
Definition skip_4 : Reversi :=
  mkReversi 4 2 true
    [[Some 1; Some 1; Some 1; None]; [Some 1; Some 1; Some 1; None];
     [None; Some 1; Some 2; None]; [None; None; None; None]]
    1.

(** The engine that [Reversi(4, 2, False)] makes. *)
Definition empty_4 : Reversi :=
  mkReversi 4 2 false
    [[None; None; None; None]; [None; None; None; None];
     [None; None; None; None]; [None; None; None; None]]
    1.

(** A full board, with eight pieces for each of two players. *)
Definition full_4 : Reversi :=
  mkReversi 4 2 true
    [[Some 1; Some 1; Some 2; Some 2]; [Some 1; Some 1; Some 2; Some 2];
     [Some 1; Some 1; Some 2; Some 2]; [Some 1; Some 1; Some 2; Some 2]]
    1.

(** Four rows of one cell, loaded into an engine of side four. *)
Definition ragged_grid : BoardGridType := [[None]; [None]; [None]; [None]].

Definition ragged_4 : Reversi := mkReversi 4 2 true ragged_grid 1.

(** The engine that [Reversi(4, 0, False)] makes, after a move. *)
Definition nobody_4 : Reversi :=
  mkReversi 4 0 false
    [[Some 1; None; None; None]; [None; None; None; None];
     [None; None; None; None]; [None; None; None; None]]
    1.

(** A heap with the engine of [Reversi(8, 2, True)] at location 0, and
    the same heap with a copy of the grid of that engine at location 1. *)
Definition heap_8 : Store.heap := (Store.new 8 2 true (Store.mkHeap ∅ ∅)).2.

Definition heap_8_copy : Store.heap := (Store.grid 0%nat heap_8).2.

(** A game that is not Othello, with two pieces outside the empty center
    block. *)
Definition stray_4 : Reversi :=
  mkReversi 4 2 false
    [[None; Some 2; Some 1; None]; [None; None; None; None];
     [None; None; None; None]; [None; None; None; None]]
    1.

(** The engine that [Reversi(3, 5, False)] makes. *)
Definition crowded_3 : Reversi :=
  mkReversi 3 5 false
    [[None; None; None]; [None; None; None]; [None; None; None]] 1.

(** The engine that [Reversi(3, -1, False)] makes. *)
Definition nobody_3 : Reversi :=
  mkReversi 3 (-1) false
    [[None; None; None]; [None; None; None]; [None; None; None]] 1.


(** The engine of [heap_8_copy] is given the copy of its grid with
    player 2 to move, who then moves at (2, 4). *)
Definition loaded_heap : Store.heap :=
  (Store.apply_move 0%nat (2, 4)
     (Store.load_game 0%nat 2 1%nat heap_8_copy).2).2.

(** [Reversi(4, 2, True)] is given four rows of one cell. *)
Definition ragged_heap : Store.heap :=
  let h1 := (Store.new 4 2 true (Store.mkHeap ∅ ∅)).2 in
  let h2 := (Store.alloc_grid ragged_grid h1).2 in
  (Store.load_game 0%nat 1 1%nat h2).2.

(** [Reversi(4, 0, False)], after a move at (0, 0). *)
Definition nobody_heap : Store.heap :=
  let h1 := (Store.new 4 0 false (Store.mkHeap ∅ ∅)).2 in
  (Store.apply_move 0%nat (0, 0) h1).2.

(** [a = Reversi(4, 2, False)] and [b = Reversi(4, 4, False)] are given
    the same list, [a.load_game(1, g)] and [b.load_game(3, g)], and then
    player 3 moves in [b]: [b.apply_move((0, 0))]. *)
Definition shared_heap : Store.heap :=
  let h1 := (Store.new 4 2 false (Store.mkHeap ∅ ∅)).2 in
  let h2 := (Store.new 4 4 false h1).2 in
  let h3 := (Store.grid 0%nat h2).2 in
  let h4 := (Store.load_game 0%nat 1 2%nat h3).2 in
  let h5 := (Store.load_game 1%nat 3 2%nat h4).2 in
  (Store.apply_move 1%nat (0, 0) h5).2.

(** The engine [a] of [shared_heap], as it is after the move in [b]. *)
Definition shared_4 : Reversi :=
  mkReversi 4 2 false
    [[Some 3; None; None; None]; [None; None; None; None];
     [None; None; None; None]; [None; None; None; None]]
    1.

(** ** Tactics *)

Ltac each_direction H :=
  unfold directions in H;
  repeat (apply elem_of_cons in H as [->|H]);
  [..|by apply elem_of_nil in H].

(** * Proofs *)

(** ** Lists and cells *)

Lemma py_get_lookup {A} (l : list A) (i : Z) (x : A) :
  0 <= i → l !! Z.to_nat i = Some x → py_get l i = Ok x.
Proof.
  intros Hi Hx. unfold py_get, py_index.
  pose proof (lookup_lt_Some _ _ _ Hx).
  rewrite bool_decide_eq_true_2 by lia. simpl. by rewrite Hx.
Qed.

Lemma py_set_lookup {A} (l : list A) (i : Z) (x : A) :
  0 <= i < Z.of_nat (length l) → py_set l i x = Ok (<[Z.to_nat i := x]> l).
Proof.
  intros Hi. unfold py_set, py_index. by rewrite bool_decide_eq_true_2 by lia.
Qed.

Lemma in_bounds_spec self row col :
  _in_bounds self (row, col) = true ↔ 0 <= row < _side self ∧ 0 <= col < _side self.
Proof.
  unfold _in_bounds. rewrite andb_true_iff, !bool_decide_eq_true. tauto.
Qed.

Lemma cell_at_in_bounds self pos c :
  cell_at self pos = Some c → _in_bounds self pos = true.
Proof. unfold cell_at. by destruct (_in_bounds self pos). Qed.

Lemma cell_at_grid_get self row col c :
  cell_at self (row, col) = Some c → grid_get self row col = Ok c.
Proof.
  intros H. pose proof (cell_at_in_bounds _ _ _ H) as Hb.
  apply in_bounds_spec in Hb. unfold cell_at in H.
  destruct (_in_bounds self (row, col)); [|done]. cbn [fst snd] in H.
  destruct (_grid self !! Z.to_nat row) as [r|] eqn:Hr; [|done]. simpl in H.
  unfold grid_get. rewrite (py_get_lookup _ _ r) by (done || lia). simpl.
  apply py_get_lookup; [lia|done].
Qed.

Lemma cell_at_square self pos :
  square (_side self) (_grid self) → _in_bounds self pos = true →
  is_Some (cell_at self pos).
Proof.
  intros [Hlen Hrows] Hb. destruct pos as [row col].
  pose proof Hb as Hb'. apply in_bounds_spec in Hb'.
  unfold cell_at. rewrite Hb. cbn [fst snd].
  destruct (lookup_lt_is_Some_2 (_grid self) (Z.to_nat row)) as [r Hr]; [lia|].
  rewrite Hr. simpl. apply lookup_lt_is_Some_2.
  rewrite Forall_forall in Hrows.
  rewrite (Hrows r) by (by eapply list_elem_of_lookup_2). lia.
Qed.

(** ** Rays *)

Lemma not_in_none_player_true c player :
  not_in_none_player c player = true ↔ foreign player c.
Proof.
  unfold not_in_none_player, foreign. destruct c as [q|].
  - rewrite negb_true_iff, bool_decide_eq_false. split.
    + intros Hq. by exists q.
    + by intros (q' & [= <-] & Hq).
  - split; [done|]. by intros (q & [=] & _).
Qed.

Lemma not_in_none_player_false c player :
  not_in_none_player c player = false ↔ c = None ∨ c = Some player.
Proof.
  unfold not_in_none_player. destruct c as [q|].
  - rewrite negb_false_iff, bool_decide_eq_true. split.
    + intros ->. by right.
    + by intros [[=]|[= ->]].
  - split; [by left|done].
Qed.

Lemma room_bounds self d pos :
  d ∈ directions → _in_bounds self pos = true → 0 <= room self d pos < _side self.
Proof.
  intros Hd Hb. destruct pos as [r c]. apply in_bounds_spec in Hb.
  each_direction Hd; unfold room; simpl; lia.
Qed.

Lemma room_step self d pos :
  d ∈ directions →
  room self d (pos.1 + d.1, pos.2 + d.2) = room self d pos - 1.
Proof.
  intros Hd. destruct pos as [r c].
  each_direction Hd; unfold room; simpl; lia.
Qed.

Lemma ahead_succ pos rs cs k r c :
  ahead pos (rs, cs) k = (r, c) → ahead pos (rs, cs) (k + 1) = (r + rs, c + cs).
Proof. unfold ahead. simpl. intros [= <- <-]. f_equal; lia. Qed.

Lemma ahead_1 pos rs cs : ahead pos (rs, cs) 1 = (pos.1 + rs, pos.2 + cs).
Proof. unfold ahead. simpl. f_equal; lia. Qed.

Section ray.
Context (self : Reversi) (player : Z) (pos : position) (rs cs : Z).
Hypothesis Hsq : square (_side self) (_grid self).
Hypothesis Hd : (rs, cs) ∈ directions.

Local Abbreviation foreign_at := (foreign_at self player pos rs cs).

Local Abbreviation walk_post := (walk_post self player pos rs cs).

Lemma walk_post_step k w :
  foreign_at k → walk_post (k + 1) w → walk_post k w.
Proof.
  intros Hk. destruct w as [[[r c] lp]|]; cbn [walk_post].
  - intros (m & Hm & Hrc & Hc & Hn & Hall).
    exists m. repeat split; try done; try lia.
    intros j Hj. destruct (decide (j = k)) as [->|]; [done|].
    apply Hall. lia.
  - intros (m & Hm & Hout & Hall).
    exists m. repeat split; try done; try lia.
    intros j Hj. destruct (decide (j = k)) as [->|]; [done|].
    apply Hall. lia.
Qed.

Lemma check_direction_loop_spec fuel : ∀ k r c lp,
  ahead pos (rs, cs) k = (r, c) →
  cell_at self (r, c) = Some lp →
  room self (rs, cs) (r, c) < Z.of_nat fuel →
  ∃ w, check_direction_loop fuel self player rs cs r c lp = Ok w
       ∧ walk_post k w.
Proof.
  induction fuel as [|fuel IH]; intros k r c lp Hk Hcell Hroom.
  - pose proof (room_bounds self _ _ Hd (cell_at_in_bounds _ _ _ Hcell)). lia.
  - cbn [check_direction_loop].
    destruct (not_in_none_player lp player) eqn:Hlp.
    + assert (Hfk : foreign_at k).
      { apply not_in_none_player_true in Hlp as (q & -> & Hq).
        exists q. by rewrite Hk. }
      pose proof (ahead_succ _ _ _ _ _ _ Hk) as Hk'.
      destruct (_in_bounds self (r + rs, c + cs)) eqn:Hb; cbn [negb].
      * destruct (cell_at_square self _ Hsq Hb) as [lp' Hlp'].
        rewrite (cell_at_grid_get _ _ _ _ Hlp'). cbn [mbind result_bind].
        destruct (IH (k + 1) _ _ lp' Hk' Hlp') as (w & Hw & Hpost).
        { pose proof (room_step self (rs, cs) (r, c) Hd) as Hs.
          cbn [fst snd] in Hs. lia. }
        exists w. split; [done|]. by apply walk_post_step.
      * exists None. split; [done|]. exists (k + 1).
        rewrite Hk'. repeat split; [lia|done|].
        intros j Hj. by replace j with k by lia.
    + exists (Some (r, c, lp)). split; [done|]. exists k.
      repeat split; try done; try lia.
Qed.

(** There is one answer to where a walk through foreign cells ends. *)
Lemma captures_walk_post n w :
  (∀ k, 1 <= k <= Z.of_nat n → foreign_at k) →
  cell_at self (ahead pos (rs, cs) (Z.of_nat n + 1)) = Some (Some player) →
  walk_post 1 w →
  ∃ r c, w = Some (r, c, Some player) ∧ _in_bounds self (r, c) = true.
Proof.
  intros Hall Hland Hw. destruct w as [[[r c] lp]|]; cbn [walk_post] in Hw.
  - destruct Hw as (m & Hm & Hrc & Hc & Hn & Hbefore).
    assert (m = Z.of_nat n + 1) as ->.
    { destruct (Z.lt_trichotomy m (Z.of_nat n + 1)) as [Hlt|[->|Hgt]]; [|done|].
      - destruct (Hall m) as (q & Hq & Hne); [lia|].
        rewrite <- Hrc, Hc in Hq. injection Hq as ->.
        apply not_in_none_player_false in Hn as [[=]|[= ->]]. done.
      - destruct (Hbefore (Z.of_nat n + 1)) as (q & Hq & Hne); [lia|].
        rewrite Hland in Hq. by injection Hq as <-. }
    rewrite <- Hrc, Hc in Hland. injection Hland as ->.
    exists r, c. split; [done|]. by eapply cell_at_in_bounds.
  - destruct Hw as (m & Hm & Hout & Hbefore).
    destruct (Z.le_gt_cases m (Z.of_nat n)) as [Hle|Hgt].
    + destruct (Hall m) as (q & Hq & _); [lia|].
      apply cell_at_in_bounds in Hq. congruence.
    + destruct (decide (m = Z.of_nat n + 1)) as [->|].
      * apply cell_at_in_bounds in Hland. congruence.
      * destruct (Hbefore (Z.of_nat n + 1)) as (q & Hq & Hne); [lia|].
        rewrite Hland in Hq. by injection Hq as <-.
Qed.

(** [_check_direction] answers, and finds an origin piece exactly when
    the ray passes through one or more cells of other players and lands
    on a cell of [player]. *)
Lemma check_direction_spec :
  ∃ o, _check_direction self player pos (rs, cs) = Ok o
       ∧ (o ≠ None ↔ ray_captures 1 self player pos (rs, cs)).
Proof.
  unfold _check_direction. destruct pos as [row col] eqn:Ep.
  assert (H1 : ahead pos (rs, cs) 1 = (row + rs, col + cs)).
  { rewrite ahead_1. by rewrite Ep. }
  rewrite <- Ep in *. clear Ep.
  destruct (_in_bounds self (row + rs, col + cs)) eqn:Hb; cbn [negb].
  - destruct (cell_at_square self _ Hsq Hb) as [lp Hlp].
    rewrite (cell_at_grid_get _ _ _ _ Hlp). cbn [mbind result_bind].
    destruct (not_in_none_player lp player) eqn:Hf.
    + destruct (check_direction_loop_spec (Z.to_nat (_side self)) 1 _ _ lp H1 Hlp)
        as (w & -> & Hw).
      { pose proof (room_bounds self _ _ Hd Hb). lia. }
      cbn [mbind result_bind].
      assert (Hcap : ray_captures 1 self player pos (rs, cs) →
                     ∃ r c, w = Some (r, c, Some player)
                            ∧ _in_bounds self (r, c) = true).
      { intros (n & Hn & Hall & Hland). by eapply captures_walk_post. }
      destruct w as [[[r c] lp']|].
      * destruct (_in_bounds self (r, c) && bool_decide (lp' = Some player))
          eqn:Hok.
        -- eexists. split; [done|]. split; [|done]. intros _.
           apply andb_true_iff in Hok as [_ Hp%bool_decide_eq_true]. subst lp'.
           destruct Hw as (m & Hm & Hrc & Hc & Hn & Hbefore).
           exists (Z.to_nat (m - 1)). split; [|split].
           ++ destruct (decide (m = 1)) as [->|]; [|lia].
              rewrite <- Hrc in H1. injection H1 as -> ->.
              rewrite Hlp in Hc. injection Hc as ->.
              apply not_in_none_player_true in Hf as (q & [= <-] & Hne). done.
           ++ intros k Hk. apply Hbefore. lia.
           ++ replace (Z.of_nat (Z.to_nat (m - 1)) + 1) with m by lia.
              by rewrite <- Hrc.
        -- eexists. split; [done|]. split; [done|]. intros Hc.
           destruct (Hcap Hc) as (r' & c' & [= -> -> ->] & Hb').
           rewrite Hb', bool_decide_eq_true_2 in Hok by done. done.
      * eexists. split; [done|]. split; [done|]. intros Hc.
        by destruct (Hcap Hc) as (r' & c' & [=] & _).
    + eexists. split; [done|]. split; [done|].
      intros (n & Hn & Hall & Hland).
      destruct (Hall 1) as (q & Hq & Hne); [lia|].
      rewrite H1, Hlp in Hq. injection Hq as ->.
      apply not_in_none_player_false in Hf as [[=]|[= ->]]. done.
  - eexists. split; [done|]. split; [done|].
    intros (n & Hn & Hall & Hland).
    destruct (Hall 1) as (q & Hq & Hne); [lia|].
    rewrite H1 in Hq. apply cell_at_in_bounds in Hq. congruence.
Qed.
End ray.

(** ** Loops that may raise *)

Lemma mapM_ok {A B} (f : A → result B) (g : A → B) (l : list A) :
  (∀ x, x ∈ l → f x = Ok (g x)) → mapM f l = Ok (g <$> l).
Proof.
  induction l as [|x l IH]; intros Hf; [done|].
  cbn [mapM]. rewrite Hf by left. cbn [mbind result_bind].
  rewrite IH; [done|]. intros y Hy. apply Hf. by right.
Qed.

Lemma existsM_ok {A} (f : A → result bool) (g : A → bool) (l : list A) :
  (∀ x, x ∈ l → f x = Ok (g x)) → existsM f l = Ok (existsb g l).
Proof.
  induction l as [|x l IH]; intros Hf; [done|].
  cbn [existsM existsb]. rewrite Hf by left. cbn [mbind result_bind].
  destruct (g x); [done|]. apply IH. intros y Hy. apply Hf. by right.
Qed.

Lemma find_None_iff {A} (f : A → bool) (l : list A) :
  find f l = None ↔ ∀ x, x ∈ l → f x = false.
Proof.
  induction l as [|x l IH]; cbn [find].
  - split; [|done]. intros _ x Hx. by apply elem_of_nil in Hx.
  - destruct (f x) eqn:Hfx.
    + split; [done|]. intros H. rewrite H in Hfx by left. done.
    + rewrite IH. split.
      * intros H y [->|Hy]%elem_of_cons; auto.
      * intros H y Hy. apply H. by right.
Qed.

(** ** The squares of the board *)

Lemma elem_of_enumerate {A} (l : list A) (i : Z) (x : A) :
  (i, x) ∈ enumerate l ↔ 0 <= i ∧ l !! Z.to_nat i = Some x.
Proof.
  unfold enumerate, zip. rewrite list_elem_of_lookup. split.
  - intros (k & Hk). apply lookup_zip_with_Some in Hk as (i' & x' & [= -> ->] & Hi & Hx).
    apply lookup_seqZ in Hi as [-> _]. split; [lia|].
    by replace (Z.to_nat (0 + Z.of_nat k)) with k by lia.
  - intros [Hi Hx]. exists (Z.to_nat i). apply lookup_zip_with_Some.
    exists i, x. split; [done|]. split; [|done].
    apply lookup_seqZ. split; [lia|]. apply lookup_lt_Some in Hx. lia.
Qed.

Lemma elem_of_enumerate_grid (g : BoardGridType) (pos : position) (c : cell) :
  (pos, c) ∈ enumerate_grid g
  ↔ 0 <= pos.1 ∧ 0 <= pos.2
    ∧ g !! Z.to_nat pos.1 ≫= (fun row => row !! Z.to_nat pos.2) = Some c.
Proof.
  unfold enumerate_grid. rewrite list_elem_of_bind. split.
  - intros ([i row] & Hin & Hrow). apply list_elem_of_bind in Hin as ([j x] & Hin & Hx).
    apply list_elem_of_ret in Hin as [= -> ->].
    apply elem_of_enumerate in Hrow as [Hi Hrow], Hx as [Hj Hx].
    cbn [fst snd]. rewrite Hrow. done.
  - intros (Hi & Hj & Hc). destruct pos as [i j]. cbn [fst snd] in *.
    destruct (g !! Z.to_nat i) as [row|] eqn:Hrow; [|done]. cbn in Hc.
    exists (i, row). split; [|by apply elem_of_enumerate].
    apply list_elem_of_bind. exists (j, c). split; [by apply list_elem_of_ret|].
    by apply elem_of_enumerate.
Qed.

Lemma enumerate_grid_cell_at self pos c :
  square (_side self) (_grid self) →
  (pos, c) ∈ enumerate_grid (_grid self) ↔ cell_at self pos = Some c.
Proof.
  intros [Hlen Hrows]. rewrite elem_of_enumerate_grid. unfold cell_at.
  destruct pos as [i j]. cbn [fst snd]. split.
  - intros (Hi & Hj & Hc).
    destruct (_grid self !! Z.to_nat i) as [row|] eqn:Hrow; [|done]. cbn in Hc.
    assert (_in_bounds self (i, j) = true) as ->; [|done].
    apply in_bounds_spec. rewrite Forall_forall in Hrows.
    pose proof (Hrows row (list_elem_of_lookup_2 _ _ _ Hrow)).
    apply lookup_lt_Some in Hrow, Hc. lia.
  - destruct (_in_bounds self (i, j)) eqn:Hb; [|done].
    apply in_bounds_spec in Hb. intros Hc. repeat split; (lia || done).
Qed.

Lemma elem_of_center_pieces self pos :
  pos ∈ _center_pieces self ↔ in_center self pos.
Proof.
  unfold _center_pieces, in_center, range. rewrite list_elem_of_bind.
  destruct pos as [i j]. cbn [fst snd]. split.
  - intros (i' & Hin & Hi). apply list_elem_of_bind in Hin as (j' & Hin & Hj).
    apply list_elem_of_ret in Hin as [= -> ->].
    apply elem_of_seqZ in Hi, Hj. lia.
  - intros [Hi Hj]. exists i. split; [|apply elem_of_seqZ; lia].
    apply list_elem_of_bind. exists j. split; [by apply list_elem_of_ret|].
    apply elem_of_seqZ; lia.
Qed.

(** ** [legal_move] *)

Lemma center_on_board_players self :
  _players self <= _side self → center_on_board self.
Proof.
  intros Hp [i j] [Hi Hj]. cbn [fst snd] in *. apply in_bounds_spec.
  assert (0 <= (_side self - _players self) / 2) by (apply Z.div_pos; lia).
  lia.
Qed.

Lemma center_full_on_board self : center_full self → center_on_board self.
Proof. intros Hfull sq Hsq. destruct (Hfull sq Hsq) as [q Hq]. by eapply cell_at_in_bounds. Qed.

Section legal.
Context (self : Reversi).
Hypothesis Hsq : square (_side self) (_grid self).

Lemma some_direction_spec pos :
  ∃ b, some_direction self pos = Ok b ∧ (b = true ↔ captures_some self pos).
Proof.
  unfold some_direction, captures_some.
  assert (Hall : ∀ d, d ∈ directions →
            ∃ b, (move_loc ← _check_direction self (_turn self) pos d;
                  Ok (bool_decide (move_loc ≠ None))) = Ok b
                 ∧ (b = true ↔ ray_captures 1 self (_turn self) pos d)).
  { intros [rs cs] Hd.
    destruct (check_direction_spec self (_turn self) pos rs cs Hsq Hd) as (o & -> & Ho).
    eexists. split; [done|]. by rewrite bool_decide_eq_true. }
  induction directions as [|d ds IH]; cbn [existsM].
  - exists false. split; [done|]. split; [done|].
    intros (d & Hd & _). by apply elem_of_nil in Hd.
  - destruct (Hall d) as (b & -> & Hb); [by left|]. cbn [mbind result_bind].
    destruct b.
    + exists true. split; [done|]. split; [|done]. intros _. exists d.
      split; [by left|]. by apply Hb.
    + destruct IH as (b & -> & Hb').
      { intros d' Hd'. apply Hall. by right. }
      exists b. split; [done|]. rewrite Hb'. split.
      * intros (d' & Hd' & Hc). exists d'. split; [by right|done].
      * intros (d' & [->|Hd']%elem_of_cons & Hc).
        -- apply Hb in Hc. done.
        -- by exists d'.
Qed.

Lemma center_pieces_spec :
  center_on_board self →
  ∃ pieces, mapM (piece_at self) (_center_pieces self) = Ok pieces
            ∧ (None ∈ pieces → ¬ center_full self)
            ∧ (None ∉ pieces → center_full self).
Proof.
  intros Hon.
  assert (Hcell : ∀ sq, in_center self sq → is_Some (cell_at self sq)).
  { intros sq Hin. apply cell_at_square; [done|]. by apply Hon. }
  exists ((fun sq => default None (cell_at self sq)) <$> _center_pieces self).
  split; [|split].
  - apply mapM_ok. intros [i j] Hin%elem_of_center_pieces.
    unfold piece_at. rewrite (Hon _ Hin). cbn [negb].
    destruct (Hcell _ Hin) as [c Hc]. rewrite Hc. by apply cell_at_grid_get.
  - intros (sq & Hnone & Hin%elem_of_center_pieces)%list_elem_of_fmap Hfull.
    destruct (Hfull sq Hin) as [q Hq]. by rewrite Hq in Hnone.
  - intros Hnot sq Hin. destruct (Hcell _ Hin) as [[q|] Hc]; [by exists q|].
    exfalso. apply Hnot, list_elem_of_fmap. exists sq. rewrite Hc.
    split; [done|]. by apply elem_of_center_pieces.
Qed.

Lemma find_outside_spec :
  match find (fun '((i, j), iter_piece) =>
                bool_decide ((i, j) ∉ _center_pieces self)
                && bool_decide (iter_piece ≠ None))
             (enumerate_grid (_grid self)) with
  | Some _ => outside_occupied self
  | None => ¬ outside_occupied self
  end.
Proof.
  destruct (find _ _) as [[[i j] c]|] eqn:Hfind.
  - apply find_some in Hfind as [Hin%list_elem_of_In Hf].
    apply enumerate_grid_cell_at in Hin; [|done].
    apply andb_true_iff in Hf as [Hout%bool_decide_eq_true Hc%bool_decide_eq_true].
    destruct c as [q|]; [|done]. exists (i, j), q. split; [done|].
    by rewrite <- elem_of_center_pieces.
  - rewrite find_None_iff in Hfind. intros (pos & q & Hc & Hout).
    apply enumerate_grid_cell_at in Hc; [|done].
    specialize (Hfind _ Hc). destruct pos as [i j].
    apply andb_false_iff in Hfind as [H|H]; apply bool_decide_eq_false in H.
    + apply H. by rewrite elem_of_center_pieces.
    + by apply H.
Qed.

(** [legal_move] answers at every position of the board, and says: the
    cell is empty, and either the capture rule holds (when the center
    block is full or a cell outside of it is occupied) or the position
    is in the center block. *)
Lemma legal_move_spec pos :
  center_on_board self → _in_bounds self pos = true →
  ∃ b, legal_move self pos = Ok b
       ∧ (b = true ↔
          cell_at self pos = Some None
          ∧ (((center_full self ∨ outside_occupied self) ∧ captures_some self pos)
             ∨ (¬ center_full self ∧ ¬ outside_occupied self
                ∧ in_center self pos))).
Proof.
  intros Hon Hb. unfold legal_move. rewrite Hb. cbn [negb].
  destruct pos as [row col] eqn:Ep. rewrite <- Ep in *.
  destruct (cell_at_square self pos Hsq Hb) as [here Hhere].
  assert (Hget : grid_get self row col = Ok here).
  { apply cell_at_grid_get. by rewrite <- Ep. }
  rewrite Hget. cbn [mbind result_bind].
  destruct here as [q|].
  { exists false. rewrite bool_decide_eq_true_2 by done.
    split; [done|]. split; [done|]. intros [H _]. congruence. }
  assert (Hnn : ∀ d : Decision (@None Z ≠ None), @bool_decide _ d = false).
  { intros d. apply bool_decide_eq_false_2. by intros H. }
  rewrite Hnn.
  destruct center_pieces_spec as (pieces & -> & Hnf1 & Hnf2); [done|].
  cbn [mbind result_bind].
  destruct (some_direction_spec pos) as (bd & Hbd & Hcap).
  pose proof find_outside_spec as Hfind.
  destruct (bool_decide (None ∈ pieces)) eqn:Hnf.
  - apply bool_decide_eq_true, Hnf1 in Hnf.
    destruct (find _ _) as [found|].
    + exists bd. split; [done|]. rewrite Hcap. tauto.
    + destruct (bool_decide (pos ∈ _center_pieces self)) eqn:Hc.
      * exists true. split; [by rewrite bool_decide_eq_true_2|].
        apply bool_decide_eq_true, elem_of_center_pieces in Hc. tauto.
      * exists false. split; [done|].
        apply bool_decide_eq_false in Hc. rewrite elem_of_center_pieces in Hc.
        split; [done|]. tauto.
  - apply bool_decide_eq_false, Hnf2 in Hnf.
    exists bd. split; [done|]. rewrite Hcap. tauto.
Qed.
End legal.

(** ** [available_moves] *)

Section moves.
Context (self : Reversi).
Hypothesis Hsq : square (_side self) (_grid self).
Hypothesis Hon : center_on_board self.

Lemma collect_moves_spec (cells : list (position * cell)) :
  (∀ pos c, (pos, c) ∈ cells → _in_bounds self pos = true) →
  ∀ moves0 : gset position,
  ∃ moves,
    foldM (fun (moves : gset position) '((i, j), _) =>
             b ← legal_move self (i, j);
             Ok (if b : bool then {[ (i, j) ]} ∪ moves else moves))
          moves0 cells = Ok moves
    ∧ ∀ pos, pos ∈ moves
             ↔ pos ∈ moves0
               ∨ ((∃ c, (pos, c) ∈ cells) ∧ legal_move self pos = Ok true).
Proof.
  induction cells as [|[[i j] c] cells IH]; intros Hin moves0.
  - exists moves0. split; [done|]. intros pos. split; [by left|].
    intros [H|[[c Hc] _]]; [done|]. by apply elem_of_nil in Hc.
  - cbn [foldM].
    destruct (legal_move_spec self Hsq (i, j) Hon) as (b & Hb & _).
    { apply (Hin _ c). by left. }
    rewrite Hb. cbn [mbind result_bind].
    destruct (IH (fun pos c' H => Hin pos c' (list_elem_of_further _ _ _ H))
                 (if b then {[ (i, j) ]} ∪ moves0 else moves0))
      as (moves & -> & Hmoves).
    exists moves. split; [done|]. intros pos. rewrite Hmoves. split.
    + intros [H|[[c' Hc'] Hl]].
      * destruct b; [|by left].
        apply elem_of_union in H as [->%elem_of_singleton|H]; [|by left].
        right. split; [|done]. exists c. by left.
      * right. split; [|done]. exists c'. by right.
    + intros [H|[[c' Hc'] Hl]].
      * left. destruct b; [|done]. apply elem_of_union. by right.
      * apply elem_of_cons in Hc' as [[= -> ->]|Hc'].
        -- left. rewrite Hl in Hb. injection Hb as <-.
           apply elem_of_union. left. by apply elem_of_singleton.
        -- right. split; [|done]. by exists c'.
Qed.

(** [available_moves] answers with the positions of the board at which
    [legal_move] says yes. *)
Lemma available_moves_spec :
  ∃ moves, available_moves self = Ok moves
           ∧ NoDup moves
           ∧ ∀ pos, pos ∈ moves
                    ↔ _in_bounds self pos = true ∧ legal_move self pos = Ok true.
Proof.
  unfold available_moves.
  destruct (collect_moves_spec (enumerate_grid (_grid self))) with (moves0 := (∅ : gset position))
    as (moves & -> & Hmoves).
  { intros pos c Hc%enumerate_grid_cell_at; [|done]. by eapply cell_at_in_bounds. }
  cbn [mbind result_bind]. exists (elements moves).
  split; [done|]. split; [apply NoDup_elements|].
  intros pos. rewrite elem_of_elements, Hmoves. split.
  - intros [H|[[c Hc%enumerate_grid_cell_at] Hl]]; [done| |done].
    split; [|done]. by eapply cell_at_in_bounds.
  - intros [Hb Hl]. right. split; [|done].
    destruct (cell_at_square self pos Hsq Hb) as [c Hc]. exists c.
    by apply enumerate_grid_cell_at.
Qed.
End moves.

(** ** [done] *)

Lemma with_turn_with_turn t t' self : with_turn t' (with_turn t self) = with_turn t' self.
Proof. done. Qed.

Lemma with_turn_same t self : with_turn (_turn self) (with_turn t self) = self.
Proof. by destruct self. Qed.

Lemma with_turn_id self : with_turn (_turn self) self = self.
Proof. by destruct self. Qed.

Lemma center_on_board_with_turn t self :
  center_on_board self → center_on_board (with_turn t self).
Proof. done. Qed.

Section done.
Context (self : Reversi).
Hypothesis Hsq : square (_side self) (_grid self).
Hypothesis Hon : center_on_board self.

Lemma moves_of_ok player : ∃ moves, moves_of self player = Ok moves.
Proof.
  destruct (available_moves_spec (with_turn player self)) as (moves & H & _);
    [done..|]. by exists moves.
Qed.

Lemma done_loop_spec players : ∀ no_moves t,
  ∃ b t', done_loop players no_moves (with_turn t self) = (Ok b, with_turn t' self)
          ∧ (b = true → no_moves = true
                        ∧ ∀ player, player ∈ players → moves_of self player = Ok [])
          ∧ (b = false → no_moves = false
                         ∨ ∃ player, player ∈ players
                                     ∧ moves_of self player ≠ Ok []).
Proof.
  induction players as [|player players IH]; intros no_moves t.
  - exists no_moves, t. split; [done|]. split.
    + intros ->. split; [done|]. intros p Hp. by apply elem_of_nil in Hp.
    + intros ->. by left.
  - cbn [done_loop]. unfold mbind at 1, M_bind at 1. cbn [set_turn].
    rewrite with_turn_with_turn.
    destruct (moves_of_ok player) as [moves Hmoves].
    destruct no_moves.
    + unfold mbind at 1, M_bind at 1, mbind at 1, M_bind at 1, read.
      pose proof Hmoves as Hmoves'.
      unfold moves_of in Hmoves. rewrite Hmoves. cbn [mret M_ret].
      destruct (IH (bool_decide (length moves = 0%nat)) player)
        as (b & t' & -> & Hyes & Hno).
      exists b, t'. split; [done|]. split.
      * intros [Hlen%bool_decide_eq_true Hall]%Hyes. split; [done|].
        intros p [->|Hp]%elem_of_cons; [|by apply Hall].
        rewrite Hmoves'. f_equal. by apply nil_length_inv.
      * intros [Hlen%bool_decide_eq_false|(p & Hp & Hm)]%Hno; right.
        -- exists player. split; [by left|]. rewrite Hmoves'.
           intros [= ->]. by apply Hlen.
        -- exists p. split; [by right|done].
    + unfold mbind at 1, M_bind at 1. cbn [mret M_ret].
      destruct (IH false player) as (b & t' & -> & Hyes & Hno).
      exists b, t'. split; [done|]. split.
      * by intros [? _]%Hyes.
      * intros _. by left.
Qed.

(** [done] answers, leaves the engine as it was, and says yes exactly
    when no player has a move. *)
Lemma done_spec :
  ∃ b, done self = (Ok b, self)
       ∧ (b = true →
          ∀ player, 1 <= player <= _players self → moves_of self player = Ok [])
       ∧ (b = false →
          ∃ player, 1 <= player <= _players self ∧ moves_of self player ≠ Ok []).
Proof.
  unfold done. unfold mbind at 1, M_bind at 1. cbn [get].
  unfold mbind at 1, M_bind at 1.
  destruct (done_loop_spec (range 1 (_players self + 1)) true (_turn self))
    as (b & t' & Hloop & Hyes & Hno).
  rewrite with_turn_id in Hloop. rewrite Hloop.
  unfold mbind at 1, M_bind at 1. cbn [set_turn mret M_ret].
  rewrite with_turn_same. exists b. split; [done|]. unfold range in *. split.
  - intros [_ Hall]%Hyes p Hp. apply Hall, elem_of_seqZ. lia.
  - intros [[=]|(p & Hp%elem_of_seqZ & Hm)]%Hno. exists p. split; [lia|done].
Qed.
End done.

(** ** The turn *)

Lemma next_turn_spec self :
  1 <= _players self → 1 <= _turn self <= _players self →
  next_turn self
  = (Ok tt, with_turn (following (_players self) (_turn self)) self).
Proof.
  intros Hp Ht. unfold next_turn, following.
  unfold mbind at 1, M_bind at 1. cbn [get].
  unfold mbind at 1, M_bind at 1, lift, py_mod.
  rewrite bool_decide_eq_false_2 by lia.
  unfold mbind at 1, M_bind at 1. cbn [set_turn].
  destruct (decide (_turn self = _players self)) as [He|Hne].
  - rewrite He, Z_mod_same_full.
    rewrite !bool_decide_eq_true_2 by done. done.
  - rewrite Z.mod_small by lia.
    rewrite !bool_decide_eq_false_2 by lia. done.
Qed.

Lemma following_range players t :
  1 <= players → 1 <= t <= players → 1 <= following players t <= players.
Proof. intros Hp Ht. unfold following. case_bool_decide; lia. Qed.

Lemma iter_following_range players t k :
  1 <= players → 1 <= t <= players →
  1 <= Nat.iter k (following players) t <= players.
Proof.
  intros Hp Ht. induction k as [|k IH]; [done|].
  rewrite Nat.iter_succ. by apply following_range.
Qed.

Lemma iter_following players t k :
  1 <= players → 1 <= t <= players →
  Nat.iter k (following players) t = (t - 1 + Z.of_nat k) mod players + 1.
Proof.
  intros Hp Ht. induction k as [|k IH].
  - simpl. rewrite Z.mod_small by lia. lia.
  - rewrite Nat.iter_succ, IH. unfold following.
    replace (t - 1 + Z.of_nat (S k)) with (t - 1 + Z.of_nat k + 1) by lia.
    set (a := t - 1 + Z.of_nat k).
    pose proof (Z.mod_pos_bound a players ltac:(lia)) as Hr.
    pose proof (Z.div_mod a players ltac:(lia)) as Ha.
    case_bool_decide as Hc.
    + rewrite <- (Z.mod_unique (a + 1) players (a / players + 1) 0); lia.
    + rewrite <- (Z.mod_unique (a + 1) players (a / players) (a mod players + 1));
        lia.
Qed.

(** Every player is reached from every player in fewer than [players]
    steps. *)
Lemma following_reaches players t q :
  1 <= players → 1 <= t <= players → 1 <= q <= players →
  ∃ k : nat, (k < Z.to_nat players)%nat ∧ Nat.iter k (following players) t = q.
Proof.
  intros Hp Ht Hq. exists (Z.to_nat ((q - t) mod players)).
  pose proof (Z.mod_pos_bound (q - t) players ltac:(lia)) as Hr.
  split; [lia|]. rewrite iter_following by done.
  rewrite Z2Nat.id by lia.
  pose proof (Z.div_mod (q - t) players ltac:(lia)) as Ha.
  rewrite <- (Z.mod_unique (t - 1 + (q - t) mod players) players
                (- ((q - t) / players)) (q - 1)); lia.
Qed.

Lemma moves_of_with_turn t self player :
  moves_of (with_turn t self) player = moves_of self player.
Proof. done. Qed.

Lemma moves_of_turn self : moves_of self (_turn self) = available_moves self.
Proof. unfold moves_of. by rewrite with_turn_id. Qed.

Section skip.
Context (g : BoardGridType) (side players : Z) (othello : bool).
Hypothesis Hsq : square side g.
Hypothesis Hplayers : 1 <= players <= side.

Local Abbreviation state t := (mkReversi side players othello g t).

Local Abbreviation over := (over g side players othello).

Lemma state_on_board t : center_on_board (state t).
Proof. apply center_on_board_players. cbn. lia. Qed.

(** The loop passes the players that have no move, and stops at the
    first player that has one, or at once when the game is over. *)
Lemma skip_loop_spec fuel : ∀ t,
  1 <= t <= players →
  (over ∨ ∃ j : nat, (j < fuel)%nat
                     ∧ moves_of (state 1) (Nat.iter j (following players) t) ≠ Ok []) →
  ∃ k : nat,
    skip_loop fuel (state t) = (Ok tt, state (Nat.iter k (following players) t))
    ∧ (∀ j : nat, (j < k)%nat →
         moves_of (state 1) (Nat.iter j (following players) t) = Ok [])
    ∧ (moves_of (state 1) (Nat.iter k (following players) t) ≠ Ok []
       ∨ (k = 0%nat ∧ over)).
Proof.
  induction fuel as [|fuel IH]; intros t Ht Hstop.
  - (* no fuel: the loop must stop at once *)
    cbn [skip_loop]. unfold mbind at 1, M_bind at 1, read.
    destruct (moves_of_ok (state t) Hsq (state_on_board t) t) as [moves Hm].
    change (moves_of (state t) t) with (moves_of (state 1) t) in Hm.
    change (available_moves (state t)) with (moves_of (state 1) t).
    rewrite Hm. destruct Hstop as [Hover|(j & Hj & _)]; [|lia].
    rewrite (Hover t Ht) in Hm. injection Hm as <-.
    rewrite bool_decide_eq_true_2 by done.
    unfold mbind at 1, M_bind at 1.
    destruct (done_spec (state t) Hsq (state_on_board t)) as (b & -> & Hyes & Hno).
    destruct b.
    + exists 0%nat. cbn [negb mret M_ret Nat.iter]. split; [done|].
      split; [lia|]. right. done.
    + destruct (Hno eq_refl) as (p & Hp & Hpm). exfalso. apply Hpm.
      apply (Hover p Hp).
  - cbn [skip_loop]. unfold mbind at 1, M_bind at 1, read.
    destruct (moves_of_ok (state t) Hsq (state_on_board t) t) as [moves Hm].
    change (moves_of (state t) t) with (moves_of (state 1) t) in Hm.
    change (available_moves (state t)) with (moves_of (state 1) t).
    rewrite Hm. case_bool_decide as Hlen.
    + apply nil_length_inv in Hlen. subst moves.
      unfold mbind at 1, M_bind at 1.
      destruct (done_spec (state t) Hsq (state_on_board t)) as (b & -> & Hyes & Hno).
      destruct b; cbn [negb].
      * exists 0%nat. cbn [mret M_ret Nat.iter]. split; [done|].
        split; [lia|]. right. split; [done|]. exact (Hyes eq_refl).
      * unfold mbind at 1, M_bind at 1.
        rewrite next_turn_spec by (cbn; lia).
        change (with_turn ?x (state t)) with (state x). cbn [_players _turn].
        destruct (IH (following players t)) as (k & Hk & Hbefore & Hat).
        { apply following_range; lia. }
        { right. destruct Hstop as [Hover|(j & Hj & Hjm)].
          - destruct (Hno eq_refl) as (p & Hp & Hpm). exfalso. apply Hpm.
            apply (Hover p Hp).
          - destruct j as [|j]; [exfalso; exact (Hjm Hm)|].
            exists j. split; [lia|]. by rewrite <- Nat.iter_succ_r. }
        exists (S k). rewrite Nat.iter_succ_r. split; [done|]. split.
        -- intros [|j] Hj; [done|]. rewrite Nat.iter_succ_r. apply Hbefore. lia.
        -- destruct Hat as [Hat|[-> Hover]]; [by left|].
           destruct (Hno eq_refl) as (p & Hp & Hpm). exfalso. apply Hpm.
           apply (Hover p Hp).
    + exists 0%nat. cbn [mret M_ret Nat.iter]. split; [done|].
      split; [lia|]. left. change (moves_of (state 1) t ≠ Ok []).
      rewrite Hm. intros [= ->]. done.
Qed.

(** The fuel that [apply_move] gives to the loop is enough. *)
Lemma skip_loop_players t :
  1 <= t <= players →
  ∃ k : nat,
    skip_loop (Z.to_nat players) (state t)
    = (Ok tt, state (Nat.iter k (following players) t))
    ∧ (∀ j : nat, (j < k)%nat →
         moves_of (state 1) (Nat.iter j (following players) t) = Ok [])
    ∧ (moves_of (state 1) (Nat.iter k (following players) t) ≠ Ok []
       ∨ (k = 0%nat ∧ over)).
Proof.
  intros Ht. apply skip_loop_spec; [done|].
  destruct (done_spec (state t) Hsq (state_on_board t)) as (b & _ & Hyes & Hno).
  destruct b.
  - left. exact (Hyes eq_refl).
  - right. destruct (Hno eq_refl) as (p & Hp & Hpm). cbn in Hp.
    destruct (following_reaches players t p) as (k & Hk & <-); [lia..|].
    by exists k.
Qed.
End skip.

(** ** Writing a cell *)

Lemma occupied_app g1 g2 : occupied (g1 ++ g2) = (occupied g1 + occupied g2)%nat.
Proof. unfold occupied. by rewrite concat_app, filter_app, length_app. Qed.

Lemma occupied_cons row g : occupied (row :: g) = (row_occupied row + occupied g)%nat.
Proof. unfold occupied, row_occupied. by rewrite concat_cons, filter_app, length_app. Qed.

Lemma occupied_insert (g : BoardGridType) i row row' :
  g !! i = Some row →
  (occupied (<[i := row']> g) + row_occupied row
   = occupied g + row_occupied row')%nat.
Proof.
  intros Hrow. pose proof (lookup_lt_Some _ _ _ Hrow) as Hi.
  assert (Hg : occupied g = occupied (take i g ++ row :: drop (S i) g))
    by by rewrite take_drop_middle.
  rewrite Hg, insert_take_drop by done.
  rewrite !occupied_app, !occupied_cons. lia.
Qed.

Lemma row_occupied_insert (row : list cell) j old v :
  row !! j = Some old →
  row_occupied (<[j := Some v]> row)
  = (row_occupied row + if old is None then 1 else 0)%nat.
Proof.
  intros Hold. pose proof (lookup_lt_Some _ _ _ Hold) as Hj.
  assert (Hr : row_occupied row
               = row_occupied (take j row ++ old :: drop (S j) row))
    by by rewrite take_drop_middle.
  rewrite Hr, insert_take_drop by done.
  unfold row_occupied. rewrite !filter_app, !length_app.
  rewrite (filter_cons_True _ (Some v)) by done.
  destruct old as [q|].
  - rewrite (filter_cons_True _ (Some q)) by done. cbn [length]. lia.
  - rewrite (filter_cons_False _ None) by (by intros H). cbn [length]. lia.
Qed.

Section cells.
Context (side players : Z) (othello : bool) (t : Z).

Local Abbreviation state g := (mkReversi side players othello g t).

Lemma grid_put_spec g row col v old :
  square side g →
  cell_at (state g) (row, col) = Some old →
  ∃ g', grid_put g row col v = Ok g'
        ∧ square side g'
        ∧ (∀ pos, cell_at (state g') pos
                  = if decide (pos = (row, col)) then Some (Some v)
                    else cell_at (state g) pos)
        ∧ occupied g' = (occupied g + if old is None then 1 else 0)%nat.
Proof.
  intros [Hlen Hrows] Hcell.
  pose proof (cell_at_in_bounds _ _ _ Hcell) as Hb.
  apply in_bounds_spec in Hb. cbn [_side] in Hb.
  unfold cell_at in Hcell.
  destruct (_in_bounds (state g) (row, col)); [|done].
  cbn [fst snd _grid] in Hcell.
  destruct (g !! Z.to_nat row) as [r|] eqn:Hr; [|done]. cbn in Hcell.
  pose proof (lookup_lt_Some _ _ _ Hr) as Hrlt.
  pose proof (lookup_lt_Some _ _ _ Hcell) as Hclt.
  unfold grid_put. rewrite (py_get_lookup _ _ r) by (lia || done).
  cbn [mbind result_bind]. rewrite py_set_lookup by lia.
  cbn [mbind result_bind]. rewrite py_set_lookup by lia.
  eexists. split; [done|]. split; [|split].
  - split; [by rewrite length_insert|].
    apply Forall_insert; [done|]. rewrite length_insert.
    rewrite Forall_forall in Hrows. apply Hrows.
    by eapply list_elem_of_lookup_2.
  - intros [i j]. unfold cell_at.
    destruct (_in_bounds (state g) (i, j)) eqn:Hij.
    + change (_in_bounds (state _) (i, j)) with (_in_bounds (state g) (i, j)).
      rewrite Hij. apply in_bounds_spec in Hij.
      cbn [fst snd _grid _side] in *.
      destruct (decide (i = row)) as [->|Hne].
      * rewrite list_lookup_insert_eq by done. cbn.
        destruct (decide (j = col)) as [->|Hne].
        -- rewrite list_lookup_insert_eq by done. by rewrite decide_True.
        -- rewrite list_lookup_insert_ne by lia. rewrite Hr. cbn.
           rewrite decide_False; [done|]. by intros [= ->].
      * rewrite list_lookup_insert_ne by lia.
        rewrite decide_False; [done|]. by intros [= ->].
    + change (_in_bounds (state _) (i, j)) with (_in_bounds (state g) (i, j)).
      rewrite Hij. rewrite decide_False; [done|]. intros [= -> ->].
      assert (_in_bounds (state g) (row, col) = true); [|congruence].
      apply in_bounds_spec. done.
  - pose proof (occupied_insert g (Z.to_nat row) r
                  (<[Z.to_nat col := Some v]> r) Hr) as Ho.
    rewrite (row_occupied_insert r _ old v Hcell) in Ho. lia.
Qed.

Lemma grid_set_spec g row col v old :
  square side g →
  cell_at (state g) (row, col) = Some old →
  ∃ g', grid_set row col v (state g) = (Ok tt, state g')
        ∧ square side g'
        ∧ (∀ pos, cell_at (state g') pos
                  = if decide (pos = (row, col)) then Some (Some v)
                    else cell_at (state g) pos)
        ∧ occupied g' = (occupied g + if old is None then 1 else 0)%nat.
Proof.
  intros Hsq Hcell.
  destruct (grid_put_spec g row col v old Hsq Hcell) as (g' & Hput & Hg').
  exists g'. split; [|done]. unfold grid_set. cbn [_grid]. by rewrite Hput.
Qed.

(** ** Turning pieces over *)

Local Abbreviation flips := (flips side players othello t).

Lemma flips_refl g : square side g → flips g g.
Proof. intros Hsq. split; [done|]. split; [done|]. intros pos. by left. Qed.

Lemma flips_trans g1 g2 g3 : flips g1 g2 → flips g2 g3 → flips g1 g3.
Proof.
  intros (_ & Ho1 & H1) (Hsq & Ho2 & H2). split; [done|]. split; [congruence|].
  intros pos. destruct (H2 pos) as [Hsame|[(q & Hq & Hne) Ht]].
  - rewrite Hsame. apply H1.
  - destruct (H1 pos) as [Hsame'|[_ Ht']].
    + right. split; [|done]. exists q. by rewrite <- Hsame'.
    + rewrite Ht' in Hq. by injection Hq as <-.
Qed.

Lemma ahead_inj pos d k k' :
  d ∈ directions → ahead pos d k = ahead pos d k' → k = k'.
Proof. intros Hd. each_direction Hd; unfold ahead; cbn [fst snd]; intros [= ]; lia. Qed.

Lemma room_ahead self pos d k :
  d ∈ directions → room self d (ahead pos d k) = room self d pos - k.
Proof. intros Hd. each_direction Hd; unfold room, ahead; cbn [fst snd];
    repeat case_bool_decide; lia. Qed.

Section walk.
Context (pos : position) (rs cs : Z).
Hypothesis Hd : (rs, cs) ∈ directions.

Local Abbreviation bracket := (bracket side players othello t pos rs cs).

Lemma flip_loop_spec fuel : ∀ j m g r c,
  square side g → bracket g j m → m - j <= Z.of_nat fuel →
  ahead pos (rs, cs) j = (r, c) →
  ∃ g', flip_loop fuel rs cs r c (state g) = (Ok tt, state g') ∧ flips g g'.
Proof.
  induction fuel as [|fuel IH]; intros j m g r c Hsq (Hjm & Hfor & Hland) Hfuel Hj.
  - assert (m = j) as -> by lia. rewrite Hj in Hland.
    cbn [flip_loop]. unfold mbind at 1, M_bind at 1. cbn [get].
    unfold mbind at 1, M_bind at 1, lift.
    rewrite (cell_at_grid_get _ _ _ _ Hland). cbn [_turn].
    rewrite bool_decide_eq_false_2 by (by intros H; apply H).
    exists g. split; [done|]. by apply flips_refl.
  - cbn [flip_loop]. unfold mbind at 1, M_bind at 1. cbn [get].
    unfold mbind at 1, M_bind at 1, lift.
    destruct (decide (m = j)) as [->|Hne].
    + rewrite Hj in Hland.
      rewrite (cell_at_grid_get _ _ _ _ Hland). cbn [_turn].
      rewrite bool_decide_eq_false_2 by (by intros H; apply H).
      exists g. split; [done|]. by apply flips_refl.
    + destruct (Hfor j) as (q & Hq & Hqt); [lia|]. rewrite Hj in Hq.
      rewrite (cell_at_grid_get _ _ _ _ Hq). cbn [_turn].
      rewrite bool_decide_eq_true_2 by (by intros [= ->]).
      unfold mbind at 1, M_bind at 1.
      destruct (grid_set_spec g r c t (Some q) Hsq Hq)
        as (g1 & -> & Hsq1 & Hcells & Hocc).
      assert (Hother : ∀ k, k ≠ j →
                cell_at (state g1) (ahead pos (rs, cs) k)
                = cell_at (state g) (ahead pos (rs, cs) k)).
      { intros k Hk. rewrite Hcells, decide_False; [done|].
        rewrite <- Hj. intros Heq. by apply ahead_inj in Heq. }
      destruct (IH (j + 1) m g1 (r + rs) (c + cs)) as (g' & -> & Hflips).
      * done.
      * split; [lia|]. split.
        -- intros k Hk. destruct (Hfor k) as (q' & Hq' & Hne'); [lia|].
           exists q'. split; [|done]. rewrite Hother by lia. done.
        -- rewrite Hother by lia. done.
      * lia.
      * by apply ahead_succ.
      * exists g'. split; [done|]. apply (flips_trans g g1 g'); [|done].
        split; [done|]. split; [lia|]. intros p. rewrite Hcells.
        destruct (decide (p = (r, c))) as [->|]; [|by left].
        right. split; [|done]. by exists q.
Qed.

(** A bracket on the board is at most [side] steps away. *)
Lemma bracket_near g m : bracket g 1 m → m <= side.
Proof.
  intros (Hm & Hfor & Hland).
  assert (Hb1 : _in_bounds (state g) (ahead pos (rs, cs) 1) = true).
  { destruct (decide (m = 1)) as [->|]; [by eapply cell_at_in_bounds|].
    destruct (Hfor 1) as (q & Hq & _); [lia|]. by eapply cell_at_in_bounds. }
  apply cell_at_in_bounds in Hland.
  pose proof (room_bounds _ _ _ Hd Hb1) as H1.
  pose proof (room_bounds _ _ _ Hd Hland) as H2.
  rewrite room_ahead in H1, H2 by done. cbn [_side] in *. lia.
Qed.

(** After some cells of the ray were turned over, the walk still finds
    a bracket. *)
Lemma bracket_after g0 g n :
  flips g0 g →
  (∀ k, 1 <= k <= Z.of_nat n → foreign_at (state g0) t pos rs cs k) →
  cell_at (state g0) (ahead pos (rs, cs) (Z.of_nat n + 1)) = Some (Some t) →
  ∃ m, bracket g 1 m.
Proof.
  intros (_ & _ & Hcells) Hfor Hland.
  assert (Hland' : cell_at (state g) (ahead pos (rs, cs) (Z.of_nat n + 1))
                   = Some (Some t)).
  { destruct (Hcells (ahead pos (rs, cs) (Z.of_nat n + 1)))
      as [->|[_ ->]]; done. }
  clear Hland.
  assert (Hgen : ∀ (len : nat) j, 1 <= j → j + Z.of_nat len = Z.of_nat n + 1 →
            ∃ m, j <= m
                 ∧ (∀ k, j <= k < m → foreign_at (state g) t pos rs cs k)
                 ∧ cell_at (state g) (ahead pos (rs, cs) m) = Some (Some t)).
  { induction len as [|len IH]; intros j Hj Hlen.
    - exists j. replace j with (Z.of_nat n + 1) by lia.
      split; [lia|]. split; [intros; lia|done].
    - destruct (Hfor j) as (q & Hq & Hne); [lia|].
      destruct (Hcells (ahead pos (rs, cs) j)) as [Hsame|[_ Ht]].
      + destruct (IH (j + 1)) as (m & Hm & Hfor' & Hland); [lia..|].
        exists m. split; [lia|]. split; [|done].
        intros k Hk. destruct (decide (k = j)) as [->|]; [|apply Hfor'; lia].
        exists q. by rewrite Hsame.
      + exists j. split; [lia|]. split; [intros; lia|done]. }
  destruct (Hgen n 1) as (m & Hm); [lia..|]. by exists m.
Qed.

Lemma flip_direction_spec g0 g :
  square side g → flips g0 g →
  ray_captures 1 (state g0) t pos (rs, cs) →
  ∃ g', flip_direction pos (rs, cs) (state g) = (Ok tt, state g')
        ∧ flips g0 g'.
Proof.
  intros Hsq Hflips (n & _ & Hfor & Hland).
  destruct (bracket_after g0 g n Hflips Hfor Hland) as [m Hm].
  pose proof (bracket_near g m Hm) as Hnear.
  unfold flip_direction. destruct pos as [row col] eqn:Ep.
  rewrite <- Ep in *.
  unfold mbind at 1, M_bind at 1. cbn [get _side].
  destruct (flip_loop_spec (Z.to_nat side) 1 m g (row + rs) (col + cs))
    as (g' & -> & Hg'); [done|done|lia| |].
  { rewrite ahead_1. by rewrite Ep. }
  exists g'. split; [done|]. by apply (flips_trans g0 g g').
Qed.
End walk.

Lemma retrace_directions_spec pos g :
  square side g →
  ∃ dirs, retrace_directions pos (state g) = Ok dirs
          ∧ ∀ d, d ∈ dirs → d ∈ directions ∧ ray_captures 1 (state g) t pos d.
Proof.
  intros Hsq. unfold retrace_directions.
  assert (Hgen : ∀ ds acc, (∀ d, d ∈ ds → d ∈ directions) →
            (∀ d, d ∈ acc → d ∈ directions ∧ ray_captures 1 (state g) t pos d) →
            ∃ dirs,
              foldM (fun retrace_dir direction =>
                       origin_loc ← _check_direction (state g) (_turn (state g))
                                      pos direction;
                       Ok (if bool_decide (origin_loc ≠ None)
                           then retrace_dir ++ [direction] else retrace_dir))
                    acc ds = Ok dirs
              ∧ ∀ d, d ∈ dirs → d ∈ directions ∧ ray_captures 1 (state g) t pos d).
  { induction ds as [|[rs cs] ds IH]; intros acc Hds Hacc.
    - exists acc. done.
    - cbn [foldM].
      destruct (check_direction_spec (state g) t pos rs cs Hsq) as (o & Ho & Hcap).
      { apply Hds. by left. }
      cbn [_turn]. rewrite Ho. cbn [mbind result_bind].
      apply IH; [intros d Hd; apply Hds; by right|].
      case_bool_decide as Hnone; [|done].
      intros d [Hd|Hd%list_elem_of_singleton]%elem_of_app; [by apply Hacc|].
      subst d. split; [apply Hds; by left|]. by apply Hcap. }
  apply Hgen; [done|]. intros d Hd. by apply elem_of_nil in Hd.
Qed.

Lemma flip_directions_spec pos g0 dirs : ∀ g,
  square side g → flips g0 g →
  (∀ d, d ∈ dirs → d ∈ directions ∧ ray_captures 1 (state g0) t pos d) →
  ∃ g', forM_ (flip_direction pos) dirs (state g) = (Ok tt, state g')
        ∧ flips g0 g'.
Proof.
  induction dirs as [|[rs cs] dirs IH]; intros g Hsq Hflips Hdirs.
  - exists g. done.
  - cbn [forM_]. unfold mbind at 1, M_bind at 1.
    destruct (Hdirs (rs, cs)) as [Hd Hcap]; [by left|].
    destruct (flip_direction_spec pos rs cs Hd g0 g Hsq Hflips Hcap)
      as (g1 & -> & Hg1).
    apply IH; [by destruct Hg1|done|]. intros d Hin. apply Hdirs. by right.
Qed.

Local Abbreviation placed := (placed side players othello t).

Lemma place_spec row col g :
  square side g → _in_bounds (state g) (row, col) = true →
  ∃ g',
    (if negb (_othello (state g))
        && bool_decide ((row, col) ∈ _center_pieces (state g))
     then grid_set row col (_turn (state g))
     else
       grid_set row col (_turn (state g));;
       retrace_dir ← read (retrace_directions (row, col));
       forM_ (flip_direction (row, col)) retrace_dir) (state g)
    = (Ok tt, state g')
    ∧ placed (row, col) g g'.
Proof.
  intros Hsq Hb. destruct (cell_at_square (state g) _ Hsq Hb) as [old Hold].
  destruct (grid_set_spec g row col t old Hsq Hold)
    as (g1 & Hset & Hsq1 & Hcells & Hocc).
  cbn [_turn].
  assert (Hplaced1 : ∀ g', flips g1 g' → placed (row, col) g g').
  { intros g' (Hsq' & Hocc' & Hcells'). split; [done|]. split; [|split].
    - destruct (Hcells' (row, col)) as [->|[_ ->]]; [|done].
      by rewrite Hcells, decide_True.
    - intros old' Hold'. rewrite Hold in Hold'. injection Hold' as <-. lia.
    - intros p Hp. destruct (Hcells' p) as [->|[(q & Hq & Hne) ->]].
      + left. by rewrite Hcells, decide_False.
      + right. split; [|done]. exists q. split; [|done].
        by rewrite Hcells, decide_False in Hq. }
  destruct (negb _ && _).
  - exists g1. split; [done|]. by apply Hplaced1, flips_refl.
  - unfold mbind at 1, M_bind at 1. rewrite Hset.
    unfold mbind at 1, M_bind at 1, read.
    destruct (retrace_directions_spec (row, col) g1 Hsq1) as (dirs & -> & Hdirs).
    destruct (flip_directions_spec (row, col) g1 dirs g1 Hsq1 (flips_refl _ Hsq1) Hdirs)
      as (g' & -> & Hg').
    exists g'. split; [done|]. by apply Hplaced1.
Qed.
End cells.

(** ** [apply_move] *)

(** [apply_move] at a position of the board: the piece is placed and
    pieces are turned over, the turn goes to the following player and then
    past the players without a move. *)
Lemma apply_move_spec side players othello g t pos :
  let self := mkReversi side players othello g t in
  square side g → 1 <= players <= side → 1 <= t <= players →
  _in_bounds self pos = true →
  ∃ g' (k : nat),
    let next := Nat.iter k (following players) (following players t) in
    apply_move pos self = (Ok tt, mkReversi side players othello g' next)
    ∧ placed side players othello t pos g g'
    ∧ (∀ j : nat, (j < k)%nat →
         moves_of (mkReversi side players othello g' 1)
           (Nat.iter j (following players) (following players t)) = Ok [])
    ∧ (moves_of (mkReversi side players othello g' 1) next ≠ Ok []
       ∨ (k = 0%nat ∧ over g' side players othello)).
Proof.
  intros self Hsq Hp Ht Hb. subst self.
  unfold apply_move. unfold mbind at 1, M_bind at 1. cbn [get].
  rewrite Hb. cbn [negb]. destruct pos as [row col].
  unfold mbind at 1, M_bind at 1.
  destruct (place_spec side players othello t row col g Hsq Hb)
    as (g' & Hplace & Hplaced).
  rewrite Hplace.
  unfold mbind at 1, M_bind at 1.
  rewrite next_turn_spec by (cbn; lia).
  unfold mbind at 1, M_bind at 1. cbn [get with_turn _side _players _othello _grid _turn].
  destruct (skip_loop_players g' side players othello (proj1 Hplaced) Hp
              (following players t)) as (k & Hk & Hbefore & Hat).
  { apply following_range; lia. }
  exists g', k. cbn zeta. split; [exact Hk|]. done.
Qed.

(** ** Counting pieces *)

Lemma count_snoc k cells c :
  count k (cells ++ [c]) = (count k cells + if decide (c = Some k) then 1 else 0)%nat.
Proof.
  unfold count. rewrite filter_app, length_app. f_equal.
  destruct (decide (c = Some k)) as [Hc|Hc].
  - by rewrite filter_cons_True.
  - by rewrite filter_cons_False.
Qed.

Lemma count_pos k cells : (0 < count k cells)%nat ↔ Some k ∈ cells.
Proof.
  unfold count. split.
  - intros Hlen. destruct (filter _ cells) as [|c rest] eqn:Hf; [cbn in Hlen; lia|].
    assert (Hc : c ∈ filter (fun c : cell => c = Some k) cells)
      by (rewrite Hf; left).
    apply list_elem_of_filter in Hc as [-> Hc]. done.
  - intros Hin.
    assert (Hc : Some k ∈ filter (fun c : cell => c = Some k) cells)
      by by apply list_elem_of_filter.
    destruct (filter _ cells); [by apply elem_of_nil in Hc|cbn; lia].
Qed.

Lemma dict_count_keys d l k :
  k ∈ ((dict_count d l).*1) ↔ k = l ∨ k ∈ (d.*1).
Proof.
  induction d as [|[k' v'] d IH]; cbn [dict_count].
  - cbn. rewrite list_elem_of_singleton, elem_of_nil. tauto.
  - case_bool_decide as Hk; cbn [fmap list_fmap fst].
    + subst k'. rewrite !elem_of_cons. tauto.
    + rewrite !elem_of_cons.
      change (k ∈ list_fmap _ _ fst (dict_count d l)) with (k ∈ (dict_count d l).*1).
      rewrite IH. tauto.
Qed.

Lemma dict_count_NoDup d l : NoDup (d.*1) → NoDup ((dict_count d l).*1).
Proof.
  induction d as [|[k' v'] d IH]; cbn [dict_count]; intros Hnd.
  - cbn. apply NoDup_singleton.
  - apply NoDup_cons in Hnd as [Hk' Hnd]. case_bool_decide as Hk.
    + apply NoDup_cons. done.
    + apply NoDup_cons. split; [|by apply IH].
      change (k' ∉ (dict_count d l).*1). rewrite dict_count_keys.
      intros [->|H]; done.
Qed.

Lemma dict_count_elem d l k v :
  NoDup (d.*1) →
  (k, v) ∈ dict_count d l
  ↔ (k ≠ l ∧ (k, v) ∈ d)
    ∨ (k = l ∧ ((∃ v0, (l, v0) ∈ d ∧ v = v0 + 1) ∨ ((l ∉ d.*1) ∧ v = 1))).
Proof.
  induction d as [|[k' v'] d IH]; cbn [dict_count]; intros Hnd.
  - rewrite list_elem_of_singleton. split.
    + intros [= -> ->]. right. split; [done|]. right. split; [|done].
      apply not_elem_of_nil.
    + intros [[_ H]|[-> [(v0 & H & _)|[_ ->]]]]; [by apply elem_of_nil in H| |done].
      by apply elem_of_nil in H.
  - apply NoDup_cons in Hnd as [Hk' Hnd].
    assert (Hfst : ∀ x y, (x, y) ∈ d → x ∈ d.*1).
    { intros x y Hxy. apply list_elem_of_fmap. by exists (x, y). }
    case_bool_decide as Hk.
    + subst k'. split.
      * intros [[= -> ->]|Hin]%elem_of_cons.
        -- right. split; [done|]. left. exists v'. split; [by left|done].
        -- left. split; [|by right]. intros ->. apply Hk'. by eapply Hfst.
      * intros [[Hne [[= -> ->]|Hin]%elem_of_cons]
               |[-> [(v0 & [[= ->]|Hin]%elem_of_cons & ->)|[Hnot ->]]]].
        -- done.
        -- by right.
        -- by left.
        -- exfalso. apply Hk'. by eapply Hfst.
        -- exfalso. apply Hnot. cbn. left.
    + rewrite elem_of_cons, (IH Hnd). split.
      * intros [[= -> ->]|[[Hne Hin]|[-> [(v0 & Hin & ->)|[Hnot ->]]]]].
        -- left. split; [done|]. left.
        -- left. split; [done|]. by right.
        -- right. split; [done|]. left. exists v0. split; [by right|done].
        -- right. split; [done|]. right. split; [|done]. cbn.
           rewrite elem_of_cons. intros [?|?]; done.
      * intros [[Hne [[= -> ->]|Hin]%elem_of_cons]
               |[-> [(v0 & [[= -> ->]|Hin]%elem_of_cons & ->)|[Hnot ->]]]].
        -- by left.
        -- right. left. done.
        -- done.
        -- right. right. split; [done|]. left. by exists v0.
        -- right. right. split; [done|]. right. split; [|done].
           intros Hin. apply Hnot. cbn. by right.
Qed.

Lemma counted_step d cells c :
  counted d cells → counted (count_step d c) (cells ++ [c]).
Proof.
  intros [Hnd Hd]. destruct c as [l|]; cbn [count_step].
  - split; [by apply dict_count_NoDup|]. intros k v.
    rewrite dict_count_elem by done. rewrite count_snoc.
    destruct (decide (Some l = Some k)) as [[= ->]|Hne].
    + split.
      * intros [[Hne _]|[_ [(v0 & Hv0%Hd & ->)|[Hnot ->]]]]; [done|lia|].
        split; [|lia].
        destruct (decide (0 < count k cells)%nat) as [Hpos|]; [|lia].
        exfalso. apply Hnot. apply list_elem_of_fmap.
        exists (k, Z.of_nat (count k cells)). split; [done|]. by apply Hd.
      * intros [-> _]. right. split; [done|].
        destruct (decide (0 < count k cells)%nat) as [Hpos|Hz].
        -- left. exists (Z.of_nat (count k cells)). split; [by apply Hd|lia].
        -- right. split; [|lia].
           intros ([k' v'] & -> & Hin%Hd)%list_elem_of_fmap. cbn in *. lia.
    + rewrite Nat.add_0_r. split.
      * intros [[_ Hin%Hd]|[-> _]]; done.
      * intros Hkv%Hd. left. split; [|done]. by intros ->.
  - split; [done|]. intros k v. rewrite count_snoc.
    rewrite decide_False by done. rewrite Nat.add_0_r. apply Hd.
Qed.

Lemma count_pieces_concat g :
  count_pieces g = foldl count_step [] (concat g).
Proof.
  unfold count_pieces. generalize (@nil (Z * Z)) as d.
  induction g as [|row g IH]; intros d; [done|].
  cbn [foldl concat]. rewrite foldl_app. apply IH.
Qed.

Lemma counted_foldl cells : ∀ d done_cells,
  counted d done_cells → counted (foldl count_step d cells) (done_cells ++ cells).
Proof.
  induction cells as [|c cells IH]; intros d done_cells Hd.
  - by rewrite app_nil_r.
  - cbn [foldl]. rewrite cons_middle, app_assoc. apply IH. by apply counted_step.
Qed.

Lemma count_pieces_counted g : counted (count_pieces g) (concat g).
Proof.
  rewrite count_pieces_concat. apply (counted_foldl (concat g) [] []).
  split; [apply NoDup_nil_2|]. intros k v. split.
  - intros H. by apply elem_of_nil in H.
  - cbn. lia.
Qed.

Lemma maximum_of_spec values :
  let m := maximum_of values in
  (∀ v, v ∈ values → v <= m) ∧ (m = 0 ∨ m ∈ values).
Proof.
  unfold maximum_of.
  assert (Hgen : ∀ vs a,
            let m := foldl (fun maximum_pieces pieces =>
                              if bool_decide (pieces > maximum_pieces) then pieces
                              else maximum_pieces) a vs in
            a <= m ∧ (∀ v, v ∈ vs → v <= m) ∧ (m = a ∨ m ∈ vs)).
  { induction vs as [|v vs IH]; intros a; cbn [foldl].
    - split; [lia|]. split; [|by left]. intros v Hv. by apply elem_of_nil in Hv.
    - case_bool_decide as Hva.
      + destruct (IH v) as (Hle & Hall & Hin). split; [lia|]. split.
        * intros v' [->|Hv']%elem_of_cons; [done|by apply Hall].
        * right. destruct Hin as [->|Hin]; [left|by right].
      + destruct (IH a) as (Hle & Hall & Hin). split; [lia|]. split.
        * intros v' [->|Hv']%elem_of_cons; [lia|by apply Hall].
        * destruct Hin as [->|Hin]; [by left|right; by right]. }
  destruct (Hgen values 0) as (_ & Hall & Hin). done.
Qed.

Lemma pieces_of_count g player : pieces_of g player = count player (concat g).
Proof. done. Qed.

Lemma cell_at_concat self pos c : cell_at self pos = Some c → c ∈ concat (_grid self).
Proof.
  unfold cell_at. destruct (_in_bounds self pos); [|done].
  destruct (_grid self !! Z.to_nat pos.1) as [row|] eqn:Hrow; [|done]. cbn.
  intros Hc. apply list_elem_of_In, in_concat. exists row.
  split; apply list_elem_of_In; by eapply list_elem_of_lookup_2.
Qed.

Lemma concat_cell_at self c :
  square (_side self) (_grid self) →
  c ∈ concat (_grid self) → ∃ pos, cell_at self pos = Some c.
Proof.
  intros Hsq (row & Hrow%list_elem_of_In & Hc%list_elem_of_In)%list_elem_of_In%in_concat.
  apply list_elem_of_lookup in Hrow as [i Hi], Hc as [j Hj].
  exists (Z.of_nat i, Z.of_nat j). apply enumerate_grid_cell_at; [done|].
  apply elem_of_enumerate_grid. cbn [fst snd]. rewrite !Nat2Z.id, Hi.
  split; [lia|]. split; [lia|done].
Qed.

Lemma labelled_concat players g c :
  labelled players g → c ∈ concat g → label_ok players c.
Proof.
  intros Hl (row & Hrow%list_elem_of_In & Hc%list_elem_of_In)%list_elem_of_In%in_concat.
  unfold labelled in Hl. rewrite Forall_forall in Hl.
  specialize (Hl row Hrow). rewrite Forall_forall in Hl. by apply Hl.
Qed.

(** ** [outcome] *)

(** A game that is over has a piece on the board. *)
Lemma over_piece self :
  square (_side self) (_grid self) → 1 <= _players self <= _side self →
  (∀ player, 1 <= player <= _players self → moves_of self player = Ok []) →
  ∃ label, Some label ∈ concat (_grid self).
Proof.
  intros Hsq Hp Hover.
  destruct (decide (Exists (fun c : cell => c ≠ None) (concat (_grid self))))
    as [Hex|Hnone].
  { apply Exists_exists in Hex as ([l|] & Hin & Hc); [by exists l|done]. }
  exfalso.
  assert (Hempty : ∀ pos c, cell_at self pos = Some c → c = None).
  { intros pos c Hc%cell_at_concat. destruct c as [l|]; [|done].
    exfalso. apply Hnone, Exists_exists. by exists (Some l). }
  set (lo := (_side self - _players self) / 2).
  assert (Hlo : 0 <= lo ∧ 2 * lo <= _side self - 1).
  { unfold lo. split; [apply Z.div_pos; lia|].
    pose proof (Z.mul_div_le (_side self - _players self) 2 ltac:(lia)). lia. }
  assert (Hin : in_center self (lo, lo)).
  { unfold in_center. cbn [fst snd]. fold lo. lia. }
  pose proof (center_on_board_players self ltac:(lia)) as Hon.
  set (self1 := with_turn 1 self).
  destruct (legal_move_spec self1 Hsq (lo, lo) Hon (Hon _ Hin)) as (b & Hb & Hiff).
  destruct (cell_at_square self (lo, lo) Hsq (Hon _ Hin)) as [c Hc].
  pose proof (Hempty _ _ Hc) as ->.
  assert (b = true) as ->.
  { apply Hiff. split; [done|]. right. split; [|split; [|done]].
    - intros Hfull. destruct (Hfull (lo, lo) Hin) as [q Hq].
      change (cell_at self1 (lo, lo)) with (cell_at self (lo, lo)) in Hq. congruence.
    - intros (pos & q & Hq & _).
      change (cell_at self1 pos) with (cell_at self pos) in Hq.
      by apply Hempty in Hq. }
  destruct (available_moves_spec self1 Hsq Hon) as (moves & Hmoves & _ & Hall).
  specialize (Hover 1 ltac:(lia)). unfold moves_of in Hover. fold self1 in Hover.
  rewrite Hover in Hmoves. injection Hmoves as <-.
  assert (Hx : (lo, lo) ∈ @nil position) by (apply Hall; split; [exact (Hon _ Hin)|done]).
  by apply elem_of_nil in Hx.
Qed.

(** [outcome] answers and leaves the engine as it was: no winner while the
    game goes on, and the players with the most pieces when it is over. *)
Lemma outcome_spec self :
  game_state self →
  ∃ d winners,
    done self = (Ok d, self)
    ∧ outcome self = (Ok winners, self)
    ∧ (d = false → winners = [])
    ∧ (d = true →
       winners ≠ []
       ∧ NoDup winners
       ∧ ∀ player, player ∈ winners
                   ↔ 1 <= player <= _players self
                     ∧ ∀ other, 1 <= other <= _players self →
                         (pieces_of (_grid self) other
                          <= pieces_of (_grid self) player)%nat).
Proof.
  intros (Hp & Hsq & Hlab & Ht).
  pose proof (center_on_board_players self ltac:(lia)) as Hon.
  destruct (done_spec self Hsq Hon) as (d & Hdone & Hyes & Hno).
  unfold outcome. unfold mbind at 1, M_bind at 1. rewrite Hdone.
  destruct d; cbn [negb].
  - unfold mbind at 1, M_bind at 1. cbn [get mret M_ret].
    eexists true, _. split; [done|]. split; [done|]. split; [done|]. intros _.
    destruct (over_piece self Hsq Hp (Hyes eq_refl)) as [l0 Hl0].
    destruct (count_pieces_counted (_grid self)) as [Hnd Hd].
    set (d := count_pieces (_grid self)) in *.
    destruct (maximum_of_spec d.*2) as [Hmax Hm].
    set (m := maximum_of d.*2) in *.
    assert (Hvalues : ∀ v, v ∈ d.*2 ↔ ∃ k, (k, v) ∈ d).
    { intros v. rewrite list_elem_of_fmap. split.
      - intros ([k v'] & -> & Hin). by exists k.
      - intros [k Hin]. by exists (k, v). }
    assert (Hwin : ∀ p, p ∈ (filter (fun kv => kv.2 = m) d).*1 ↔ (p, m) ∈ d).
    { intros p. rewrite list_elem_of_fmap. split.
      - intros ([k v] & -> & [Hv Hin]%list_elem_of_filter). cbn in *. by subst v.
      - intros Hin. exists (p, m). split; [done|]. by apply list_elem_of_filter. }
    assert (Hrange : ∀ k, (0 < count k (concat (_grid self)))%nat →
                          1 <= k <= _players self).
    { intros k Hk%count_pos. by apply (labelled_concat _ _ _ Hlab) in Hk. }
    assert (Hle : ∀ k, (0 < count k (concat (_grid self)))%nat →
                       Z.of_nat (count k (concat (_grid self))) <= m).
    { intros k Hk. apply Hmax, Hvalues. exists k. by apply Hd. }
    assert (Hm' : ∃ k0, (k0, m) ∈ d).
    { apply Hvalues. destruct Hm as [Hz|Hm]; [|done]. exfalso.
      apply count_pos in Hl0. specialize (Hle _ Hl0). lia. }
    destruct Hm' as [k0 Hk0].
    split; [|split].
    + intros Hnil. apply Hwin in Hk0. rewrite Hnil in Hk0.
      by apply elem_of_nil in Hk0.
    + apply NoDup_fmap_fst.
      * intros k v1 v2 [_ H1]%list_elem_of_filter [_ H2]%list_elem_of_filter.
        apply Hd in H1 as [-> _], H2 as [-> _]. done.
      * apply NoDup_filter. eapply NoDup_fmap_1. exact Hnd.
    + intros p. rewrite Hwin, !pieces_of_count. split.
      * intros [Hpm Hpos]%Hd. split; [by apply Hrange|].
        intros q Hq. rewrite pieces_of_count.
        destruct (decide (0 < count q (concat (_grid self)))%nat) as [Hqpos|]; [|lia].
        specialize (Hle _ Hqpos). lia.
      * intros [Hpr Hbest]. apply Hd in Hk0 as [Hm0 Hpos0].
        specialize (Hbest k0 (Hrange _ Hpos0)). rewrite !pieces_of_count in Hbest.
        assert (Hpos : (0 < count p (concat (_grid self)))%nat) by lia.
        assert (Hin : (p, Z.of_nat (count p (concat (_grid self)))) ∈ d)
          by by apply Hd.
        specialize (Hle _ Hpos).
        replace m with (Z.of_nat (count p (concat (_grid self)))) by lia. done.
  - cbn [mret M_ret]. eexists false, _. split; [done|]. split; [done|].
    split; [done|]. done.
Qed.

(** ** What every operation keeps *)

Section keeps.
Context (P : Reversi → Prop).

Lemma keeps_ret {A} (a : A) : keeps P (mret a).
Proof. by intros s Hs. Qed.

Lemma keeps_lift {A} (o : result A) : keeps P (lift o).
Proof. by intros s Hs. Qed.

Lemma keeps_read {A} (f : Reversi → result A) : keeps P (read f).
Proof. by intros s Hs. Qed.

Lemma keeps_bind {A B} (m : M A) (f : A → M B) :
  keeps P m → (∀ a, keeps P (f a)) → keeps P (m ≫= f).
Proof.
  intros Hm Hf s Hs. specialize (Hm s Hs). unfold mbind, M_bind.
  destruct (m s) as [[a|e|x] s']; cbn in *; [by apply Hf|done..].
Qed.

(** After [self ← get], the value [self] is a state that satisfies
    [P]. *)
Lemma keeps_get_bind {B} (f : Reversi → M B) :
  (∀ self, P self → keeps P (f self)) → keeps P (get ≫= f).
Proof. intros Hf s Hs. unfold mbind, M_bind, get. by apply Hf. Qed.

Lemma keeps_forM_ {A} (body : A → M unit) (l : list A) :
  (∀ x, keeps P (body x)) → keeps P (forM_ body l).
Proof.
  intros Hbody. induction l as [|x l IH]; cbn [forM_].
  - apply keeps_ret.
  - apply keeps_bind; [done|]. by intros _.
Qed.
End keeps.

Lemma grid_put_keeps (g g' : BoardGridType) row col v :
  grid_put g row col v = Ok g' →
  length g' = length g
  ∧ (∀ n, Forall (fun r : list cell => length r = n) g →
          Forall (fun r : list cell => length r = n) g')
  ∧ (∀ players, 1 <= v <= players → labelled players g → labelled players g').
Proof.
  unfold grid_put, py_get, py_set. intros H.
  destruct (py_index (length g) row) as [i|]; [|done]. cbn in H.
  destruct (g !! i) as [r|] eqn:Hr; [|done]. cbn in H.
  destruct (py_index (length r) col) as [j|]; [|done]. cbn in H.
  injection H as <-. split; [by rewrite length_insert|]. split.
  - intros n Hn. apply Forall_insert; [done|]. rewrite length_insert.
    rewrite Forall_forall in Hn. apply Hn. by eapply list_elem_of_lookup_2.
  - intros players Hv Hl. apply Forall_insert; [done|].
    apply Forall_insert; [|done]. unfold labelled in Hl.
    rewrite Forall_forall in Hl. apply Hl. by eapply list_elem_of_lookup_2.
Qed.

Section invariant.
Context (side players : Z) (othello : bool) (k : nat) (n : option nat).
Hypothesis Hplayers : 1 <= players.

Local Abbreviation rows_ok := (rows_ok n).

Local Abbreviation inv := (inv side players othello k n).

Lemma inv_with_turn t s : inv s → 1 <= t <= players → inv (with_turn t s).
Proof. intros (? & ? & ? & ? & ? & ? & ?) Ht. done. Qed.

Lemma keeps_set_turn t : 1 <= t <= players → keeps inv (set_turn t).
Proof. intros Ht s Hs. by apply inv_with_turn. Qed.

Lemma keeps_grid_set row col v :
  1 <= v <= players → keeps inv (grid_set row col v).
Proof.
  intros Hv s Hs. unfold grid_set.
  destruct (grid_put (_grid s) row col v) as [g'|e|x] eqn:Hput; [|done..].
  apply grid_put_keeps in Hput as (Hlen & Hrows & Hlab).
  destruct Hs as (? & ? & ? & ? & Hr & ? & ?). cbn [snd].
  unfold inv. cbn [with_grid _side _players _othello _grid _turn].
  split; [done|]. split; [done|]. split; [done|]. split; [congruence|].
  split; [|split; [by apply Hlab|done]].
  unfold rows_ok in *. destruct n; [by apply Hrows|done].
Qed.

Lemma keeps_done_loop ps : ∀ no_moves,
  Forall (fun p => 1 <= p <= players) ps → keeps inv (done_loop ps no_moves).
Proof.
  induction ps as [|p ps IH]; intros no_moves Hps; cbn [done_loop].
  - apply keeps_ret.
  - apply Forall_cons in Hps as [Hp Hps].
    apply keeps_bind; [by apply keeps_set_turn|]. intros _.
    apply keeps_bind; [|intros b; by apply IH].
    destruct no_moves; [|apply keeps_ret].
    apply keeps_bind; [apply keeps_read|]. intros moves. apply keeps_ret.
Qed.

Lemma keeps_done : keeps inv done.
Proof.
  unfold done. apply keeps_get_bind. intros self Hself.
  apply keeps_bind.
  - apply keeps_done_loop. apply Forall_forall. intros p Hp%elem_of_seqZ.
    destruct Hself as (_ & Hp' & _). lia.
  - intros b. apply keeps_bind; [|intros _; apply keeps_ret].
    apply keeps_set_turn. by destruct Hself as (_ & _ & _ & _ & _ & _ & ?).
Qed.

Lemma keeps_next_turn : keeps inv next_turn.
Proof.
  intros s Hs. pose proof Hs as (? & Hp & ? & ? & ? & ? & Ht).
  unfold next_turn. unfold mbind at 1, M_bind at 1. cbn [get].
  unfold mbind at 1, M_bind at 1, lift, py_mod.
  rewrite bool_decide_eq_false_2 by lia.
  unfold mbind at 1, M_bind at 1. cbn [set_turn].
  pose proof (Z.mod_pos_bound (_turn s + 1) (_players s + 1) ltac:(lia)).
  case_bool_decide as Hz; cbn [set_turn snd mret M_ret].
  - rewrite Hz, with_turn_with_turn. apply inv_with_turn; [done|lia].
  - apply inv_with_turn; [done|lia].
Qed.

Lemma keeps_skip_loop fuel : keeps inv (skip_loop fuel).
Proof.
  induction fuel as [|fuel IH]; cbn [skip_loop].
  - apply keeps_bind; [apply keeps_read|]. intros moves.
    case_bool_decide; [|apply keeps_ret].
    apply keeps_bind; [apply keeps_done|]. intros d.
    destruct d; [apply keeps_ret|apply keeps_lift].
  - apply keeps_bind; [apply keeps_read|]. intros moves.
    case_bool_decide; [|apply keeps_ret].
    apply keeps_bind; [apply keeps_done|]. intros d.
    destruct d; [apply keeps_ret|]. cbn [negb].
    apply keeps_bind; [apply keeps_next_turn|]. by intros _.
Qed.

Lemma keeps_flip_loop fuel : ∀ rs cs r c, keeps inv (flip_loop fuel rs cs r c).
Proof.
  induction fuel as [|fuel IH]; intros rs cs r c; cbn [flip_loop].
  - apply keeps_get_bind. intros self Hself.
    apply keeps_bind; [apply keeps_lift|]. intros here.
    case_bool_decide; [apply keeps_lift|apply keeps_ret].
  - apply keeps_get_bind. intros self Hself.
    apply keeps_bind; [apply keeps_lift|]. intros here.
    case_bool_decide; [|apply keeps_ret].
    apply keeps_bind; [|intros _; apply IH].
    apply keeps_grid_set. by destruct Hself as (_ & _ & _ & _ & _ & _ & ?).
Qed.

Lemma keeps_flip_direction pos d : keeps inv (flip_direction pos d).
Proof.
  unfold flip_direction. destruct pos as [row col], d as [rs cs].
  apply keeps_get_bind. intros self _. apply keeps_flip_loop.
Qed.

(** [apply_move] keeps the invariant, at every position and with every
    result. *)
Lemma keeps_apply_move pos : keeps inv (apply_move pos).
Proof.
  unfold apply_move. apply keeps_get_bind. intros self Hself.
  destruct (negb (_in_bounds self pos)); [apply keeps_lift|].
  destruct pos as [row col].
  assert (Ht : 1 <= _turn self <= players)
    by by destruct Hself as (_ & _ & _ & _ & _ & _ & ?).
  apply keeps_bind.
  - destruct (negb _ && _); [by apply keeps_grid_set|].
    apply keeps_bind; [by apply keeps_grid_set|]. intros _.
    apply keeps_bind; [apply keeps_read|]. intros dirs.
    apply keeps_forM_. intros d. apply keeps_flip_direction.
  - intros _. apply keeps_bind; [apply keeps_next_turn|]. intros _.
    apply keeps_get_bind. intros self' _. apply keeps_skip_loop.
Qed.
End invariant.

(** ** [load_game] *)

Lemma labelled_checks players (grid : BoardGridType) :
  foldM (fun _ row =>
           foldM (fun _ (item : cell) =>
                    match item with
                    | Some item =>
                        if bool_decide (item <= 0) || bool_decide (item > players)
                        then Raise (ValueError Msg.bad_turn)
                        else Ok tt
                    | None => Ok tt
                    end)
                 tt row)
        tt grid
  = if decide (labelled players grid) then Ok tt
    else Raise (ValueError Msg.bad_turn).
Proof.
  assert (Hrow : ∀ row u,
            foldM (fun _ (item : cell) =>
                     match item with
                     | Some item =>
                         if bool_decide (item <= 0) || bool_decide (item > players)
                         then Raise (ValueError Msg.bad_turn)
                         else Ok tt
                     | None => Ok tt
                     end) u row
            = if decide (Forall (label_ok players) row) then Ok tt
              else Raise (ValueError Msg.bad_turn)).
  { induction row as [|c row IH]; intros u; cbn [foldM].
    - destruct u. by rewrite decide_True.
    - destruct c as [q|]; cbn.
      + destruct (decide (1 <= q <= players)) as [Hq|Hq].
        * rewrite !bool_decide_eq_false_2 by lia. cbn. rewrite IH.
          destruct (decide (Forall (label_ok players) row)) as [Hr|Hr].
          -- rewrite decide_True; [done|]. by apply Forall_cons.
          -- rewrite decide_False; [done|]. by intros [_ ?]%Forall_cons.
        * rewrite decide_False by (by intros [? _]%Forall_cons).
          destruct (bool_decide (q <= 0)) eqn:H0; [done|].
          apply bool_decide_eq_false in H0.
          rewrite bool_decide_eq_true_2 by lia. done.
      + rewrite IH.
        destruct (decide (Forall (label_ok players) row)) as [Hr|Hr].
        * rewrite decide_True; [done|]. by apply Forall_cons.
        * rewrite decide_False; [done|]. by intros [_ ?]%Forall_cons. }
  assert (Hgrid : ∀ (grid : BoardGridType) u,
            foldM (fun _ row =>
                     foldM (fun _ (item : cell) =>
                              match item with
                              | Some item =>
                                  if bool_decide (item <= 0)
                                     || bool_decide (item > players)
                                  then Raise (ValueError Msg.bad_turn)
                                  else Ok tt
                              | None => Ok tt
                              end) tt row) u grid
            = if decide (labelled players grid) then Ok tt
              else Raise (ValueError Msg.bad_turn)).
  { unfold labelled. clear grid.
    induction grid as [|row grid IH]; intros u; cbn [foldM].
    - destruct u. by rewrite decide_True.
    - rewrite Hrow.
      destruct (decide (Forall (label_ok players) row)) as [Hr|Hr]; cbn.
      + rewrite IH. destruct (decide (Forall _ grid)) as [Hg|Hg].
        * rewrite decide_True; [done|]. by apply Forall_cons.
        * rewrite decide_False; [done|]. by intros [_ ?]%Forall_cons.
      + rewrite decide_False; [done|]. by intros [? _]%Forall_cons. }
  apply Hgrid.
Qed.

(** The checks of [load_game], in their order. *)
Lemma load_game_checks_spec turn (grid : BoardGridType) self :
  load_game_checks turn grid self
  = if decide (turn <= 0 ∨ turn > _players self) then
      Raise (ValueError Msg.bad_turn)
    else if decide (length grid ≠ length (_grid self)) then
      Raise (ValueError Msg.bad_length)
    else if decide (labelled (_players self) grid) then Ok tt
    else Raise (ValueError Msg.bad_turn).
Proof.
  unfold load_game_checks.
  destruct (decide (turn <= 0 ∨ turn > _players self)) as [Ht|Ht].
  - destruct Ht.
    + by rewrite (bool_decide_eq_true_2 (turn <= 0)).
    + rewrite (bool_decide_eq_true_2 (turn > _players self)) by done.
      by rewrite orb_true_r.
  - rewrite !bool_decide_eq_false_2 by lia. cbn [orb].
    destruct (decide (length grid ≠ length (_grid self))) as [Hl|Hl].
    + by rewrite bool_decide_eq_true_2.
    + rewrite bool_decide_eq_false_2 by done. apply labelled_checks.
Qed.

Lemma load_game_spec turn (grid : BoardGridType) self :
  load_game turn grid self
  = match load_game_checks turn grid self with
    | Ok _ =>
        (Ok tt, mkReversi (_side self) (_players self) (_othello self) grid turn)
    | Raise e => (Raise e, self)
    | Fault x => (Fault x, self)
    end.
Proof.
  unfold load_game. unfold mbind at 1, M_bind at 1, read.
  by destruct (load_game_checks turn grid self).
Qed.

Lemma load_game_inv side players othello n turn (grid : BoardGridType) s :
  inv side players othello (Z.to_nat side) n s →
  rows_ok n grid →
  inv side players othello (Z.to_nat side) n (load_game turn grid s).2.
Proof.
  intros Hs Hrows. rewrite load_game_spec, load_game_checks_spec.
  destruct Hs as (Hside & Hp & Ho & Hlen & Hr & Hlab & Ht).
  repeat case_decide; cbn [snd]; try done.
  repeat split; cbn; try done; try lia. by rewrite <- Hp.
Qed.

(** ** [__init__] *)

Lemma init_inv side players othello s :
  1 <= players →
  __init__ side players othello = Ok s →
  inv side players othello (Z.to_nat side) (Some (Z.to_nat side)) s.
Proof.
  intros Hp. unfold __init__.
  set (grid := (fun _ => replicate (Z.to_nat side) None) <$> range 0 side).
  assert (Hlen : length grid = Z.to_nat side).
  { unfold grid, range. rewrite length_fmap, length_seqZ. lia. }
  assert (Hrows : Forall (fun r : list cell => length r = Z.to_nat side) grid).
  { apply Forall_fmap, Forall_forall. intros i _. cbn. apply length_replicate. }
  assert (Hlab : labelled players grid).
  { apply Forall_fmap, Forall_forall. intros i _. cbn.
    apply Forall_forall. intros c Hc%elem_of_replicate. by destruct Hc as [-> _]. }
  case_bool_decide; [done|].
  destruct othello; cbn [andb].
  - case_bool_decide as Ho2; [done|].
    assert (players = 2) as -> by (destruct (decide (players = 2)); done).
    case_bool_decide; [done|].
    cbn [mbind result_bind].
    destruct (grid_put grid _ _ 2) as [g1| |] eqn:H1; [|done..].
    cbn [mbind result_bind].
    destruct (grid_put g1 _ _ 1) as [g2| |] eqn:H2; [|done..].
    cbn [mbind result_bind].
    destruct (grid_put g2 _ _ 2) as [g3| |] eqn:H3; [|done..].
    cbn [mbind result_bind].
    destruct (grid_put g3 _ _ 1) as [g4| |] eqn:H4; [|done..].
    cbn [mbind result_bind]. intros [= <-].
    apply grid_put_keeps in H1 as (L1 & R1 & B1), H2 as (L2 & R2 & B2),
        H3 as (L3 & R3 & B3), H4 as (L4 & R4 & B4).
    repeat split; cbn; try done; try lia.
    + by apply R4, R3, R2, R1.
    + apply B4, B3, B2, B1; (lia || done).
  - case_bool_decide; [done|]. cbn [mbind result_bind]. intros [= <-].
    repeat split; cbn; try done; try lia.
Qed.

(** ** The bounds of the loops

    A loop that ends within its bound ends in the same way within every
    greater bound: the bounds that the methods give to their loops cut no
    computation short that the lemmas above say anything about. *)

Lemma check_direction_loop_fuel fuel : ∀ fuel' self player rs cs r c lp w,
  check_direction_loop fuel self player rs cs r c lp = w →
  w ≠ Fault NoFuel → (fuel <= fuel')%nat →
  check_direction_loop fuel' self player rs cs r c lp = w.
Proof.
  induction fuel as [|fuel IH]; intros fuel' self player rs cs r c lp w Hw Hne Hle.
  - destruct fuel'; [done|]. cbn [check_direction_loop] in *.
    destruct (not_in_none_player lp player); [by subst w|done].
  - destruct fuel' as [|fuel']; [lia|]. cbn [check_direction_loop] in *.
    destruct (not_in_none_player lp player); [|done].
    destruct (negb (_in_bounds self (r + rs, c + cs))); [done|].
    destruct (grid_get self (r + rs) (c + cs)) as [lp'|e|x]; [|done..].
    cbn [mbind result_bind] in *. apply IH; [done|done|lia].
Qed.

Lemma flip_loop_fuel fuel : ∀ fuel' rs cs r c s res,
  flip_loop fuel rs cs r c s = res →
  res.1 ≠ Fault NoFuel → (fuel <= fuel')%nat →
  flip_loop fuel' rs cs r c s = res.
Proof.
  induction fuel as [|fuel IH]; intros fuel' rs cs r c s res Hres Hne Hle.
  - destruct fuel'; [done|]. cbn [flip_loop] in *.
    unfold mbind, M_bind, get, lift in *.
    destruct (grid_get s r c) as [here|e|x]; [|done..].
    case_bool_decide; [by subst res|done].
  - destruct fuel' as [|fuel']; [lia|]. cbn [flip_loop] in *.
    unfold mbind at 1, M_bind at 1, get. unfold mbind at 1, M_bind at 1, lift.
    unfold mbind at 1, M_bind at 1, get in Hres.
    unfold mbind at 1, M_bind at 1, lift in Hres.
    destruct (grid_get s r c) as [here|e|x]; [|done..].
    case_bool_decide; [|done].
    unfold mbind at 1, M_bind at 1. unfold mbind at 1, M_bind at 1 in Hres.
    destruct (grid_set r c (_turn s) s) as [[u|e|x] s1]; [|done..].
    apply IH; [done|done|lia].
Qed.

Lemma skip_loop_fuel fuel : ∀ fuel' s res,
  skip_loop fuel s = res →
  res.1 ≠ Fault NoFuel → (fuel <= fuel')%nat →
  skip_loop fuel' s = res.
Proof.
  induction fuel as [|fuel IH]; intros fuel' s res Hres Hne Hle.
  - destruct fuel'; [done|]. cbn [skip_loop] in *.
    unfold mbind at 1, M_bind at 1, read. unfold mbind at 1, M_bind at 1, read in Hres.
    destruct (available_moves s) as [moves|e|x]; [|done..].
    case_bool_decide; [|done].
    unfold mbind at 1, M_bind at 1. unfold mbind at 1, M_bind at 1 in Hres.
    destruct (done s) as [[d|e|x] s1]; [|done..].
    destruct d; [done|]. by subst res.
  - destruct fuel' as [|fuel']; [lia|]. cbn [skip_loop] in *.
    unfold mbind at 1, M_bind at 1, read. unfold mbind at 1, M_bind at 1, read in Hres.
    destruct (available_moves s) as [moves|e|x]; [|done..].
    case_bool_decide; [|done].
    unfold mbind at 1, M_bind at 1. unfold mbind at 1, M_bind at 1 in Hres.
    destruct (done s) as [[d|e|x] s1]; [|done..].
    destruct d; [done|]. cbn [negb] in *.
    unfold mbind at 1, M_bind at 1. unfold mbind at 1, M_bind at 1 in Hres.
    destruct (next_turn s1) as [[u|e|x] s2]; [|done..].
    apply IH; [done|done|lia].
Qed.

Lemma grid_get_no_fault self r c x : grid_get self r c ≠ Fault x.
Proof.
  unfold grid_get, py_get.
  destruct (py_index (length (_grid self)) r ≫= _) as [row|]; [|done].
  cbn [mbind result_bind]. by destruct (py_index (length row) c ≫= _).
Qed.

(** On every grid, the walk of [_check_direction] in one of the eight
    directions ends within [_side] steps. *)
Lemma check_direction_loop_ends fuel : ∀ self player d r c lp x,
  d ∈ directions → _in_bounds self (r, c) = true →
  room self d (r, c) < Z.of_nat fuel →
  check_direction_loop fuel self player d.1 d.2 r c lp ≠ Fault x.
Proof.
  induction fuel as [|fuel IH]; intros self player d r c lp x Hd Hb Hroom.
  - pose proof (room_bounds self d _ Hd Hb). lia.
  - cbn [check_direction_loop].
    destruct (not_in_none_player lp player); [|done].
    destruct (_in_bounds self (r + d.1, c + d.2)) eqn:Hb'; [|done]. cbn [negb].
    pose proof (grid_get_no_fault self (r + d.1) (c + d.2)) as Hget.
    destruct (grid_get self (r + d.1) (c + d.2)) as [lp'|e|y];
      [|done|by destruct (Hget y)].
    cbn [mbind result_bind]. apply IH; [done|done|].
    pose proof (room_step self d (r, c) Hd) as Hs. cbn [fst snd] in Hs. lia.
Qed.

Lemma check_direction_ends self player pos d x :
  d ∈ directions → _check_direction self player pos d ≠ Fault x.
Proof.
  intros Hd. unfold _check_direction. destruct d as [rs cs], pos as [row col].
  destruct (_in_bounds self (row + rs, col + cs)) eqn:Hb; [|done]. cbn [negb].
  pose proof (grid_get_no_fault self (row + rs) (col + cs)) as Hget.
  destruct (grid_get self (row + rs) (col + cs)) as [lp|e|y];
    [|done|by destruct (Hget y)].
  cbn [mbind result_bind]. destruct (not_in_none_player lp player); [|done].
  pose proof (check_direction_loop_ends (Z.to_nat (_side self)) self player
                (rs, cs) (row + rs) (col + cs) lp x Hd Hb) as Hloop.
  cbn [fst snd] in Hloop.
  destruct (check_direction_loop _ _ _ _ _ _ _ _) as [[[[r c] lp']|]|e|y].
  - cbn [mbind result_bind]. by destruct (_ && _).
  - done.
  - done.
  - cbn [mbind result_bind]. intros [= ->]. apply Hloop; [|done].
    pose proof (room_bounds self _ _ Hd Hb). lia.
Qed.

(** * The claims *)

Lemma othello_8_center_full : center_full othello_8.
Proof.
  intros [i j] [Hi Hj]. change (3 <= i < 5) in Hi. change (3 <= j < 5) in Hj.
  assert (i = 3 ∨ i = 4) as [-> | ->] by lia;
    assert (j = 3 ∨ j = 4) as [-> | ->] by lia; by eexists.
Qed.



(** C1 (amended). In a state whose grid is [side] by [side] and whose
    center block is fully occupied (Regime B), at every empty position of
    the board, [legal_move] answers, and it answers yes exactly when at
    least one of the eight rays from the position captures: from the cell
    next to the position, the ray passes through ONE or more cells of
    players other than the player to move and then lands on a cell of the
    player to move, all on the board. *)
Theorem legal_move_regime_B self pos :
  square (_side self) (_grid self) → center_full self →
  _in_bounds self pos = true → cell_at self pos = Some None →
  ∃ b, legal_move self pos = Ok b
       ∧ (b = true ↔
          ∃ d, d ∈ directions ∧ ray_captures 1 self (_turn self) pos d).
Proof.
  intros Hsq Hfull Hb Hempty.
  destruct (legal_move_spec self Hsq pos (center_full_on_board _ Hfull) Hb)
    as (b & Hl & Hiff).
  exists b. split; [done|]. rewrite Hiff. unfold captures_some. split.
  - intros [_ [[_ Hc]|[Hnot _]]]; [done|]. by destruct Hnot.
  - intros Hc. split; [done|]. left. split; [by left|done].
Qed.

(** C1, at the first position of the standard opening. *)
Lemma legal_move_regime_B_witness :
  ∃ b, legal_move othello_8 (2, 3) = Ok b
       ∧ (b = true ↔
          ∃ d, d ∈ directions
               ∧ ray_captures 1 othello_8 (_turn othello_8) (2, 3) d).
Proof.
  apply (legal_move_regime_B othello_8 (2, 3)).
  - apply (bool_decide_unpack _). vm_compute. exact I.
  - exact othello_8_center_full.
  - reflexivity.
  - reflexivity.
Defined.

(** C1 as it is written, with rays that pass through ZERO or more cells,
    fails at the opening of Othello: the cell below (2, 4) holds a piece
    of player 1, so that the ray to the south captures with zero cells,
    and [legal_move] says no. *)
Lemma legal_move_zero_cells_counterexample :
  square (_side othello_8) (_grid othello_8)
  ∧ center_full othello_8
  ∧ _in_bounds othello_8 (2, 4) = true
  ∧ cell_at othello_8 (2, 4) = Some None
  ∧ ¬ (legal_move othello_8 (2, 4) = Ok true
       ↔ ∃ d, d ∈ directions
              ∧ ray_captures 0 othello_8 (_turn othello_8) (2, 4) d).
Proof.
  split; [apply (bool_decide_unpack _); vm_compute; exact I|].
  split; [exact othello_8_center_full|].
  split; [reflexivity|]. split; [reflexivity|].
  intros [_ Hback].
  assert (Hfalse : legal_move othello_8 (2, 4) = Ok false) by reflexivity.
  rewrite Hfalse in Hback.
  assert (Ok false = Ok true) as [=]. apply Hback.
  exists (1, 0). split; [by left|]. exists 0%nat.
  split; [done|]. split; [intros k Hk; lia|reflexivity].
Qed.

(* The claims on [done], on the open center block and on the grids of
   the states that can be reached are about engines of any number of
   players and about engines in the heap: they come at the end, after
   the lemmas on both. *)

(** C3. In every game state, [apply_move] at a position of the board (a
    legal one in particular) returns, and the turn it leaves is reached
    from the mover by one step to the following player, player [players]
    being followed by player 1, and then [k] more steps past players whose
    moves are empty; the loop stops at a player with a move, or at once
    when the game is done. In particular, when the move leaves only the
    mover with moves, the turn is the mover's again. *)
Theorem apply_move_turn self pos :
  game_state self → _in_bounds self pos = true →
  ∃ self' (k : nat),
    let first := following (_players self) (_turn self) in
    apply_move pos self = (Ok tt, self')
    ∧ _turn self' = Nat.iter k (following (_players self)) first
    ∧ (∀ j : nat, (j < k)%nat →
         moves_of self' (Nat.iter j (following (_players self)) first) = Ok [])
    ∧ (moves_of self' (_turn self') ≠ Ok []
       ∨ (k = 0%nat
          ∧ ∀ player, 1 <= player <= _players self →
              moves_of self' player = Ok []))
    ∧ ((∀ player, 1 <= player <= _players self → player ≠ _turn self →
          moves_of self' player = Ok []) →
       moves_of self' (_turn self) ≠ Ok [] →
       _turn self' = _turn self).
Proof.
  destruct self as [side players othello g t].
  intros (Hp & Hsq & _ & Ht) Hb. cbn [_side _players _grid _turn] in *.
  destruct (apply_move_spec side players othello g t pos Hsq Hp Ht Hb)
    as (g' & k & Happ & _ & Hbefore & Hat).
  cbn zeta in Happ, Hat.
  eexists _, k. cbn zeta. split; [exact Happ|].
  cbn [_turn]. split; [done|]. split; [exact Hbefore|]. split; [exact Hat|].
  intros Hothers Hmover.
  pose proof (iter_following_range players (following players t) k
                ltac:(lia) (following_range players t ltac:(lia) Ht)) as Hrange.
  destruct Hat as [Hat|[-> Hover]].
  - destruct (decide (Nat.iter k (following players) (following players t) = t))
      as [|Hne]; [done|].
    destruct Hat. by apply Hothers.
  - destruct Hmover. by apply Hover.
Qed.

(** C3, on the grid of the turn-skip test. *)
Lemma apply_move_turn_witness :
  ∃ self' (k : nat),
    let first := following (_players skip_4) (_turn skip_4) in
    apply_move (2, 0) skip_4 = (Ok tt, self')
    ∧ _turn self' = Nat.iter k (following (_players skip_4)) first
    ∧ (∀ j : nat, (j < k)%nat →
         moves_of self' (Nat.iter j (following (_players skip_4)) first) = Ok [])
    ∧ (moves_of self' (_turn self') ≠ Ok []
       ∨ (k = 0%nat
          ∧ ∀ player, 1 <= player <= _players skip_4 →
              moves_of self' player = Ok []))
    ∧ ((∀ player, 1 <= player <= _players skip_4 → player ≠ _turn skip_4 →
          moves_of self' player = Ok []) →
       moves_of self' (_turn skip_4) ≠ Ok [] →
       _turn self' = _turn skip_4).
Proof.
  apply (apply_move_turn skip_4 (2, 0)).
  - apply (bool_decide_unpack _). vm_compute. exact I.
  - reflexivity.
Defined.

(** The test [test_turn_skip_1]: player 2 has no answer to the move of
    player 1 at (2, 0), and the turn comes back to player 1. *)
Example turn_skip_1 :
  apply_move (2, 0) skip_4
  = (Ok tt,
     mkReversi 4 2 true
       [[Some 1; Some 1; Some 1; None]; [Some 1; Some 1; Some 1; None];
        [Some 1; Some 1; Some 2; None]; [None; None; None; None]]
       1)
  ∧ moves_of (apply_move (2, 0) skip_4).2 2 = Ok [].
Proof. split; reflexivity. Qed.



(** A tie on a full board, and no winner at the opening. *)
Example outcome_tie : outcome full_4 = (Ok [1; 2], full_4).
Proof. reflexivity. Qed.

Example outcome_opening : outcome othello_8 = (Ok [], othello_8).
Proof. reflexivity. Qed.

(** C7. [Reversi(8, 2, True)] succeeds; in the engine it makes, (3, 3) and
    (4, 4) hold pieces of player 2, (3, 4) and (4, 3) pieces of player 1,
    every other cell is empty, the turn is 1, and the available moves are
    exactly the set (2, 3), (3, 2), (4, 5), (5, 4). *)
Theorem othello_8_start :
  ∃ self,
    __init__ 8 2 true = Ok self
    ∧ piece_at self (3, 3) = Ok (Some 2)
    ∧ piece_at self (3, 4) = Ok (Some 1)
    ∧ piece_at self (4, 3) = Ok (Some 1)
    ∧ piece_at self (4, 4) = Ok (Some 2)
    ∧ (∀ pos, _in_bounds self pos = true →
         pos ∉ [(3, 3); (3, 4); (4, 3); (4, 4)] → piece_at self pos = Ok None)
    ∧ turn self = 1
    ∧ ∃ moves, available_moves self = Ok moves
               ∧ NoDup moves
               ∧ list_to_set moves
                 = ({[ (2, 3); (3, 2); (4, 5); (5, 4) ]} : gset position).
Proof.
  exists othello_8. split; [reflexivity|].
  do 4 (split; [reflexivity|]). split; [|split; [reflexivity|]].
  - intros [i j] Hb Hnot. apply in_bounds_spec in Hb. cbn [_side othello_8] in Hb.
    assert (Hi : i = 0 ∨ i = 1 ∨ i = 2 ∨ i = 3 ∨ i = 4 ∨ i = 5 ∨ i = 6 ∨ i = 7)
      by lia.
    assert (Hj : j = 0 ∨ j = 1 ∨ j = 2 ∨ j = 3 ∨ j = 4 ∨ j = 5 ∨ j = 6 ∨ j = 7)
      by lia.
    destruct Hi as [->|[->|[->|[->|[->|[->|[->| ->]]]]]]];
      destruct Hj as [->|[->|[->|[->|[->|[->|[->| ->]]]]]]];
      first [reflexivity | exfalso; apply Hnot; by repeat constructor].
  - eexists. split; [vm_compute; reflexivity|]. split.
    + apply (bool_decide_unpack _). vm_compute. exact I.
    + vm_compute. reflexivity.
Qed.

Lemma inv_weaken side players othello k n s :
  inv side players othello k n s → inv side players othello k None s.
Proof. intros (? & ? & ? & ? & ? & ? & ?). done. Qed.

(** C10. In every game state, at every position of the board at which
    [legal_move] says yes, [apply_move] returns and the grid has exactly
    one occupied cell more: the cell of the move was empty and holds the
    mover's label, every other cell that changed was a cell of another
    player and holds the mover's label, and no occupied cell is empty
    afterwards. *)
Theorem apply_move_one_more self pos :
  game_state self → _in_bounds self pos = true →
  legal_move self pos = Ok true →
  ∃ self',
    apply_move pos self = (Ok tt, self')
    ∧ occupied (_grid self') = S (occupied (_grid self))
    ∧ cell_at self pos = Some None
    ∧ cell_at self' pos = Some (Some (_turn self))
    ∧ (∀ p, p ≠ pos →
         cell_at self' p = cell_at self p
         ∨ ((∃ q, cell_at self p = Some (Some q) ∧ q ≠ _turn self)
            ∧ cell_at self' p = Some (Some (_turn self))))
    ∧ (∀ p q, cell_at self p = Some (Some q) →
         ∃ q', cell_at self' p = Some (Some q')).
Proof.
  destruct self as [side players othello g t].
  intros (Hp & Hsq & _ & Ht) Hb Hlegal. cbn [_side _players _grid _turn] in *.
  set (self := mkReversi side players othello g t) in *.
  assert (Hempty : cell_at self pos = Some None).
  { destruct (legal_move_spec self Hsq pos
                (center_on_board_players self ltac:(cbn; lia)) Hb)
      as (b & Hl & Hiff).
    rewrite Hlegal in Hl. injection Hl as <-. by apply Hiff. }
  destruct (apply_move_spec side players othello g t pos Hsq Hp Ht Hb)
    as (g' & k & Happ & (Hsq' & Hpos & Hocc & Hcells) & _).
  cbn zeta in Happ. eexists. split; [exact Happ|].
  cbn [_grid].
  change (cell_at (mkReversi side players othello g' ?x))
    with (cell_at (mkReversi side players othello g' t)).
  split; [|split; [done|split; [done|split; [done|]]]].
  - rewrite (Hocc None Hempty). lia.
  - intros p q Hq. destruct (decide (p = pos)) as [->|Hne]; [by exists t|].
    destruct (Hcells p Hne) as [Hsame|[_ Hnew]].
    + exists q. by rewrite Hsame.
    + by exists t.
Qed.

(** C10, for the move (4, 5) at the opening of Othello. *)
Lemma apply_move_one_more_witness :
  ∃ self',
    apply_move (4, 5) othello_8 = (Ok tt, self')
    ∧ occupied (_grid self') = S (occupied (_grid othello_8))
    ∧ cell_at othello_8 (4, 5) = Some None
    ∧ cell_at self' (4, 5) = Some (Some (_turn othello_8))
    ∧ (∀ p, p ≠ (4, 5) →
         cell_at self' p = cell_at othello_8 p
         ∨ ((∃ q, cell_at othello_8 p = Some (Some q) ∧ q ≠ _turn othello_8)
            ∧ cell_at self' p = Some (Some (_turn othello_8))))
    ∧ (∀ p q, cell_at othello_8 p = Some (Some q) →
         ∃ q', cell_at self' p = Some (Some q')).
Proof.
  apply (apply_move_one_more othello_8 (4, 5)).
  - apply (bool_decide_unpack _). vm_compute. exact I.
  - reflexivity.
  - reflexivity.
Defined.

(** The move (4, 5) at the opening of Othello turns (4, 4) over. *)
Example apply_move_4_5 :
  cell_at (apply_move (4, 5) othello_8).2 (4, 4) = Some (Some 1)
  ∧ _turn (apply_move (4, 5) othello_8).2 = 2.
Proof. split; reflexivity. Qed.

(** ** Engines in the heap *)

Module StoreFacts.
Import Store.

Lemma keeps_heap_bind P {A B} (m : H A) (f : A → H B) :
  keeps_heap P m → (∀ a, keeps_heap P (f a)) → keeps_heap P (m ≫= f).
Proof.
  intros Hm Hf h Hh. specialize (Hm h Hh). unfold mbind, H_bind.
  destruct (m h) as [[a|e|x] h']; cbn in *; [by apply Hf|done..].
Qed.

Lemma keeps_heap_ret P {A} (a : A) : keeps_heap P (mret a).
Proof. by intros h Hh. Qed.

Lemma keeps_heap_fail P {A} e : keeps_heap P (@fail A e).
Proof. by intros h Hh. Qed.

Lemma keeps_heap_observe P {A} l (f : Reversi → result A) :
  keeps_heap P (observe l f).
Proof. intros h Hh. unfold observe. by destruct (view h l). Qed.

Section receiver.
Context (self : loc) (o : object) (g : BoardGridType).

Local Abbreviation kept := (kept self o g).

Local Abbreviation apart := (apart self o g).

Lemma fresh_grid_ne h : kept h → fresh (dom (grids h)) ≠ o_grid o.
Proof.
  intros [_ Hg] Heq. apply (is_fresh (dom (grids h))).
  rewrite Heq. apply elem_of_dom. by eexists.
Qed.

Lemma fresh_object_ne h : kept h → fresh (dom (objects h)) ≠ self.
Proof.
  intros [Ho _] Heq. apply (is_fresh (dom (objects h))).
  rewrite Heq. apply elem_of_dom. by eexists.
Qed.

Lemma keeps_alloc_grid sim g' : keeps_heap (apart sim) (alloc_grid g').
Proof.
  intros h (Hk & Hne & osim & Hsim & Hg). unfold alloc_grid. cbn.
  pose proof (fresh_grid_ne h Hk). destruct Hk as [Ho Hgr].
  split; [split|]; cbn.
  - done.
  - by rewrite lookup_insert_ne.
  - split; [done|]. by exists osim.
Qed.

Lemma keeps_grid sim l : keeps_heap (apart sim) (grid l).
Proof.
  unfold grid. apply keeps_heap_bind; [apply keeps_heap_observe|].
  intros g'. apply keeps_alloc_grid.
Qed.

Lemma keeps_call sim {A} (m : M A) : keeps_heap (apart sim) (call sim m).
Proof.
  intros h ([Ho Hgr] & Hne & osim & Hsim & Hg). unfold call. rewrite Hsim.
  destruct (grids h !! o_grid osim) as [gs|] eqn:Hgs; cbn.
  - destruct (m _) as [r s']. cbn. split; [split|]; cbn.
    + by rewrite lookup_insert_ne.
    + by rewrite lookup_insert_ne.
    + split; [done|]. eexists. rewrite lookup_insert_eq. split; [done|]. done.
  - repeat split; try done. by exists osim.
Qed.

Lemma keeps_simulate_move sim move :
  keeps_heap (apart sim) (simulate_move self sim move).
Proof.
  unfold simulate_move. destruct move as [row col].
  apply keeps_heap_bind; [apply keeps_heap_observe|]. intros inside.
  destruct (negb inside); [apply keeps_heap_fail|].
  apply keeps_heap_bind; [apply keeps_grid|]. intros copy.
  apply keeps_heap_bind.
  { intros h Hh. by destruct (grids h !! copy). }
  intros here. case_bool_decide; [apply keeps_heap_fail|].
  apply keeps_call.
Qed.

Lemma keeps_simulate_loop sim moves :
  keeps_heap (apart sim) (simulate_loop self sim moves).
Proof.
  induction moves as [|move moves IH]; cbn [simulate_loop].
  - apply keeps_heap_ret.
  - apply keeps_heap_bind; [apply keeps_simulate_move|]. by intros _.
Qed.

(** [simulate_moves] leaves the receiver and its grid as they were,
    with every result. *)
Lemma simulate_moves_kept moves h :
  kept h → kept (simulate_moves self moves h).2.
Proof.
  intros Hk. pose proof Hk as [Ho Hgr]. unfold simulate_moves.
  unfold mbind at 1, H_bind at 1, observe, view.
  rewrite Ho. cbn. rewrite Hgr. cbn.
  unfold mbind at 1, H_bind at 1, new.
  destruct (__init__ _ _ _) as [s0|e|x]; [|done..].
  set (gl := fresh (dom (grids h))). set (sim := fresh (dom (objects h))).
  pose proof (fresh_grid_ne h Hk) as Hgl. fold gl in Hgl.
  pose proof (fresh_object_ne h Hk) as Hsim. fold sim in Hsim.
  set (h1 := mkHeap _ _).
  assert (H1 : apart sim h1).
  { split; [split|]; cbn.
    - by rewrite lookup_insert_ne.
    - by rewrite lookup_insert_ne.
    - split; [done|]. eexists. rewrite lookup_insert_eq. done. }
  unfold mbind at 1, H_bind at 1.
  pose proof (keeps_heap_observe (apart sim) self (fun s => Ok (_turn s)) h1 H1) as H2.
  unfold turn. destruct (observe self _ h1) as [[t|e|x] h2]; cbn in H2; [|by destruct H2..].
  unfold mbind at 1, H_bind at 1.
  pose proof (keeps_grid sim self h2 H2) as H3.
  destruct (grid self h2) as [[copy|e|x] h3] eqn:Hcopy; cbn in H3; [|by destruct H3..].
  assert (Hc : copy ≠ o_grid o).
  { unfold grid in Hcopy. unfold mbind, H_bind, observe in Hcopy.
    destruct (view h2 self); [|done]. cbn in Hcopy.
    injection Hcopy as <- <-. apply fresh_grid_ne. by destruct H2. }
  unfold mbind at 1, H_bind at 1.
  assert (H4 : apart sim (load_game sim t copy h3).2).
  { destruct H3 as ([Ho3 Hg3] & Hne & osim & Hos & Hgs). unfold load_game.
    destruct (grids h3 !! copy); [|repeat split; try done; by exists osim].
    unfold observe. destruct (view h3 sim); [|repeat split; try done; by exists osim].
    destruct (load_game_checks _ _ _);
      [|repeat split; try done; by exists osim..].
    rewrite Hos. repeat split; cbn; try done.
    - by rewrite lookup_insert_ne.
    - eexists. rewrite lookup_insert_eq. done. }
  destruct (load_game sim t copy h3) as [[u|e|x] h4]; cbn in H4; [|by destruct H4..].
  unfold mbind at 1, H_bind at 1.
  pose proof (keeps_simulate_loop sim moves h4 H4) as H5.
  destruct (simulate_loop self sim moves h4) as [[u'|e|x] h5]; cbn in H5;
    by destruct H5.
Qed.
End receiver.

Lemma view_kept h self s :
  view h self = Some s →
  ∃ o, kept self o (_grid s) h
       ∧ ∀ h', kept self o (_grid s) h' → view h' self = Some s.
Proof.
  unfold view. intros Hv.
  destruct (objects h !! self) as [o|] eqn:Ho; [|done]. cbn in Hv.
  destruct (grids h !! o_grid o) as [g|] eqn:Hg; [|done]. cbn in Hv.
  injection Hv as <-. exists o. split; [done|].
  intros h' [Ho' Hg']. cbn in Hg'. rewrite Ho'. cbn. by rewrite Hg'.
Qed.

(** [load_game] on an object: the checks run on the list that is
    passed, and after them the object refers to that very list. *)
Lemma load_game_heap h self turn grid s g :
  view h self = Some s → grids h !! grid = Some g →
  load_game self turn grid h
  = match load_game_checks turn g s with
    | Ok _ =>
        (Ok tt,
         mkHeap (<[self := mkObject (_side s) (_players s) (_othello s)
                             grid turn]> (objects h))
                (grids h))
    | Raise e => (Raise e, h)
    | Fault x => (Fault x, h)
    end.
Proof.
  intros Hv Hg. unfold load_game, observe. rewrite Hg, Hv.
  destruct (load_game_checks turn g s); [|done..].
  unfold view in Hv. destruct (objects h !! self) as [o|]; [|done].
  cbn in Hv. destruct (grids h !! o_grid o); [|done]. cbn in Hv.
  by injection Hv as <-.
Qed.
(** C4. For every heap, every engine in it and every list of
    positions, the engine and its grid are after [simulate_moves] what
    they were before, with every result: when a new engine is
    returned, and when the call fails (a position off the board, an
    occupied cell). *)
Theorem simulate_moves_receiver h self moves s :
  view h self = Some s →
  ∀ r h', simulate_moves self moves h = (r, h') →
    view h' self = Some s ∧ objects h' !! self = objects h !! self.
Proof.
  intros Hv r h' Hsim.
  destruct (view_kept h self s Hv) as (o & Hk & Hback).
  pose proof (simulate_moves_kept self o (_grid s) moves h Hk) as Hk'.
  rewrite Hsim in Hk'. cbn [snd] in Hk'. split; [by apply Hback|].
  destruct Hk as [-> _], Hk' as [-> _]. done.
Qed.

(** C4, for a simulation that fails at its second move. *)
Lemma simulate_moves_receiver_witness :
  view (simulate_moves 0%nat [(2, 3); (4, 4)] heap_8).2 0%nat = Some othello_8
  ∧ objects (simulate_moves 0%nat [(2, 3); (4, 4)] heap_8).2 !! 0%nat
    = objects heap_8 !! 0%nat.
Proof.
  apply (simulate_moves_receiver heap_8 0%nat [(2, 3); (4, 4)] othello_8
           ltac:(vm_compute; reflexivity) _ _ (surjective_pairing _)).
Defined.

(** The three results of [simulate_moves]. *)
Example simulate_moves_occupied :
  (simulate_moves 0%nat [(2, 3); (4, 4)] heap_8).1
  = Raise (ValueError Msg.occupied).
Proof. vm_compute. reflexivity. Qed.

Example simulate_moves_out_of_bounds :
  (simulate_moves 0%nat [(-1, 0)] heap_8).1
  = Raise (ValueError Msg.sim_out_of_bounds).
Proof. vm_compute. reflexivity. Qed.

Example simulate_moves_returns :
  ∃ sim h',
    simulate_moves 0%nat [(2, 3)] heap_8 = (Ok sim, h')
    ∧ sim ≠ 0%nat
    ∧ (turn sim h').1 = Ok 2
    ∧ (turn 0%nat h').1 = Ok 1.
Proof. eexists _, _. split; [vm_compute; reflexivity|]. split; [done|]. done. Qed.

(** What [simulate_moves] avoids: after [load_game], the engine and the
    caller share the list, and a move of the engine shows in it. *)
Example load_game_shares :
  let h := (load_game 0%nat 1 1%nat heap_8_copy).2 in
  grids heap_8_copy !! 1%nat = Some (_grid othello_8)
  ∧ (g ← grids (apply_move 0%nat (2, 3) h).2 !! 1%nat; g !! 2%nat)
    = Some [None; None; None; Some 1; None; None; None; None].
Proof. split; vm_compute; reflexivity. Qed.

(** C6. [load_game] checks before it assigns, in this order: a turn
    outside [[1, players]] fails; then a number of rows other than
    [side] fails; then a cell that is neither [None] nor a label in
    [[1, players]] fails; after a failure the heap, and so the grid and
    the turn of the engine, is what it was; when nothing fails, the
    engine has the given turn and refers to the given grid. *)
Theorem load_game_validates h self turn grid s g :
  view h self = Some s → grids h !! grid = Some g →
  length (_grid s) = Z.to_nat (_side s) →
  (turn < 1 ∨ turn > _players s →
     load_game self turn grid h = (Raise (ValueError Msg.bad_turn), h))
  ∧ (1 <= turn <= _players s → length g ≠ Z.to_nat (_side s) →
     load_game self turn grid h = (Raise (ValueError Msg.bad_length), h))
  ∧ (1 <= turn <= _players s → length g = Z.to_nat (_side s) →
     ¬ labelled (_players s) g →
     load_game self turn grid h = (Raise (ValueError Msg.bad_turn), h))
  ∧ (1 <= turn <= _players s → length g = Z.to_nat (_side s) →
     labelled (_players s) g →
     ∃ h', load_game self turn grid h = (Ok tt, h')
           ∧ view h' self
             = Some (mkReversi (_side s) (_players s) (_othello s) g turn)
           ∧ grids h' = grids h
           ∧ ∃ o', objects h' !! self = Some o' ∧ o_grid o' = grid).
Proof.
  intros Hv Hg Hlen.
  rewrite (load_game_heap h self turn grid s g Hv Hg), load_game_checks_spec.
  split; [|split; [|split]].
  - intros Ht. rewrite decide_True by lia. done.
  - intros Ht Hl. rewrite decide_False by lia.
    rewrite decide_True by congruence. done.
  - intros Ht Hl Hlab. rewrite decide_False by lia.
    rewrite decide_False by (intros H; apply H; congruence).
    rewrite decide_False by done. done.
  - intros Ht Hl Hlab. rewrite decide_False by lia.
    rewrite decide_False by (intros H; apply H; congruence).
    rewrite decide_True by done. eexists. split; [done|].
    split; [|split; [done|]].
    + unfold view. cbn. rewrite lookup_insert_eq. cbn. by rewrite Hg.
    + eexists. cbn. rewrite lookup_insert_eq. done.
Qed.

(** C6, for the engine of the opening of Othello and a copy of its
    grid. *)
Lemma load_game_validates_witness :
  (3 < 1 ∨ 3 > _players othello_8 →
     load_game 0%nat 3 1%nat heap_8_copy
     = (Raise (ValueError Msg.bad_turn), heap_8_copy))
  ∧ (1 <= 3 <= _players othello_8 →
     length (_grid othello_8) ≠ Z.to_nat (_side othello_8) →
     load_game 0%nat 3 1%nat heap_8_copy
     = (Raise (ValueError Msg.bad_length), heap_8_copy))
  ∧ (1 <= 3 <= _players othello_8 →
     length (_grid othello_8) = Z.to_nat (_side othello_8) →
     ¬ labelled (_players othello_8) (_grid othello_8) →
     load_game 0%nat 3 1%nat heap_8_copy
     = (Raise (ValueError Msg.bad_turn), heap_8_copy))
  ∧ (1 <= 3 <= _players othello_8 →
     length (_grid othello_8) = Z.to_nat (_side othello_8) →
     labelled (_players othello_8) (_grid othello_8) →
     ∃ h', load_game 0%nat 3 1%nat heap_8_copy = (Ok tt, h')
           ∧ view h' 0%nat
             = Some (mkReversi (_side othello_8) (_players othello_8)
                       (_othello othello_8) (_grid othello_8) 3)
           ∧ grids h' = grids heap_8_copy
           ∧ ∃ o', objects h' !! 0%nat = Some o' ∧ o_grid o' = 1%nat).
Proof.
  apply (load_game_validates heap_8_copy 0%nat 3 1%nat othello_8
           (_grid othello_8)).
  - vm_compute. reflexivity.
  - vm_compute. reflexivity.
  - reflexivity.
Defined.

(** The failures of [load_game] in the tests, and a success. *)
Example load_game_bad_turn :
  load_game 0%nat 3 1%nat heap_8_copy
  = (Raise (ValueError Msg.bad_turn), heap_8_copy).
Proof. vm_compute. reflexivity. Qed.

Example load_game_loads :
  view (load_game 0%nat 2 1%nat heap_8_copy).2 0%nat
  = Some (with_turn 2 othello_8).
Proof. vm_compute. reflexivity. Qed.

End StoreFacts.

(** * The rest of the engine, and the strategies *)

(** ** [__init__] *)

Lemma grid_get_cell_at self row col c :
  _in_bounds self (row, col) = true →
  grid_get self row col = Ok c → cell_at self (row, col) = Some c.
Proof.
  intros Hb. unfold cell_at. rewrite Hb. cbn [fst snd].
  apply in_bounds_spec in Hb as [Hr Hc].
  unfold grid_get, py_get, py_index.
  destruct (bool_decide (0 <= row < _)) eqn:E1.
  - cbn [mbind option_bind]. destruct (_grid self !! Z.to_nat row) as [r|]; [|done].
    cbn [mbind result_bind option_bind].
    destruct (bool_decide (0 <= col < _)) eqn:E2.
    + cbn [mbind option_bind]. destruct (r !! Z.to_nat col); [|done]. by intros [= ->].
    + rewrite bool_decide_eq_false_2 by lia. done.
  - rewrite bool_decide_eq_false_2 by lia. done.
Qed.

Lemma empty_grid_square side : square side (empty_grid side).
Proof.
  split.
  - unfold empty_grid, range. rewrite length_fmap, length_seqZ. lia.
  - apply Forall_fmap, Forall_forall. intros i _. cbn. apply length_replicate.
Qed.

Lemma empty_grid_cell_at side players othello t pos c :
  cell_at (mkReversi side players othello (empty_grid side) t) pos = Some c →
  c = None.
Proof.
  unfold cell_at. destruct (_in_bounds _ _); [|done]. cbn [_grid].
  unfold empty_grid. rewrite list_lookup_fmap.
  destruct (range 0 side !! _); cbn; [|done].
  intros [? _]%lookup_replicate. done.
Qed.

Lemma init_inspect side players othello :
  __init__ side players othello
  = if bool_decide (players mod 2 ≠ Z.max 0 side mod 2) then
      Raise (ValueError Msg.parity)
    else if othello && bool_decide (players ≠ 2) then
      Raise (ValueError Msg.othello_players)
    else if bool_decide (side < 3) then Raise (ValueError Msg.too_small)
    else
      grid ←
        (if othello then
           g1 ← grid_put (empty_grid side) (side / 2) (side / 2) 2;
           g2 ← grid_put g1 (side / 2 - 1) (side / 2) 1;
           g3 ← grid_put g2 (side / 2 - 1) (side / 2 - 1) 2;
           grid_put g3 (side / 2) (side / 2 - 1) 1
         else Ok (empty_grid side));
      Ok (mkReversi side players othello grid 1).
Proof.
  unfold __init__. fold (empty_grid side).
  destruct (empty_grid_square side) as [Hlen _]. rewrite Hlen.
  replace (Z.of_nat (Z.to_nat side)) with (Z.max 0 side) by lia.
  repeat case_bool_decide; try done; lia.
Qed.

Lemma empty_grid_cells side players othello t pos :
  cell_at (mkReversi side players othello (empty_grid side) t) pos
  = if _in_bounds (mkReversi side players othello (empty_grid side) t) pos
    then Some None else None.
Proof.
  destruct (_in_bounds _ pos) eqn:Hb.
  - destruct (cell_at_square (mkReversi side players othello (empty_grid side) t)
                pos (empty_grid_square side) Hb) as [c Hc].
    rewrite Hc. by apply empty_grid_cell_at in Hc as ->.
  - unfold cell_at. by rewrite Hb.
Qed.

(** When the three checks pass, [__init__] makes the engine: the writes
    of the opening of Othello stay on the board. *)
Lemma init_ok side players othello :
  3 <= side → players mod 2 = side mod 2 → (othello = true → players = 2) →
  ∃ g, __init__ side players othello = Ok (mkReversi side players othello g 1)
       ∧ square side g
       ∧ ∀ pos, cell_at (mkReversi side players othello g 1) pos
                = if _in_bounds (mkReversi side players othello g 1) pos
                  then Some (if othello then othello_seed side pos else None)
                  else None.
Proof.
  intros Hside Hpar Ho. rewrite init_inspect.
  replace (Z.max 0 side) with side by lia.
  rewrite bool_decide_eq_false_2 by (by intros H; apply H).
  rewrite (bool_decide_eq_false_2 (side < 3)) by lia.
  destruct othello; cbn [andb].
  - rewrite Ho by done. rewrite bool_decide_eq_false_2 by (by intros H; apply H).
    rewrite Ho in Hpar by done.
    assert (Heven : side = 2 * (side / 2)).
    { pose proof (Z.div_mod side 2 ltac:(lia)) as Hdm. rewrite <- Hpar in Hdm.
      change (2 mod 2) with 0 in Hdm. lia. }
    set (h := side / 2) in *.
    assert (Hhh : side / 2 = h) by done.
    assert (Hh : 2 <= h) by lia.
    clearbody h.
    set (st g := mkReversi side 2 true g 1).
    pose proof (empty_grid_square side) as Hsq0.
    assert (Hin : ∀ g r c, square side g → 0 <= r < side → 0 <= c < side →
                   is_Some (cell_at (st g) (r, c))).
    { intros g r c Hsq Hr Hc. apply cell_at_square; [done|]. by apply in_bounds_spec. }
    destruct (Hin (empty_grid side) h h) as [o1 Ho1]; [done|lia|lia|].
    destruct (grid_put_spec side 2 true 1 _ _ _ 2 o1 Hsq0 Ho1)
      as (g1 & -> & Hsq1 & Hc1 & _).
    cbn [mbind result_bind].
    destruct (Hin g1 (h - 1) h) as [o2 Ho2]; [done|lia|lia|].
    destruct (grid_put_spec side 2 true 1 _ _ _ 1 o2 Hsq1 Ho2)
      as (g2 & -> & Hsq2 & Hc2 & _).
    cbn [mbind result_bind].
    destruct (Hin g2 (h - 1) (h - 1)) as [o3 Ho3]; [done|lia|lia|].
    destruct (grid_put_spec side 2 true 1 _ _ _ 2 o3 Hsq2 Ho3)
      as (g3 & -> & Hsq3 & Hc3 & _).
    cbn [mbind result_bind].
    destruct (Hin g3 h (h - 1)) as [o4 Ho4]; [done|lia|lia|].
    destruct (grid_put_spec side 2 true 1 _ _ _ 1 o4 Hsq3 Ho4)
      as (g4 & -> & Hsq4 & Hc4 & _).
    cbn [mbind result_bind].
    exists g4. split; [done|]. split; [done|].
    intros pos. rewrite Hc4, Hc3, Hc2, Hc1, empty_grid_cells.
    change (_in_bounds _ pos) with (_in_bounds (st g4) pos).
    unfold othello_seed. rewrite Hhh.
    assert (Hb : ∀ r c, 0 <= r < side → 0 <= c < side →
                 _in_bounds (st g4) (r, c) = true).
    { intros r c Hr Hc. by apply in_bounds_spec. }
    destruct pos as [i j].
    repeat case_decide; try (exfalso; intuition congruence); simplify_eq;
      try (by rewrite Hb by lia); try done;
      exfalso; intuition (simplify_eq; lia).
  - cbn [mbind result_bind]. exists (empty_grid side). split; [done|].
    split; [apply empty_grid_square|]. intros pos. apply empty_grid_cells.
Qed.

(** The three checks of [__init__], in their order. *)
Lemma init_cases side players othello :
  match __init__ side players othello with
  | Ok self =>
      3 <= side ∧ players mod 2 = side mod 2 ∧ (othello = true → players = 2)
  | Raise e =>
      (e = ValueError Msg.parity ∧ players mod 2 ≠ Z.max 0 side mod 2)
      ∨ (e = ValueError Msg.othello_players
         ∧ players mod 2 = Z.max 0 side mod 2 ∧ othello = true ∧ players ≠ 2)
      ∨ (e = ValueError Msg.too_small
         ∧ players mod 2 = Z.max 0 side mod 2
         ∧ (othello = true → players = 2) ∧ side < 3)
  | Fault _ => False
  end.
Proof.
  destruct (decide (players mod 2 = Z.max 0 side mod 2)) as [Hpar|Hpar]; cycle 1.
  { rewrite init_inspect, bool_decide_eq_true_2 by done. by left. }
  destruct (decide (othello = true ∧ players ≠ 2)) as [[-> Hne]|Ho].
  { rewrite init_inspect, bool_decide_eq_false_2 by (by intros H; apply H).
    rewrite (bool_decide_eq_true_2 (players ≠ 2)) by done. right. by left. }
  assert (Ho' : othello = true → players = 2).
  { intros ->. destruct (decide (players = 2)); [done|]. by destruct Ho. }
  destruct (decide (side < 3)) as [Hsmall|Hsmall].
  { rewrite init_inspect, bool_decide_eq_false_2 by (by intros H; apply H).
    replace (othello && bool_decide (players ≠ 2)) with false.
    - rewrite bool_decide_eq_true_2 by done. right. by right.
    - destruct othello; [|done]. rewrite Ho' by done. done. }
  replace (Z.max 0 side) with side in Hpar by lia.
  destruct (init_ok side players othello) as (g & -> & _); [lia|done|done|].
  split; [lia|done].
Qed.

(** X1. [Reversi(side, players, othello)] never ends in an [IndexError]:
    it raises a [ValueError] for the first check that fails, the parity
    of [players] against the number of rows (which is 0 for a negative
    [side]), then two players for Othello, then a side of three or more,
    and makes the engine when the three checks pass. *)
Theorem init_checks side players othello :
  match __init__ side players othello with
  | Ok self =>
      3 <= side ∧ players mod 2 = side mod 2 ∧ (othello = true → players = 2)
  | Raise e =>
      (e = ValueError Msg.parity ∧ players mod 2 ≠ Z.max 0 side mod 2)
      ∨ (e = ValueError Msg.othello_players
         ∧ players mod 2 = Z.max 0 side mod 2 ∧ othello = true ∧ players ≠ 2)
      ∨ (e = ValueError Msg.too_small
         ∧ players mod 2 = Z.max 0 side mod 2
         ∧ (othello = true → players = 2) ∧ side < 3)
  | Fault _ => False
  end.
Proof. apply init_cases. Qed.

Lemma othello_center side pos :
  side mod 2 = 0 →
  in_center (mkReversi side 2 true [] 1) pos →
  othello_seed side pos ≠ None.
Proof.
  intros Heven [H1 H2]. cbn [_side _players] in *.
  assert (Hlo : (side - 2) / 2 = side / 2 - 1).
  { replace (side - 2) with (side + (-1) * 2) by lia.
    rewrite Z.div_add by lia. lia. }
  rewrite Hlo in H1, H2.
  pose proof (Z.div_mod side 2 ltac:(lia)) as Hdm. rewrite Heven in Hdm.
  destruct pos as [i j]. cbn [fst snd] in *.
  unfold othello_seed.
  assert (Hi : i = side / 2 - 1 ∨ i = side / 2) by lia.
  assert (Hj : j = side / 2 - 1 ∨ j = side / 2) by lia.
  repeat case_decide; try done.
  exfalso. destruct Hi as [-> | ->], Hj as [-> | ->]; intuition congruence.
Qed.

(** X2. The engine that [Reversi(side, players, othello)] makes has the
    side, the players and the variant that were given and the turn 1;
    its grid is [side] by [side]; every cell is empty, except that for
    Othello the cells (h, h) and (h - 1, h - 1) hold 2 and the cells
    (h - 1, h) and (h, h - 1) hold 1, with h = side / 2, so that an
    Othello game starts with a full center block; and the engine is a
    game state exactly when 1 <= players <= side. *)
Theorem init_state side players othello self :
  __init__ side players othello = Ok self →
  _side self = side ∧ _players self = players ∧ _othello self = othello
  ∧ _turn self = 1
  ∧ square side (_grid self)
  ∧ (∀ pos, _in_bounds self pos = true →
       cell_at self pos
       = Some (if othello then othello_seed side pos else None))
  ∧ (othello = true → center_full self)
  ∧ (game_state self ↔ 1 <= players <= side).
Proof.
  intros Hinit. pose proof (init_cases side players othello) as Hc.
  rewrite Hinit in Hc. destruct Hc as (Hside & Hpar & Ho).
  destruct (init_ok side players othello Hside Hpar Ho) as (g & Hg & Hsq & Hcells).
  rewrite Hinit in Hg. injection Hg as ->. cbn [_side _players _othello _turn _grid].
  do 5 (split; [done|]). split; [|split].
  - intros pos Hb. by rewrite Hcells, Hb.
  - intros ->. specialize (Ho eq_refl). subst players.
    intros pos Hin.
    assert (Hb : _in_bounds (mkReversi side 2 true g 1) pos = true).
    { apply center_on_board_players; [cbn; lia|done]. }
    rewrite Hcells, Hb.
    pose proof (othello_center side pos ltac:(by rewrite <- Hpar) Hin) as Hne.
    destruct (othello_seed side pos) as [q|]; [by exists q|done].
  - unfold game_state. cbn [_side _players _othello _turn _grid]. split.
    + by intros [? _].
    + intros Hp. split; [done|]. split; [done|]. split; [|lia].
      by destruct (init_inv side players othello _ ltac:(lia) Hinit)
        as (_ & _ & _ & _ & _ & Hlab & _).
Qed.

(** X2, for [Reversi(8, 2, True)]. *)
Lemma init_state_witness :
  _side othello_8 = 8 ∧ _players othello_8 = 2 ∧ _othello othello_8 = true
  ∧ _turn othello_8 = 1
  ∧ square 8 (_grid othello_8)
  ∧ (∀ pos, _in_bounds othello_8 pos = true →
       cell_at othello_8 pos = Some (if true then othello_seed 8 pos else None))
  ∧ (true = true → center_full othello_8)
  ∧ (game_state othello_8 ↔ 1 <= 2 <= 8).
Proof. apply (init_state 8 2 true othello_8). reflexivity. Defined.

(** ** The center block *)

Lemma length_bind_const {A B} (f : A → list B) (l : list A) (n : nat) :
  (∀ x, x ∈ l → length (f x) = n) → length (l ≫= f) = (length l * n)%nat.
Proof.
  induction l as [|x l IH]; intros Hf; [done|].
  rewrite bind_cons, length_app, Hf by left. cbn [length].
  rewrite IH; [lia|]. intros y Hy. apply Hf. by right.
Qed.

Lemma center_pieces_NoDup self : NoDup (_center_pieces self).
Proof.
  unfold _center_pieces, range. apply NoDup_bind; [| |apply NoDup_seqZ].
  - intros i1 i2 [i j] _ _ H1 H2.
    apply list_elem_of_bind in H1 as (j1 & [= -> ->]%list_elem_of_singleton & _).
    apply list_elem_of_bind in H2 as (j2 & [= -> ->]%list_elem_of_singleton & _).
    done.
  - intros i _. apply NoDup_bind; [| |apply NoDup_seqZ].
    + intros j1 j2 [i' j] _ _ [= -> ->]%list_elem_of_singleton
        [= ->]%list_elem_of_singleton. done.
    + intros j _. apply NoDup_singleton.
Qed.

Lemma center_pieces_length self :
  0 <= _players self → _players self mod 2 = _side self mod 2 →
  length (_center_pieces self)
  = Z.to_nat (_players self * _players self).
Proof.
  intros Hp Hpar. unfold _center_pieces, range.
  set (lo := (_side self - _players self) / 2).
  assert (Hlo : _side self - lo - lo = _players self).
  { pose proof (Z.div_mod (_side self - _players self) 2 ltac:(lia)) as Hdm.
    fold lo in Hdm.
    assert ((_side self - _players self) mod 2 = 0); [|lia].
    rewrite Zminus_mod, Hpar, Z.sub_diag. done. }
  rewrite Hlo.
  rewrite (length_bind_const _ _ (Z.to_nat (_players self))).
  - rewrite length_seqZ, Z2Nat.inj_mul by lia. done.
  - intros i _. rewrite (length_bind_const _ _ 1%nat); [|done].
    rewrite length_seqZ. lia.
Qed.

(** X3. The list of [_center_pieces] has no duplicates; its members are
    the positions whose row and column lie in [[lo, side - lo)] with
    lo = (side - players) / 2; it is symmetric about the middle of the
    board; it has players * players squares when [players] is not
    negative and has the parity of [side]; and, with at least one
    player, all of it lies on the board exactly when players <= side. *)
Theorem center_pieces_block self :
  NoDup (_center_pieces self)
  ∧ (∀ pos, pos ∈ _center_pieces self ↔ in_center self pos)
  ∧ (∀ i j, (i, j) ∈ _center_pieces self
            ↔ (_side self - 1 - i, _side self - 1 - j) ∈ _center_pieces self)
  ∧ (0 <= _players self → _players self mod 2 = _side self mod 2 →
     length (_center_pieces self) = Z.to_nat (_players self * _players self))
  ∧ (1 <= _players self →
     (∀ pos, pos ∈ _center_pieces self → _in_bounds self pos = true)
     ↔ _players self <= _side self).
Proof.
  split; [apply center_pieces_NoDup|]. split; [apply elem_of_center_pieces|].
  split; [|split; [apply center_pieces_length|]].
  - intros i j. rewrite !elem_of_center_pieces. unfold in_center. cbn [fst snd]. lia.
  - intros Hp.
    pose proof (Z.div_mod (_side self - _players self) 2 ltac:(lia)) as Hdm.
    pose proof (Z.mod_pos_bound (_side self - _players self) 2 ltac:(lia)) as Hm.
    set (lo := (_side self - _players self) / 2) in *.
    split.
    + intros Hall.
      assert (Hin : in_center self (lo, lo)).
      { unfold in_center. cbn [fst snd]. fold lo. lia. }
      apply elem_of_center_pieces, Hall, in_bounds_spec in Hin. lia.
    + intros Hle [i j] [Hi Hj]%elem_of_center_pieces. cbn [fst snd] in *.
      fold lo in Hi, Hj. apply in_bounds_spec. lia.
Qed.

(** ** [piece_at] *)

(** X4. On a grid that is [side] by [side], [piece_at] answers with the
    cell at a position of the board and raises the [ValueError] of a
    position off the board for every other position; it never ends in
    an [IndexError]. *)
Theorem piece_at_cell self pos :
  square (_side self) (_grid self) →
  match piece_at self pos with
  | Ok c => cell_at self pos = Some c
  | Raise e => e = ValueError Msg.out_of_bounds ∧ cell_at self pos = None
  | Fault _ => False
  end.
Proof.
  intros Hsq. unfold piece_at. destruct (_in_bounds self pos) eqn:Hb; cbn [negb].
  - destruct (cell_at_square self pos Hsq Hb) as [c Hc]. destruct pos as [row col].
    by rewrite (cell_at_grid_get _ _ _ _ Hc).
  - split; [done|]. unfold cell_at. by rewrite Hb.
Qed.

(** X4, at a piece of the opening of Othello. *)
Lemma piece_at_cell_witness :
  match piece_at othello_8 (3, 4) with
  | Ok c => cell_at othello_8 (3, 4) = Some c
  | Raise e => e = ValueError Msg.out_of_bounds ∧ cell_at othello_8 (3, 4) = None
  | Fault _ => False
  end.
Proof.
  apply (piece_at_cell othello_8 (3, 4)).
  apply (bool_decide_unpack _). vm_compute. exact I.
Defined.

(** ** [legal_move] *)

Lemma legal_move_true self pos :
  legal_move self pos = Ok true →
  _in_bounds self pos = true ∧ cell_at self pos = Some None.
Proof.
  unfold legal_move. destruct (_in_bounds self pos) eqn:Hb; cbn [negb]; [|done].
  destruct pos as [row col].
  destruct (grid_get self row col) as [here| |] eqn:Hget; [|done..].
  cbn [mbind result_bind]. case_bool_decide as Hhere; [done|]. intros _.
  split; [done|]. apply grid_get_cell_at; [done|]. rewrite Hget.
  destruct here; [|done]. by destruct Hhere.
Qed.

(** X5. In a game state whose center block is not full while a cell
    outside of it holds a piece (a state that [load_game] can set up),
    [legal_move] uses the capture rule: at a position of the board it
    says yes exactly when the cell is empty and one of the eight rays
    captures; an empty square of the center block without a capture is
    refused. *)
Theorem legal_move_stray_piece self pos :
  game_state self → ¬ center_full self →
  (∃ p q, cell_at self p = Some (Some q) ∧ ¬ in_center self p) →
  _in_bounds self pos = true →
  ∃ b, legal_move self pos = Ok b
       ∧ (b = true ↔
          cell_at self pos = Some None
          ∧ ∃ d, d ∈ directions ∧ ray_captures 1 self (_turn self) pos d).
Proof.
  intros (Hp & Hsq & _ & _) Hnot Hout Hb.
  pose proof (center_on_board_players self ltac:(lia)) as Hon.
  destruct (legal_move_spec self Hsq pos Hon Hb) as (b & Hl & Hiff).
  exists b. split; [done|]. rewrite Hiff. unfold captures_some. split.
  - intros [Hempty [[_ Hc]|(_ & Hno & _)]]; [done|]. by destruct Hno.
  - intros [Hempty Hc]. split; [done|]. left. split; [by right|done].
Qed.

(** ** [available_moves] *)

(** X6. In every game state [available_moves] answers with a list
    without duplicates whose members are exactly the positions at which
    [legal_move] says yes; every one of them is an empty cell of the
    board. *)
Theorem available_moves_legal self :
  game_state self →
  ∃ moves, available_moves self = Ok moves
           ∧ NoDup moves
           ∧ (∀ pos, pos ∈ moves ↔ legal_move self pos = Ok true)
           ∧ (∀ pos, pos ∈ moves → cell_at self pos = Some None).
Proof.
  intros (Hp & Hsq & _ & _).
  pose proof (center_on_board_players self ltac:(lia)) as Hon.
  destruct (available_moves_spec self Hsq Hon) as (moves & Hm & Hnd & Hiff).
  exists moves. split; [done|]. split; [done|].
  assert (Hlegal : ∀ pos, pos ∈ moves ↔ legal_move self pos = Ok true).
  { intros pos. rewrite Hiff. split; [by intros [_ ?]|].
    intros Hl. split; [|done]. by apply legal_move_true in Hl as [? _]. }
  split; [done|]. intros pos Hpos%Hlegal. by apply legal_move_true in Hpos as [_ ?].
Qed.

(** X6, at the opening of Othello. *)
Lemma available_moves_legal_witness :
  ∃ moves, available_moves othello_8 = Ok moves
           ∧ NoDup moves
           ∧ (∀ pos, pos ∈ moves ↔ legal_move othello_8 pos = Ok true)
           ∧ (∀ pos, pos ∈ moves → cell_at othello_8 pos = Some None).
Proof.
  apply (available_moves_legal othello_8).
  apply (bool_decide_unpack _). vm_compute. exact I.
Defined.


(** ** What a move turns over *)

Lemma ahead_ne pos d k : d ∈ directions → k ≠ 0 → ahead pos d k ≠ pos.
Proof.
  intros Hd Hk. destruct pos as [r c]. each_direction Hd;
    unfold ahead; cbn [fst snd]; intros [= ]; lia.
Qed.

Lemma ahead_disjoint pos d d' k k' :
  d ∈ directions → d' ∈ directions → 1 <= k → 1 <= k' →
  ahead pos d k = ahead pos d' k' → d = d'.
Proof.
  intros Hd Hd' Hk Hk'. destruct pos as [r c].
  each_direction Hd; each_direction Hd'; unfold ahead; cbn [fst snd];
    intros [= ]; first [done | lia].
Qed.

Lemma directions_NoDup : NoDup directions.
Proof. apply (bool_decide_unpack _). vm_compute. exact I. Qed.

Section exact.
Context (side players : Z) (othello : bool) (t : Z).

Local Abbreviation state g := (mkReversi side players othello g t).
Local Abbreviation bracket := (bracket side players othello t).
Local Abbreviation captured_in := (captured_in side players othello t).

Lemma flip_loop_exact pos rs cs fuel : ∀ j m g r c,
  (rs, cs) ∈ directions →
  square side g → bracket pos rs cs g j m → m - j <= Z.of_nat fuel →
  ahead pos (rs, cs) j = (r, c) →
  ∃ g', flip_loop fuel rs cs r c (state g) = (Ok tt, state g')
        ∧ square side g'
        ∧ (∀ k, j <= k < m →
             cell_at (state g') (ahead pos (rs, cs) k) = Some (Some t))
        ∧ (∀ p, (∀ k, j <= k < m → p ≠ ahead pos (rs, cs) k) →
             cell_at (state g') p = cell_at (state g) p).
Proof.
  induction fuel as [|fuel IH];
    intros j m g r c Hd Hsq (Hjm & Hfor & Hland) Hfuel Hj.
  - assert (m = j) as -> by lia. rewrite Hj in Hland.
    cbn [flip_loop]. unfold mbind at 1, M_bind at 1. cbn [get].
    unfold mbind at 1, M_bind at 1, lift.
    rewrite (cell_at_grid_get _ _ _ _ Hland). cbn [_turn].
    rewrite bool_decide_eq_false_2 by (by intros H; apply H).
    exists g. split; [done|]. split; [done|]. split; [intros; lia|done].
  - cbn [flip_loop]. unfold mbind at 1, M_bind at 1. cbn [get].
    unfold mbind at 1, M_bind at 1, lift.
    destruct (decide (m = j)) as [->|Hne].
    + rewrite Hj in Hland.
      rewrite (cell_at_grid_get _ _ _ _ Hland). cbn [_turn].
      rewrite bool_decide_eq_false_2 by (by intros H; apply H).
      exists g. split; [done|]. split; [done|]. split; [intros; lia|done].
    + destruct (Hfor j) as (q & Hq & Hqt); [lia|]. rewrite Hj in Hq.
      rewrite (cell_at_grid_get _ _ _ _ Hq). cbn [_turn].
      rewrite bool_decide_eq_true_2 by (by intros [= ->]).
      unfold mbind at 1, M_bind at 1.
      destruct (grid_set_spec side players othello t g r c t (Some q) Hsq Hq)
        as (g1 & -> & Hsq1 & Hcells & Hocc).
      assert (Hother : ∀ k, k ≠ j →
                cell_at (state g1) (ahead pos (rs, cs) k)
                = cell_at (state g) (ahead pos (rs, cs) k)).
      { intros k Hk. rewrite Hcells, decide_False; [done|].
        rewrite <- Hj. intros Heq. by apply ahead_inj in Heq. }
      destruct (IH (j + 1) m g1 (r + rs) (c + cs))
        as (g' & -> & Hsq' & Hseg & Hrest).
      * done.
      * done.
      * split; [lia|]. split.
        -- intros k Hk. destruct (Hfor k) as (q' & Hq' & Hne'); [lia|].
           exists q'. split; [|done]. rewrite Hother by lia. done.
        -- rewrite Hother by lia. done.
      * lia.
      * by apply ahead_succ.
      * exists g'. split; [done|]. split; [done|]. split.
        -- intros k Hk. destruct (decide (k = j)) as [->|Hkj]; [|apply Hseg; lia].
           rewrite Hrest.
           ++ by rewrite Hj, Hcells, decide_True.
           ++ intros k' Hk' Heq. apply ahead_inj in Heq; [lia|done].
        -- intros p Hp. rewrite Hrest by (intros k Hk; apply Hp; lia).
           rewrite Hcells, decide_False; [done|]. rewrite <- Hj. apply Hp. lia.
Qed.

Lemma flip_direction_exact pos rs cs g m :
  (rs, cs) ∈ directions → square side g → bracket pos rs cs g 1 m →
  ∃ g', flip_direction pos (rs, cs) (state g) = (Ok tt, state g')
        ∧ square side g'
        ∧ (∀ k, 1 <= k < m →
             cell_at (state g') (ahead pos (rs, cs) k) = Some (Some t))
        ∧ (∀ p, (∀ k, 1 <= k < m → p ≠ ahead pos (rs, cs) k) →
             cell_at (state g') p = cell_at (state g) p).
Proof.
  intros Hd Hsq Hm.
  pose proof (bracket_near side players othello t pos rs cs Hd g m Hm) as Hnear.
  unfold flip_direction. destruct pos as [row col] eqn:Ep.
  rewrite <- Ep in *.
  unfold mbind at 1, M_bind at 1. cbn [get _side].
  destruct (flip_loop_exact pos rs cs (Z.to_nat side) 1 m g (row + rs) (col + cs))
    as (g' & -> & Hg'); [done|done|done|lia| |].
  { rewrite ahead_1. by rewrite Ep. }
  exists g'. done.
Qed.

(** The cells of a ray are those of the grid before, when only cells of
    other rays were written. *)
Lemma bracket_other pos rs cs g g' m :
  (∀ k, 1 <= k →
     cell_at (state g') (ahead pos (rs, cs) k)
     = cell_at (state g) (ahead pos (rs, cs) k)) →
  bracket pos rs cs g 1 m → bracket pos rs cs g' 1 m.
Proof.
  intros Hsame (Hm & Hfor & Hland). split; [done|]. split.
  - intros k Hk. destruct (Hfor k Hk) as (q & Hq & Hne). exists q.
    split; [|done]. rewrite Hsame by lia. done.
  - rewrite Hsame by lia. done.
Qed.

Lemma captures_bracket pos rs cs g :
  ray_captures 1 (state g) t pos (rs, cs) ↔ ∃ m, 1 < m ∧ bracket pos rs cs g 1 m.
Proof.
  split.
  - intros (n & Hn & Hfor & Hland). exists (Z.of_nat n + 1). split; [lia|].
    split; [lia|]. split; [|done]. intros k Hk. apply Hfor. lia.
  - intros (m & Hm & _ & Hfor & Hland). exists (Z.to_nat (m - 1)).
    split; [lia|]. split.
    + intros k Hk. apply Hfor. lia.
    + by replace (Z.of_nat (Z.to_nat (m - 1)) + 1) with m by lia.
Qed.

Lemma flip_directions_exact pos dirs : ∀ g,
  square side g → NoDup dirs →
  (∀ d, d ∈ dirs → d ∈ directions ∧ ∃ m, bracket pos d.1 d.2 g 1 m) →
  ∃ g', forM_ (flip_direction pos) dirs (state g) = (Ok tt, state g')
        ∧ square side g'
        ∧ (∀ p, captured_in pos g dirs p → cell_at (state g') p = Some (Some t))
        ∧ (∀ p, ¬ captured_in pos g dirs p →
             cell_at (state g') p = cell_at (state g) p).
Proof.
  induction dirs as [|[rs cs] dirs IH]; intros g Hsq Hnd Hdirs.
  - exists g. split; [done|]. split; [done|]. split; [|done].
    intros p (d & k & m & Hd & _). by apply elem_of_nil in Hd.
  - apply NoDup_cons in Hnd as [Hnotin Hnd].
    cbn [forM_]. unfold mbind at 1, M_bind at 1.
    destruct (Hdirs (rs, cs)) as [Hd [m Hm]]; [by left|]. cbn [fst snd] in Hm.
    destruct (flip_direction_exact pos rs cs g m Hd Hsq Hm)
      as (g1 & -> & Hsq1 & Hseg1 & Hrest1).
    assert (Hrays : ∀ d, d ∈ dirs → ∀ k, 1 <= k →
              cell_at (state g1) (ahead pos d k) = cell_at (state g) (ahead pos d k)).
    { intros d Hin k Hk. apply Hrest1. intros k' Hk' Heq.
      apply ahead_disjoint in Heq; [|by apply Hdirs; right|done|lia..].
      subst d. done. }
    assert (Hin1 : ∀ p, captured_in pos g1 dirs p ↔ captured_in pos g dirs p).
    { intros p. split; intros (d & k & m' & Hin & Hk & Hp & Hb);
        exists d, k, m'; (split; [done|]); (split; [done|]); (split; [done|]);
        destruct d as [rs' cs']; cbn [fst snd] in *.
      - apply (bracket_other pos rs' cs' g1 g); [|done].
        intros j Hj. symmetry. by apply (Hrays (rs', cs')).
      - apply (bracket_other pos rs' cs' g g1); [|done].
        intros j Hj. by apply (Hrays (rs', cs')). }
    destruct (IH g1 Hsq1 Hnd) as (g' & -> & Hsq' & Hseg & Hrest).
    { intros [rs' cs'] Hin. destruct (Hdirs (rs', cs')) as [Hd' [m' Hm']]; [by right|].
      split; [done|]. exists m'. cbn [fst snd] in *.
      apply (bracket_other pos rs' cs' g g1); [|done].
      intros j Hj. by apply (Hrays (rs', cs')). }
    exists g'. split; [done|]. split; [done|]. split.
    + intros p (d & k & m' & [->|Hin]%elem_of_cons & Hk & Hp & Hb).
      * cbn [fst snd] in Hb.
        assert (m' = m) as ->.
        { destruct Hb as (Hm1' & Hfor' & Hland'), Hm as (Hm1 & Hfor & Hland).
          destruct (Z.lt_trichotomy m' m) as [Hlt|[->|Hgt]]; [|done|].
          - destruct (Hfor m') as (q & Hq & Hne); [lia|].
            rewrite Hland' in Hq. by injection Hq as <-.
          - destruct (Hfor' m) as (q & Hq & Hne); [lia|].
            rewrite Hland in Hq. by injection Hq as <-. }
        rewrite Hrest.
        -- subst p. by apply Hseg1.
        -- intros (d' & k' & m' & Hin' & Hk' & Hp' & _). subst p.
           apply ahead_disjoint in Hp'; [|done|by apply Hdirs; right|lia..].
           by subst d'.
      * apply Hseg, Hin1. by exists d, k, m'.
    + intros p Hnot. rewrite Hrest, Hrest1; [done| |].
      * intros k Hk ->. apply Hnot. exists (rs, cs), k, m.
        split; [by left|]. done.
      * intros (d & k & m' & Hin & Hrest')%Hin1. apply Hnot.
        exists d, k, m'. split; [by right|done].
Qed.

Lemma retrace_directions_exact pos g :
  square side g →
  ∃ dirs, retrace_directions pos (state g) = Ok dirs
          ∧ NoDup dirs
          ∧ ∀ d, d ∈ dirs ↔ d ∈ directions ∧ ray_captures 1 (state g) t pos d.
Proof.
  intros Hsq. unfold retrace_directions.
  assert (Hgen : ∀ ds acc, (∀ d, d ∈ ds → d ∈ directions) →
            NoDup (acc ++ ds) →
            ∃ dirs,
              foldM (fun retrace_dir direction =>
                       origin_loc ← _check_direction (state g) (_turn (state g))
                                      pos direction;
                       Ok (if bool_decide (origin_loc ≠ None)
                           then retrace_dir ++ [direction] else retrace_dir))
                    acc ds = Ok dirs
              ∧ NoDup dirs
              ∧ ∀ d, d ∈ dirs
                     ↔ d ∈ acc ∨ (d ∈ ds ∧ ray_captures 1 (state g) t pos d)).
  { induction ds as [|[rs cs] ds IH]; intros acc Hds Hnd.
    - exists acc. split; [done|]. rewrite app_nil_r in Hnd. split; [done|].
      intros d. split; [by left|]. intros [?|[H _]]; [done|].
      by apply elem_of_nil in H.
    - cbn [foldM].
      destruct (check_direction_spec (state g) t pos rs cs Hsq) as (o & Ho & Hcap).
      { apply Hds. by left. }
      cbn [_turn]. rewrite Ho. cbn [mbind result_bind].
      case_bool_decide as Hnone.
      + destruct (IH (acc ++ [(rs, cs)])) as (dirs & Hfold & Hnd' & Hiff).
        { intros d Hd. apply Hds. by right. }
        { by rewrite <- app_assoc. }
        exists dirs. split; [exact Hfold|]. split; [done|]. intros d. rewrite Hiff.
        rewrite elem_of_app, list_elem_of_singleton, elem_of_cons.
        apply Hcap in Hnone. split.
        * intros [[Ha | ->]|[Hin Hc]].
          -- by left.
          -- right. split; [by left|done].
          -- right. split; [by right|done].
        * intros [Ha|[[-> | Hin] Hc]].
          -- left. by left.
          -- left. by right.
          -- by right.
      + destruct (IH acc) as (dirs & Hfold & Hnd' & Hiff).
        { intros d Hd. apply Hds. by right. }
        { apply NoDup_app in Hnd as (Ha & Hdis & Hb).
          apply NoDup_cons in Hb as [_ Hb]. apply NoDup_app.
          split; [done|]. split; [|done]. intros x Hx Hx'.
          apply (Hdis x Hx). by right. }
        exists dirs. split; [exact Hfold|]. split; [done|]. intros d. rewrite Hiff.
        rewrite elem_of_cons. split.
        * intros [Ha|[Hin Hc]]; [by left|right]. split; [by right|done].
        * intros [Ha|[[-> | Hin] Hc]]; [by left| |by right].
          apply Hcap in Hc. done. }
  destruct (Hgen directions []) as (dirs & Hdirs & Hnd & Hiff);
    [done|apply directions_NoDup|].
  exists dirs. split; [done|]. split; [done|]. intros d. rewrite Hiff.
  split; [|by right]. intros [H|?]; [|done]. by apply elem_of_nil in H.
Qed.

Lemma captured_in_captured pos g g1 dirs :
  (∀ d, d ∈ dirs ↔ d ∈ directions ∧ ray_captures 1 (state g1) t pos d) →
  (∀ p, p ≠ pos → cell_at (state g1) p = cell_at (state g) p) →
  ∀ p, captured_in pos g1 dirs p ↔ captured (state g) t pos p.
Proof.
  intros Hdirs Hsame p.
  assert (Hray : ∀ d k, d ∈ directions → 1 <= k →
            cell_at (state g1) (ahead pos d k) = cell_at (state g) (ahead pos d k)).
  { intros d k Hd Hk. apply Hsame, ahead_ne; [done|lia]. }
  split.
  - intros ([rs cs] & k & m & Hin & Hk & Hp & Hb). cbn [fst snd] in Hb.
    apply Hdirs in Hin as [Hd _].
    apply (bracket_other pos rs cs g1 g) in Hb as (_ & Hfor & Hland).
    + exists (rs, cs), k, m. done.
    + intros j Hj. symmetry. by apply Hray.
  - intros ([rs cs] & k & m & Hd & Hk & Hp & Hfor & Hland).
    assert (Hb : bracket pos rs cs g1 1 m).
    { apply (bracket_other pos rs cs g g1); [intros j Hj; by apply Hray|].
      split; [lia|]. done. }
    exists (rs, cs), k, m. split; [|done]. apply Hdirs. split; [done|].
    apply captures_bracket. exists m. split; [lia|done].
Qed.

(** The writes of [apply_move]: the piece is placed, the captured cells
    go to the mover, and nothing else changes; a piece placed in the
    center block of a game that is not Othello captures nothing. *)
Lemma place_exact pos g :
  square side g → _in_bounds (state g) pos = true →
  ∃ g', place pos (state g) = (Ok tt, state g')
        ∧ square side g'
        ∧ cell_at (state g') pos = Some (Some t)
        ∧ (∀ p, p ≠ pos →
             (othello = true ∨ ¬ in_center (state g) pos) →
             captured (state g) t pos p →
             cell_at (state g') p = Some (Some t))
        ∧ (∀ p, p ≠ pos →
             (othello = false ∧ in_center (state g) pos)
             ∨ ¬ captured (state g) t pos p →
             cell_at (state g') p = cell_at (state g) p).
Proof.
  intros Hsq Hb. destruct pos as [row col].
  destruct (cell_at_square (state g) _ Hsq Hb) as [old Hold].
  destruct (grid_set_spec side players othello t g row col t old Hsq Hold)
    as (g1 & Hset & Hsq1 & Hcells & Hocc).
  unfold place. unfold mbind at 1, M_bind at 1. cbn [get _othello _turn].
  destruct (negb othello && bool_decide ((row, col) ∈ _center_pieces (state g)))
    eqn:Hbranch.
  - apply andb_true_iff in Hbranch as [Ho Hc%bool_decide_eq_true].
    apply elem_of_center_pieces in Hc. destruct othello; [done|].
    exists g1. split; [done|]. split; [done|].
    split; [by rewrite Hcells, decide_True|]. split.
    + intros p _ [[=]|Hout]. done.
    + intros p Hp _. by rewrite Hcells, decide_False.
  - assert (Hflip : othello = true ∨ ¬ in_center (state g) (row, col)).
    { apply andb_false_iff in Hbranch as [Ho|Hc].
      - left. by destruct othello.
      - right. apply bool_decide_eq_false in Hc.
        by rewrite elem_of_center_pieces in Hc. }
    unfold mbind at 1, M_bind at 1. rewrite Hset.
    unfold mbind at 1, M_bind at 1, read.
    destruct (retrace_directions_exact (row, col) g1 Hsq1)
      as (dirs & -> & Hnd & Hdirs).
    destruct (flip_directions_exact (row, col) dirs g1 Hsq1 Hnd)
      as (g' & -> & Hsq' & Hseg & Hrest).
    { intros [rs cs] [Hd Hc]%Hdirs. split; [done|].
      apply captures_bracket in Hc as (m & _ & Hm). by exists m. }
    pose proof (captured_in_captured (row, col) g g1 dirs Hdirs) as Hcap.
    assert (Hsame : ∀ p, p ≠ (row, col) →
              cell_at (state g1) p = cell_at (state g) p).
    { intros p Hp. by rewrite Hcells, decide_False. }
    specialize (Hcap Hsame).
    exists g'. split; [done|]. split; [done|]. split; [|split].
    + rewrite Hrest; [by rewrite Hcells, decide_True|].
      intros (d & k & m & Hin & Hk & Hp & _). apply Hdirs in Hin as [Hd _].
      symmetry in Hp. apply ahead_ne in Hp; [done|done|lia].
    + intros p Hp _ Hc. by apply Hseg, Hcap.
    + intros p Hp [[-> Hin]|Hnot].
      * by destruct Hflip.
      * rewrite Hrest; [by apply Hsame|]. by rewrite Hcap.
Qed.
End exact.

(** [apply_move] is [place], then the turn. *)
Lemma apply_move_place side players othello g t pos :
  let self := mkReversi side players othello g t in
  square side g → 1 <= players <= side → 1 <= t <= players →
  _in_bounds self pos = true →
  ∃ g' t',
    place pos self = (Ok tt, mkReversi side players othello g' t)
    ∧ apply_move pos self = (Ok tt, mkReversi side players othello g' t').
Proof.
  intros self Hsq Hp Ht Hb. subst self.
  destruct (place_exact side players othello t pos g Hsq Hb)
    as (g' & Hplace & Hsq' & _).
  unfold apply_move. unfold mbind at 1, M_bind at 1. cbn [get].
  rewrite Hb. cbn [negb].
  unfold place in Hplace. unfold mbind at 1, M_bind at 1 in Hplace.
  cbn [get] in Hplace. destruct pos as [row col].
  unfold mbind at 1, M_bind at 1. rewrite Hplace.
  unfold mbind at 1, M_bind at 1.
  rewrite next_turn_spec by (cbn; lia).
  unfold mbind at 1, M_bind at 1. cbn [get with_turn _side _players _othello _grid _turn].
  destruct (skip_loop_players g' side players othello Hsq' Hp
              (following players t)) as (k & Hk & _).
  { apply following_range; lia. }
  exists g', (Nat.iter k (following players) (following players t)).
  split; [|exact Hk].
  unfold place. unfold mbind at 1, M_bind at 1. cbn [get]. exact Hplace.
Qed.

Lemma apply_move_exact self pos :
  game_state self → _in_bounds self pos = true →
  ∃ self',
    apply_move pos self = (Ok tt, self')
    ∧ cell_at self' pos = Some (Some (_turn self))
    ∧ (∀ p, p ≠ pos →
         (_othello self = true ∨ ¬ in_center self pos) →
         captured self (_turn self) pos p →
         cell_at self' p = Some (Some (_turn self)))
    ∧ (∀ p, p ≠ pos →
         (_othello self = false ∧ in_center self pos)
         ∨ ¬ captured self (_turn self) pos p →
         cell_at self' p = cell_at self p).
Proof.
  destruct self as [side players othello g t].
  intros (Hp & Hsq & _ & Ht) Hb. cbn [_side _players _grid _turn _othello] in *.
  destruct (apply_move_place side players othello g t pos Hsq Hp Ht Hb)
    as (g' & t' & Hplace & Happ).
  destruct (place_exact side players othello t pos g Hsq Hb)
    as (g'' & Hplace' & _ & Hpos & Hcap & Hrest).
  rewrite Hplace in Hplace'. injection Hplace' as <-.
  eexists. split; [exact Happ|].
  change (cell_at (mkReversi side players othello g' t'))
    with (cell_at (mkReversi side players othello g' t)).
  done.
Qed.

Lemma game_state_inv self :
  game_state self →
  inv (_side self) (_players self) (_othello self) (Z.to_nat (_side self))
    (Some (Z.to_nat (_side self))) self.
Proof. intros (Hp & [Hlen Hrows] & Hlab & Ht). done. Qed.

Lemma inv_game_state side players othello s :
  players <= side →
  inv side players othello (Z.to_nat side) (Some (Z.to_nat side)) s →
  game_state s.
Proof.
  intros Hp (Hside & Hplayers & _ & Hlen & Hrows & Hlab & Ht).
  unfold game_state, square. rewrite Hside, Hplayers.
  split; [lia|]. done.
Qed.

Lemma apply_move_game_state self pos :
  game_state self → game_state (apply_move pos self).2.
Proof.
  intros Hgs. pose proof Hgs as (Hp & _).
  eapply inv_game_state; [|apply keeps_apply_move; [|by apply game_state_inv]]; lia.
Qed.

(** [apply_move] raises for a position off the board only, and leaves
    the engine as it was then; it ends within the bounds of its loops. *)
Lemma apply_move_total_lemma self pos :
  game_state self →
  match apply_move pos self with
  | (Ok _, self') => _in_bounds self pos = true ∧ game_state self'
  | (Raise e, self') =>
      e = ValueError Msg.out_of_bounds ∧ _in_bounds self pos = false
      ∧ self' = self
  | (Fault _, _) => False
  end.
Proof.
  intros Hgs. pose proof (apply_move_game_state self pos Hgs) as Hafter.
  destruct (_in_bounds self pos) eqn:Hb.
  - destruct self as [side players othello g t].
    destruct Hgs as (Hp & Hsq & _ & Ht). cbn [_side _players _grid _turn] in *.
    destruct (apply_move_spec side players othello g t pos Hsq Hp Ht Hb)
      as (g' & k & Happ & _).
    cbn zeta in Happ. rewrite Happ in Hafter |- *. done.
  - unfold apply_move. unfold mbind at 1, M_bind at 1. cbn [get].
    rewrite Hb. done.
Qed.

(** X7. In every game state [apply_move] ends within the bounds of its
    loops and raises no [IndexError]: for a position off the board it
    raises the [ValueError] of [apply_move] and leaves the engine as it
    was; for a position of the board it returns, and the engine is a
    game state again. *)
Theorem apply_move_total self pos :
  game_state self →
  match apply_move pos self with
  | (Ok _, self') => _in_bounds self pos = true ∧ game_state self'
  | (Raise e, self') =>
      e = ValueError Msg.out_of_bounds ∧ _in_bounds self pos = false
      ∧ self' = self
  | (Fault _, _) => False
  end.
Proof. apply apply_move_total_lemma. Qed.

(** X7, for the first move of a game of Othello. *)
Lemma apply_move_total_witness :
  match apply_move (2, 3) othello_8 with
  | (Ok _, self') => _in_bounds othello_8 (2, 3) = true ∧ game_state self'
  | (Raise e, self') =>
      e = ValueError Msg.out_of_bounds ∧ _in_bounds othello_8 (2, 3) = false
      ∧ self' = othello_8
  | (Fault _, _) => False
  end.
Proof.
  apply (apply_move_total othello_8 (2, 3)).
  apply (bool_decide_unpack _). vm_compute. exact I.
Defined.

(** X8. [apply_move] does not ask whether the cell is empty: at an
    occupied cell of the board of a game state it returns, the cell
    holds a piece of the player to move afterwards, and the number of
    occupied cells is what it was. *)
Theorem apply_move_occupied self pos q :
  game_state self → cell_at self pos = Some (Some q) →
  ∃ self',
    apply_move pos self = (Ok tt, self')
    ∧ cell_at self' pos = Some (Some (_turn self))
    ∧ occupied (_grid self') = occupied (_grid self).
Proof.
  destruct self as [side players othello g t].
  intros (Hp & Hsq & _ & Ht) Hq. cbn [_side _players _grid _turn] in *.
  pose proof (cell_at_in_bounds _ _ _ Hq) as Hb.
  destruct (apply_move_spec side players othello g t pos Hsq Hp Ht Hb)
    as (g' & k & Happ & (Hsq' & Hpos & Hocc & Hcells) & _).
  cbn zeta in Happ. eexists. split; [exact Happ|]. cbn [_grid].
  change (cell_at (mkReversi side players othello g' ?x))
    with (cell_at (mkReversi side players othello g' t)).
  split; [done|]. rewrite (Hocc _ Hq). lia.
Qed.

(** X8, on a piece of player 2 at the opening of Othello. *)
Lemma apply_move_occupied_witness :
  ∃ self',
    apply_move (3, 3) othello_8 = (Ok tt, self')
    ∧ cell_at self' (3, 3) = Some (Some (_turn othello_8))
    ∧ occupied (_grid self') = occupied (_grid othello_8).
Proof.
  apply (apply_move_occupied othello_8 (3, 3) 2).
  - apply (bool_decide_unpack _). vm_compute. exact I.
  - reflexivity.
Defined.

(** X9. In a game state, a move at a position of the board, in an
    Othello game or outside the center block, turns over exactly the
    captured cells: the cell of the move holds the mover's label; a
    cell on one of the eight rays from the move, among cells of other
    players that are followed by a cell of the mover, holds the mover's
    label; every other cell is what it was. *)
Theorem apply_move_captures self pos :
  game_state self → _in_bounds self pos = true →
  _othello self = true ∨ ¬ in_center self pos →
  ∃ self',
    apply_move pos self = (Ok tt, self')
    ∧ cell_at self' pos = Some (Some (_turn self))
    ∧ (∀ p, p ≠ pos → captured self (_turn self) pos p →
         cell_at self' p = Some (Some (_turn self)))
    ∧ (∀ p, p ≠ pos → ¬ captured self (_turn self) pos p →
         cell_at self' p = cell_at self p).
Proof.
  intros Hgs Hb Hflip.
  destruct (apply_move_exact self pos Hgs Hb) as (self' & Happ & Hpos & Hcap & Hrest).
  exists self'. split; [done|]. split; [done|]. split.
  - intros p Hp Hc. by apply Hcap.
  - intros p Hp Hc. apply Hrest; [done|]. by right.
Qed.

(** X9, for the move (4, 5) at the opening of Othello. *)
Lemma apply_move_captures_witness :
  ∃ self',
    apply_move (4, 5) othello_8 = (Ok tt, self')
    ∧ cell_at self' (4, 5) = Some (Some (_turn othello_8))
    ∧ (∀ p, p ≠ (4, 5) → captured othello_8 (_turn othello_8) (4, 5) p →
         cell_at self' p = Some (Some (_turn othello_8)))
    ∧ (∀ p, p ≠ (4, 5) → ¬ captured othello_8 (_turn othello_8) (4, 5) p →
         cell_at self' p = cell_at othello_8 p).
Proof.
  apply (apply_move_captures othello_8 (4, 5)).
  - apply (bool_decide_unpack _). vm_compute. exact I.
  - reflexivity.
  - by left.
Defined.

(** X10. In a game state of a game that is not Othello, a move in the
    center block only places the piece: every other cell is what it
    was, also when a ray from the move would capture. *)
Theorem apply_move_center self pos :
  game_state self → _othello self = false → in_center self pos →
  ∃ self',
    apply_move pos self = (Ok tt, self')
    ∧ cell_at self' pos = Some (Some (_turn self))
    ∧ ∀ p, p ≠ pos → cell_at self' p = cell_at self p.
Proof.
  intros Hgs Ho Hin.
  assert (Hb : _in_bounds self pos = true).
  { apply center_on_board_players; [|done]. destruct Hgs as (? & _). lia. }
  destruct (apply_move_exact self pos Hgs Hb) as (self' & Happ & Hpos & Hcap & Hrest).
  exists self'. split; [done|]. split; [done|].
  intros p Hp. apply Hrest; [done|]. by left.
Qed.

(** X10, on the empty board of [Reversi(4, 2, False)]. *)
Lemma apply_move_center_witness :
  ∃ self',
    apply_move (1, 2) empty_4 = (Ok tt, self')
    ∧ cell_at self' (1, 2) = Some (Some (_turn empty_4))
    ∧ ∀ p, p ≠ (1, 2) → cell_at self' p = cell_at empty_4 p.
Proof.
  apply (apply_move_center empty_4 (1, 2)).
  - apply (bool_decide_unpack _). vm_compute. exact I.
  - reflexivity.
  - apply (bool_decide_unpack _). vm_compute. exact I.
Defined.

(** X11. In a game state whose center block is full, a move at which
    [legal_move] says yes turns over at least one piece: some cell
    other than that of the move held a piece of another player and
    holds a piece of the mover afterwards. *)
Theorem legal_move_turns_over self pos :
  game_state self → center_full self → legal_move self pos = Ok true →
  ∃ self' p q,
    apply_move pos self = (Ok tt, self')
    ∧ p ≠ pos ∧ q ≠ _turn self
    ∧ cell_at self p = Some (Some q)
    ∧ cell_at self' p = Some (Some (_turn self)).
Proof.
  intros Hgs Hfull Hlegal. pose proof Hgs as (Hp & Hsq & _ & _).
  destruct (legal_move_true self pos Hlegal) as [Hb Hempty].
  destruct (legal_move_spec self Hsq pos (center_full_on_board _ Hfull) Hb)
    as (b & Hl & Hiff).
  rewrite Hlegal in Hl. injection Hl as <-.
  destruct (proj1 Hiff eq_refl) as [_ [[_ Hc]|[Hnot _]]]; [|by destruct Hnot].
  destruct Hc as ([rs cs] & Hd & n & Hn & Hfor & Hland).
  destruct (apply_move_exact self pos Hgs Hb) as (self' & Happ & Hpos & Hcap & Hrest).
  destruct (Hfor 1) as (q & Hq & Hne); [lia|].
  assert (Hp1 : ahead pos (rs, cs) 1 ≠ pos) by (by apply ahead_ne).
  exists self', (ahead pos (rs, cs) 1), q. split; [done|]. split; [done|].
  split; [done|]. split; [done|]. apply Hcap; [done| |].
  - right. intros Hin. destruct (Hfull pos Hin) as [q' Hq'].
    rewrite Hempty in Hq'. done.
  - exists (rs, cs), 1, (Z.of_nat n + 1). split; [done|]. split; [lia|].
    split; [done|]. split; [|done]. intros j Hj. apply Hfor. lia.
Qed.

(** X11, for the move (2, 3) at the opening of Othello. *)
Lemma legal_move_turns_over_witness :
  ∃ self' p q,
    apply_move (2, 3) othello_8 = (Ok tt, self')
    ∧ p ≠ (2, 3) ∧ q ≠ _turn othello_8
    ∧ cell_at othello_8 p = Some (Some q)
    ∧ cell_at self' p = Some (Some (_turn othello_8)).
Proof.
  apply (legal_move_turns_over othello_8 (2, 3)).
  - apply (bool_decide_unpack _). vm_compute. exact I.
  - exact othello_8_center_full.
  - reflexivity.
Defined.

Lemma stray_4_not_full : ¬ center_full stray_4.
Proof.
  intros Hfull. destruct (Hfull (1, 1)) as [q Hq]; [|discriminate Hq].
  repeat split; by vm_compute.
Qed.

(** X5, at the corner of a board with a piece outside the open center
    block. *)
Lemma legal_move_stray_piece_witness :
  ∃ b, legal_move stray_4 (0, 0) = Ok b
       ∧ (b = true ↔
          cell_at stray_4 (0, 0) = Some None
          ∧ ∃ d, d ∈ directions
                 ∧ ray_captures 1 stray_4 (_turn stray_4) (0, 0) d).
Proof.
  apply (legal_move_stray_piece stray_4 (0, 0)).
  - apply (bool_decide_unpack _). vm_compute. exact I.
  - exact stray_4_not_full.
  - exists (0, 1), 2. split; [reflexivity|].
    intros [[H _] _]. vm_compute in H. by apply H.
  - reflexivity.
Defined.

(** With a piece outside the open center block, the corner captures and
    the squares of the center block are no moves. *)
Example stray_4_moves :
  legal_move stray_4 (0, 0) = Ok true
  ∧ available_moves stray_4 = Ok [(0, 0)].
Proof. split; reflexivity. Qed.

(** ** [done] and [outcome] *)

Lemma cell_at_with_turn t self pos : cell_at (with_turn t self) pos = cell_at self pos.
Proof. done. Qed.

Lemma full_no_moves self player :
  square (_side self) (_grid self) → _players self <= _side self →
  (∀ pos, _in_bounds self pos = true → ∃ q, cell_at self pos = Some (Some q)) →
  moves_of self player = Ok [].
Proof.
  intros Hsq Hp Hfull. unfold moves_of.
  destruct (available_moves_spec (with_turn player self) Hsq
              (center_on_board_players (with_turn player self) Hp))
    as (moves & Hm & _ & Hiff).
  rewrite Hm. f_equal. destruct moves as [|pos moves]; [done|]. exfalso.
  destruct (proj1 (Hiff pos) ltac:(by left)) as [Hb Hl].
  apply legal_move_true in Hl as [_ Hempty].
  destruct (Hfull pos Hb) as [q Hq]. rewrite cell_at_with_turn, Hq in Hempty. done.
Qed.

(** X12. In a game state without an empty cell the game is over:
    [done] says yes, and leaves the engine as it was. *)
Theorem done_full_board self :
  game_state self →
  (∀ pos, _in_bounds self pos = true → ∃ q, cell_at self pos = Some (Some q)) →
  done self = (Ok true, self).
Proof.
  intros (Hp & Hsq & _ & _) Hfull.
  destruct (done_spec self Hsq (center_on_board_players self ltac:(lia)))
    as (b & Hdone & _ & Hno).
  destruct b; [done|]. destruct (Hno eq_refl) as (player & _ & Hm).
  destruct Hm. apply full_no_moves; [done|lia|done].
Qed.

Lemma full_4_full pos :
  _in_bounds full_4 pos = true → ∃ q, cell_at full_4 pos = Some (Some q).
Proof.
  destruct pos as [i j]. intros Hb. unfold cell_at. rewrite Hb.
  apply in_bounds_spec in Hb. cbn in Hb.
  assert (Hi : i = 0 ∨ i = 1 ∨ i = 2 ∨ i = 3) by lia.
  assert (Hj : j = 0 ∨ j = 1 ∨ j = 2 ∨ j = 3) by lia.
  destruct Hi as [->|[->|[->| ->]]]; destruct Hj as [->|[->|[->| ->]]];
    by eexists.
Qed.

(** X12, on a full board of side four. *)
Lemma done_full_board_witness : done full_4 = (Ok true, full_4).
Proof.
  apply (done_full_board full_4).
  - apply (bool_decide_unpack _). vm_compute. exact I.
  - exact full_4_full.
Defined.

(** X13. The answer of [done] does not depend on whose turn it is: on
    a [side] by [side] grid with at most [side] players, [done] gives
    the same answer for every value of the turn, and restores that
    value. *)
Theorem done_any_turn self t :
  square (_side self) (_grid self) → _players self <= _side self →
  ∃ b, done self = (Ok b, self)
       ∧ done (with_turn t self) = (Ok b, with_turn t self).
Proof.
  intros Hsq Hp.
  pose proof (center_on_board_players self Hp) as Hon.
  destruct (done_spec self Hsq Hon) as (b & Hdone & Hyes & Hno).
  destruct (done_spec (with_turn t self) Hsq Hon) as (b' & Hdone' & Hyes' & Hno').
  exists b. split; [done|]. rewrite Hdone'. do 2 f_equal.
  destruct b, b'; try done.
  - destruct (Hno' eq_refl) as (player & Hplayer & Hm). destruct Hm.
    rewrite moves_of_with_turn. by apply Hyes.
  - destruct (Hno eq_refl) as (player & Hplayer & Hm). destruct Hm.
    rewrite <- (moves_of_with_turn t). by apply Hyes'.
Qed.

(** X13, at the opening of Othello with the turn set to player 2. *)
Lemma done_any_turn_witness :
  ∃ b, done othello_8 = (Ok b, othello_8)
       ∧ done (with_turn 2 othello_8) = (Ok b, with_turn 2 othello_8).
Proof.
  apply (done_any_turn othello_8 2).
  - apply (bool_decide_unpack _). vm_compute. exact I.
  - vm_compute. discriminate.
Defined.

(** X14. In a game state, the list that [outcome] answers with has no
    duplicates, and every player in it has at least one piece on the
    grid. *)
Theorem outcome_no_duplicates self winners :
  game_state self → outcome self = (Ok winners, self) →
  NoDup winners
  ∧ ∀ player, player ∈ winners → (0 < pieces_of (_grid self) player)%nat.
Proof.
  intros Hgs Hout. pose proof Hgs as (Hp & Hsq & Hlab & _).
  destruct (outcome_spec self Hgs) as (d & winners' & Hd & Ho & Hf & Ht).
  rewrite Hout in Ho. injection Ho as <-.
  destruct d.
  - destruct (Ht eq_refl) as (_ & Hnd & Hall). split; [done|].
    intros player [Hplayer Hmax]%Hall.
    destruct (done_spec self Hsq (center_on_board_players self ltac:(lia)))
      as (b & Hdone & Hyes & _).
    rewrite Hd in Hdone. injection Hdone as <-.
    destruct (over_piece self Hsq Hp (Hyes eq_refl)) as [label Hlabel].
    pose proof (labelled_concat _ _ _ Hlab Hlabel) as Hrange.
    specialize (Hmax label Hrange).
    assert (0 < pieces_of (_grid self) label)%nat; [|lia].
    rewrite pieces_of_count. by apply count_pos.
  - rewrite (Hf eq_refl). split; [apply NoDup_nil_2|].
    intros player H. by apply elem_of_nil in H.
Qed.

(** X14, for the tie on a full board of side four. *)
Lemma outcome_no_duplicates_witness :
  NoDup [1; 2]
  ∧ ∀ player, player ∈ [1; 2] → (0 < pieces_of (_grid full_4) player)%nat.
Proof.
  apply (outcome_no_duplicates full_4 [1; 2]).
  - apply (bool_decide_unpack _). vm_compute. exact I.
  - reflexivity.
Defined.


(** ** Engine values and engines in the heap *)

Section engine.
Context (P : Reversi → Prop).
Hypothesis Hturn : ∀ t s, P s → P (with_turn t s).
Hypothesis Hgrid : ∀ g s, P s → P (with_grid g s).

Lemma engine_set_turn t : keeps P (set_turn t).
Proof. intros s Hs. by apply Hturn. Qed.

Lemma engine_grid_set row col v : keeps P (grid_set row col v).
Proof.
  intros s Hs. unfold grid_set.
  destruct (grid_put (_grid s) row col v); [|done..]. by apply Hgrid.
Qed.

Lemma engine_done_loop ps : ∀ no_moves, keeps P (done_loop ps no_moves).
Proof.
  induction ps as [|p ps IH]; intros no_moves; cbn [done_loop].
  - apply keeps_ret.
  - apply keeps_bind; [by apply engine_set_turn|]. intros _.
    apply keeps_bind; [|intros b; by apply IH].
    destruct no_moves; [|apply keeps_ret].
    apply keeps_bind; [apply keeps_read|]. intros moves. apply keeps_ret.
Qed.

Lemma engine_done : keeps P done.
Proof.
  unfold done. apply keeps_get_bind. intros self Hself.
  apply keeps_bind; [apply engine_done_loop|].
  intros b. apply keeps_bind; [|intros _; apply keeps_ret].
  apply engine_set_turn.
Qed.

Lemma engine_next_turn : keeps P next_turn.
Proof.
  unfold next_turn. apply keeps_get_bind. intros self Hself.
  apply keeps_bind; [apply keeps_lift|]. intros t.
  apply keeps_bind; [apply engine_set_turn|]. intros _.
  case_bool_decide; [apply engine_set_turn|apply keeps_ret].
Qed.

Lemma engine_skip_loop fuel : keeps P (skip_loop fuel).
Proof.
  induction fuel as [|fuel IH]; cbn [skip_loop].
  - apply keeps_bind; [apply keeps_read|]. intros moves.
    case_bool_decide; [|apply keeps_ret].
    apply keeps_bind; [apply engine_done|]. intros d.
    destruct d; [apply keeps_ret|apply keeps_lift].
  - apply keeps_bind; [apply keeps_read|]. intros moves.
    case_bool_decide; [|apply keeps_ret].
    apply keeps_bind; [apply engine_done|]. intros d.
    destruct d; [apply keeps_ret|]. cbn [negb].
    apply keeps_bind; [apply engine_next_turn|]. by intros _.
Qed.

Lemma engine_flip_loop fuel : ∀ rs cs r c, keeps P (flip_loop fuel rs cs r c).
Proof.
  induction fuel as [|fuel IH]; intros rs cs r c; cbn [flip_loop].
  - apply keeps_get_bind. intros self Hself.
    apply keeps_bind; [apply keeps_lift|]. intros here.
    case_bool_decide; [apply keeps_lift|apply keeps_ret].
  - apply keeps_get_bind. intros self Hself.
    apply keeps_bind; [apply keeps_lift|]. intros here.
    case_bool_decide; [|apply keeps_ret].
    apply keeps_bind; [|intros _; apply IH].
    apply engine_grid_set.
Qed.

Lemma engine_apply_move pos : keeps P (apply_move pos).
Proof.
  unfold apply_move. apply keeps_get_bind. intros self Hself.
  destruct (negb (_in_bounds self pos)); [apply keeps_lift|].
  destruct pos as [row col].
  apply keeps_bind.
  - destruct (negb _ && _); [by apply engine_grid_set|].
    apply keeps_bind; [by apply engine_grid_set|]. intros _.
    apply keeps_bind; [apply keeps_read|]. intros dirs.
    apply keeps_forM_. intros [rs cs]. unfold flip_direction.
    apply keeps_get_bind. intros self' _. apply engine_flip_loop.
  - intros _. apply keeps_bind; [apply engine_next_turn|]. intros _.
    apply keeps_get_bind. intros self' _. apply engine_skip_loop.
Qed.
End engine.

Lemma apply_move_same_engine pos s : same_engine s (apply_move pos s).2.
Proof. by apply (engine_apply_move (same_engine s)). Qed.


Lemma view_object h self s :
  Store.view h self = Some s →
  ∃ o, Store.objects h !! self = Some o ∧ Store.grids h !! Store.o_grid o = Some (_grid s)
       ∧ s = mkReversi (Store.o_side o) (Store.o_players o) (Store.o_othello o) (_grid s) (Store.o_turn o).
Proof.
  unfold Store.view. intros Hv.
  destruct (Store.objects h !! self) as [o|] eqn:Ho; [|done]. cbn in Hv.
  destruct (Store.grids h !! Store.o_grid o) as [g|] eqn:Hg; [|done]. cbn in Hv.
  injection Hv as <-. by exists o.
Qed.

Lemma object_view h self o g :
  Store.objects h !! self = Some o → Store.grids h !! Store.o_grid o = Some g →
  Store.view h self
  = Some (mkReversi (Store.o_side o) (Store.o_players o) (Store.o_othello o) g (Store.o_turn o)).
Proof. intros Ho Hg. unfold Store.view. rewrite Ho. cbn. by rewrite Hg. Qed.

(** A method that leaves the engine the same engine acts on the object
    as it acts on the value. *)
Lemma call_view {A} h self s (m : M A) :
  Store.view h self = Some s → same_engine s (m s).2 →
  ∃ h', Store.call self m h = ((m s).1, h') ∧ Store.view h' self = Some (m s).2.
Proof.
  intros (o & Ho & Hg & Hs)%view_object (Hside & Hplayers & Hothello).
  unfold Store.call. rewrite Ho, Hg. rewrite <- Hs.
  destruct (m s) as [r s'] eqn:Hm. cbn [fst snd] in *.
  eexists. split; [done|]. unfold Store.view. cbn.
  rewrite lookup_insert_eq. cbn. rewrite lookup_insert_eq. cbn.
  rewrite Hs in Hside, Hplayers, Hothello. cbn in Hside, Hplayers, Hothello.
  rewrite <- Hside, <- Hplayers, <- Hothello. by destruct s'.
Qed.

Lemma view_alloc_grid h l s g' :
  Store.view h l = Some s → Store.view (Store.alloc_grid g' h).2 l = Some s.
Proof.
  intros (o & Ho & Hg & Hs)%view_object. unfold Store.alloc_grid. cbn [snd].
  rewrite Hs. apply object_view; cbn; [done|].
  rewrite lookup_insert_ne; [done|]. intros Heq.
  apply (is_fresh (dom (Store.grids h))). rewrite Heq. apply elem_of_dom. by eexists.
Qed.

Lemma kept_view self o g h :
  kept self o g h →
  Store.view h self
  = Some (mkReversi (Store.o_side o) (Store.o_players o) (Store.o_othello o) g (Store.o_turn o)).
Proof. intros [Ho Hg]. by apply object_view. Qed.

Section simulation.
Context (self : Store.loc) (o : Store.object) (g : BoardGridType) (sim : Store.loc).

Local Abbreviation s :=
  (mkReversi (Store.o_side o) (Store.o_players o) (Store.o_othello o) g (Store.o_turn o)).
Local Abbreviation simulating := (simulating self o g sim).

Lemma simulate_move_step cur move h :
  simulating cur h →
  match Store.simulate_move self sim move h with
  | (Ok _, h') =>
      ∃ cur', simulate_step s cur move = Ok cur' ∧ simulating cur' h'
  | (Raise e, h') => simulate_step s cur move = Raise e
  | (Fault x, h') => simulate_step s cur move = Fault x
  end.
Proof.
  intros [Hap Hcur]. pose proof Hap as (Hk & _).
  unfold Store.simulate_move, simulate_step. destruct move as [row col].
  unfold mbind at 1, Store.H_bind at 1, Store.observe. rewrite (kept_view _ _ _ _ Hk).
  destruct (_in_bounds s (row, col)); cbn [negb]; [|done].
  unfold mbind at 1, Store.H_bind at 1.
  unfold Store.grid at 1. unfold mbind at 1, Store.H_bind at 1, Store.observe at 1. rewrite Hcur.
  pose proof (StoreFacts.keeps_alloc_grid self o g sim (_grid cur) h Hap) as Hap1.
  pose proof (view_alloc_grid h sim cur (_grid cur) Hcur) as Hcur1.
  destruct (Store.alloc_grid (_grid cur) h) as [rc h1] eqn:Halloc.
  unfold Store.alloc_grid in Halloc. injection Halloc as <- <-. cbn [snd] in Hap1, Hcur1.
  set (h1 := Store.mkHeap _ _) in *.
  unfold mbind at 1, Store.H_bind at 1.
  assert (Hcopy : Store.grids h1 !! fresh (dom (Store.grids h)) = Some (_grid cur)).
  { cbn. by rewrite lookup_insert_eq. }
  rewrite Hcopy. fold (grid_get cur row col).
  destruct (grid_get cur row col) as [here| |]; cbn [mbind result_bind]; [|done..].
  case_bool_decide; [done|].
  unfold Store.apply_move.
  destruct (call_view h1 sim cur (apply_move (row, col)) Hcur1
              (apply_move_same_engine _ _)) as (h2 & Hcall & Hview).
  pose proof (StoreFacts.keeps_call self o g sim (apply_move (row, col)) h1 Hap1)
    as Hap2.
  rewrite Hcall in Hap2 |- *. cbn [snd] in Hap2.
  destruct (apply_move (row, col) cur) as [[u|e|x] cur']; cbn [fst snd] in *;
    [|done..].
  exists cur'. done.
Qed.

Lemma simulate_loop_fold moves : ∀ cur h,
  simulating cur h →
  match Store.simulate_loop self sim moves h with
  | (Ok _, h') =>
      ∃ cur', foldM (simulate_step s) cur moves = Ok cur' ∧ simulating cur' h'
  | (Raise e, h') => foldM (simulate_step s) cur moves = Raise e
  | (Fault x, h') => foldM (simulate_step s) cur moves = Fault x
  end.
Proof.
  induction moves as [|move moves IH]; intros cur h Hsim.
  - cbn. by exists cur.
  - cbn [Store.simulate_loop foldM]. unfold mbind at 1, Store.H_bind at 1.
    pose proof (simulate_move_step cur move h Hsim) as Hstep.
    destruct (Store.simulate_move self sim move h) as [[u|e|x] h1].
    + destruct Hstep as (cur' & -> & Hsim'). cbn [mbind result_bind].
      by apply IH.
    + by rewrite Hstep.
    + by rewrite Hstep.
Qed.
End simulation.

(** [simulate_moves] on objects does what [simulate] does on values. *)
Lemma simulate_moves_value h self moves s :
  Store.view h self = Some s →
  match Store.simulate_moves self moves h with
  | (Ok sim, h') =>
      ∃ s', simulate s moves = Ok s' ∧ Store.view h' sim = Some s'
            ∧ sim ≠ self ∧ Store.view h' self = Some s
  | (Raise e, h') => simulate s moves = Raise e
  | (Fault x, h') => simulate s moves = Fault x
  end.
Proof.
  intros Hv. destruct (view_object h self s Hv) as (o & Ho & Hg & Hs).
  assert (Hk : kept self o (_grid s) h) by done.
  unfold Store.simulate_moves, simulate.
  unfold mbind at 1, Store.H_bind at 1, Store.observe. rewrite Hv.
  unfold mbind at 1, Store.H_bind at 1, Store.new.
  destruct (__init__ (_side s) (_players s) (_othello s)) as [s0|e|x];
    cbn [mbind result_bind]; [|done..].
  set (gl := fresh (dom (Store.grids h))). set (sim := fresh (dom (Store.objects h))).
  pose proof (StoreFacts.fresh_grid_ne self o (_grid s) h Hk) as Hgl. fold gl in Hgl.
  pose proof (StoreFacts.fresh_object_ne self o (_grid s) h Hk) as Hsim.
  fold sim in Hsim.
  set (h1 := Store.mkHeap _ _).
  assert (Hk1 : kept self o (_grid s) h1).
  { split; cbn; by rewrite lookup_insert_ne. }
  assert (Hv1 : Store.view h1 self = Some s).
  { rewrite Hs. by apply kept_view. }
  assert (Hsim1 : Store.view h1 sim = Some s0).
  { unfold Store.view, h1. cbn. rewrite lookup_insert_eq. cbn.
    rewrite lookup_insert_eq. cbn. by destruct s0. }
  unfold mbind at 1, Store.H_bind at 1. unfold Store.turn, Store.observe. rewrite Hv1.
  unfold mbind at 1, Store.H_bind at 1.
  unfold Store.grid at 1. unfold mbind at 1, Store.H_bind at 1, Store.observe. rewrite Hv1.
  pose proof (view_alloc_grid h1 self s (_grid s) Hv1) as Hv2.
  pose proof (view_alloc_grid h1 sim s0 (_grid s) Hsim1) as Hsim2.
  assert (Hcopy : fresh (dom (Store.grids h1)) ≠ Store.o_grid o).
  { by apply (StoreFacts.fresh_grid_ne self o (_grid s)). }
  unfold Store.alloc_grid in *. cbn [snd] in Hv2, Hsim2.
  set (copy := fresh (dom (Store.grids h1))) in *.
  set (h2 := Store.mkHeap (Store.objects h1) _) in *.
  assert (Hg2 : Store.grids h2 !! copy = Some (_grid s)).
  { cbn. by rewrite lookup_insert_eq. }
  unfold mbind at 1, Store.H_bind at 1.
  rewrite (StoreFacts.load_game_heap h2 sim (_turn s) copy s0 (_grid s) Hsim2 Hg2).
  destruct (load_game_checks (_turn s) (_grid s) s0) as [u|e|x];
    cbn [mbind result_bind]; [|done..].
  set (h3 := Store.mkHeap _ _).
  assert (Hsim3 : simulating self o (_grid s) sim
                    (mkReversi (_side s0) (_players s0) (_othello s0)
                       (_grid s) (_turn s)) h3).
  { split; [split; [|split; [done|]]|].
    - split; cbn; [|by rewrite !lookup_insert_ne].
      by rewrite !lookup_insert_ne.
    - eexists. split; [cbn; by rewrite lookup_insert_eq|]. done.
    - unfold Store.view. cbn. rewrite lookup_insert_eq. cbn.
      by rewrite lookup_insert_eq. }
  unfold mbind at 1, Store.H_bind at 1.
  pose proof (simulate_loop_fold self o (_grid s) sim moves _ h3 Hsim3) as Hloop.
  rewrite <- Hs in Hloop.
  destruct (Store.simulate_loop self sim moves h3) as [[u'|e|x] h4]; [|done..].
  destruct Hloop as (cur' & Hfold & [(Hk4 & _) Hcur']).
  cbn [mbind Store.H_bind mret Store.H_ret]. exists cur'. split; [done|]. split; [done|].
  split; [done|]. rewrite Hs. by apply kept_view.
Qed.

Lemma enumerate_snd {A} (l : list A) : (enumerate l).*2 = l.
Proof. unfold enumerate. apply snd_zip. rewrite length_seqZ. lia. Qed.

Lemma bind_snd {A B C} (f : A → list (C * B)) (l : list A) :
  (l ≫= f).*2 = l ≫= (fun x => (f x).*2).
Proof.
  induction l as [|x l IH]; [done|].
  by rewrite !bind_cons, fmap_app, IH.
Qed.

Lemma enumerate_grid_snd (g : BoardGridType) : (enumerate_grid g).*2 = concat g.
Proof.
  unfold enumerate_grid. rewrite bind_snd.
  assert (Hrow : ∀ ir : Z * list cell,
            ((let '(i, row) := ir in
              '(j, piece) ← enumerate row; [((i, j), piece)])).*2 = ir.2).
  { intros [i row]. cbn [snd]. rewrite bind_snd.
    rewrite <- (enumerate_snd row) at 2.
    induction (enumerate row) as [|[j c] l IH]; [done|].
    rewrite bind_cons. cbn. by rewrite IH. }
  rewrite (list_bind_ext _ (fun ir => ir.2) (enumerate g) (enumerate g)); [|done|done].
  rewrite <- (enumerate_snd g) at 2.
  induction (enumerate g) as [|[i row] l IH]; [done|].
  rewrite bind_cons. cbn. by rewrite IH.
Qed.

Lemma init_engine side players othello s0 :
  __init__ side players othello = Ok s0 →
  _side s0 = side ∧ _players s0 = players ∧ _othello s0 = othello
  ∧ _turn s0 = 1 ∧ square side (_grid s0).
Proof.
  intros Hinit. pose proof (init_cases side players othello) as Hc.
  rewrite Hinit in Hc. destruct Hc as (Hside & Hpar & Ho).
  destruct (init_ok side players othello Hside Hpar Ho) as (g & Hg & Hsq & _).
  rewrite Hinit in Hg. by injection Hg as ->.
Qed.

(** ** [simulate] *)

Lemma simulate_step_game_state self cur move cur' :
  game_state cur → simulate_step self cur move = Ok cur' →
  game_state cur' ∧ same_engine cur cur'.
Proof.
  intros Hgs. unfold simulate_step. destruct move as [row col].
  destruct (negb _); [done|].
  destruct (grid_get cur row col) as [here| |]; cbn [mbind result_bind]; [|done..].
  case_bool_decide; [done|].
  pose proof (apply_move_game_state cur (row, col) Hgs) as Hgs'.
  pose proof (apply_move_same_engine (row, col) cur) as Hsame.
  destruct (apply_move (row, col) cur) as [[u|e|x] s']; [|done..].
  by intros [= <-].
Qed.

Lemma same_engine_trans s1 s2 s3 :
  same_engine s1 s2 → same_engine s2 s3 → same_engine s1 s3.
Proof. intros (? & ? & ?) (? & ? & ?). repeat split; congruence. Qed.

Lemma simulate_fold_game_state self moves : ∀ cur cur',
  game_state cur → foldM (simulate_step self) cur moves = Ok cur' →
  game_state cur' ∧ same_engine cur cur'.
Proof.
  induction moves as [|move moves IH]; intros cur cur' Hgs; cbn [foldM].
  - intros [= <-]. done.
  - destruct (simulate_step self cur move) as [cur1| |] eqn:Hstep;
      cbn [mbind result_bind]; [|done..].
    destruct (simulate_step_game_state self cur move cur1 Hgs Hstep) as [Hgs1 Hs1].
    intros [Hgs' Hs']%IH; [|done]. split; [done|].
    by eapply same_engine_trans.
Qed.

(** What [simulate] does for a game state: when the engine can be made
    at all, the checks of [load_game] pass and the moves are played from
    the state itself. *)
Lemma simulate_game_state s moves :
  game_state s →
  simulate s moves
  = (__init__ (_side s) (_players s) (_othello s);;
     foldM (simulate_step s) s moves).
Proof.
  intros (Hp & [Hlen Hrows] & Hlab & Ht). unfold simulate.
  destruct (__init__ _ _ _) as [s0| |] eqn:Hinit; cbn [mbind result_bind]; [|done..].
  destruct (init_engine _ _ _ _ Hinit) as (Hside & Hplayers & Hothello & _ & [Hlen0 _]).
  rewrite load_game_checks_spec, Hplayers.
  rewrite decide_False by lia. rewrite decide_False by (intros H; apply H; congruence).
  rewrite decide_True by done. cbn [mbind result_bind].
  rewrite Hside, Hothello. by destruct s.
Qed.

Lemma simulate_ok_game_state s moves s' :
  game_state s → simulate s moves = Ok s' → game_state s' ∧ same_engine s s'.
Proof.
  intros Hgs. rewrite simulate_game_state by done.
  destruct (__init__ _ _ _); cbn [mbind result_bind]; [|done..].
  by apply simulate_fold_game_state.
Qed.

(** ** [sim_num_pieces] *)

Lemma count_cells turn (cells : list cell) : ∀ n,
  foldl (fun num c => if bool_decide (c = Some turn) then num + 1 else num)
    n cells
  = n + Z.of_nat (count turn cells).
Proof.
  unfold count. induction cells as [|c cells IH]; intros n; cbn [foldl].
  - cbn. lia.
  - rewrite IH. case_bool_decide as Hc.
    + rewrite filter_cons_True by done. cbn [length]. lia.
    + rewrite filter_cons_False by done. lia.
Qed.

Lemma dict_set_keys d k v k' :
  k' ∈ (Store.dict_set d k v).*1 ↔ k' = k ∨ k' ∈ d.*1.
Proof.
  induction d as [|[k0 v0] d IH]; cbn [Store.dict_set].
  - cbn. rewrite list_elem_of_singleton, elem_of_nil. tauto.
  - case_bool_decide as Hk; cbn [fmap list_fmap fst].
    + subst k0. rewrite !elem_of_cons. tauto.
    + rewrite !elem_of_cons.
      change (k' ∈ list_fmap _ _ fst (Store.dict_set d k v))
        with (k' ∈ (Store.dict_set d k v).*1).
      rewrite IH. tauto.
Qed.

Lemma dict_set_NoDup d k v : NoDup d.*1 → NoDup (Store.dict_set d k v).*1.
Proof.
  induction d as [|[k0 v0] d IH]; cbn [Store.dict_set]; intros Hnd.
  - cbn. apply NoDup_singleton.
  - apply NoDup_cons in Hnd as [Hk0 Hnd]. case_bool_decide as Hk.
    + apply NoDup_cons. done.
    + apply NoDup_cons. split; [|by apply IH].
      change (k0 ∉ (Store.dict_set d k v).*1). rewrite dict_set_keys.
      intros [->|H]; done.
Qed.

Lemma dict_set_elem d k v k' v' :
  NoDup d.*1 →
  (k', v') ∈ Store.dict_set d k v
  ↔ (k' = k ∧ v' = v) ∨ (k' ≠ k ∧ (k', v') ∈ d).
Proof.
  induction d as [|[k0 v0] d IH]; cbn [Store.dict_set]; intros Hnd.
  - rewrite list_elem_of_singleton. split.
    + intros [= -> ->]. by left.
    + intros [[-> ->]|[_ H]]; [done|]. by apply elem_of_nil in H.
  - apply NoDup_cons in Hnd as [Hk0 Hnd].
    assert (Hfst : ∀ x y, (x, y) ∈ d → x ∈ d.*1).
    { intros x y Hxy. apply list_elem_of_fmap. by exists (x, y). }
    case_bool_decide as Hk.
    + subst k0. rewrite !elem_of_cons. split.
      * intros [[= -> ->]|Hin]; [by left|]. right. split; [|by right].
        intros ->. apply Hk0. by eapply Hfst.
      * intros [[-> ->]|[Hne [[= -> ->]|Hin]]]; [by left|done|by right].
    + rewrite !elem_of_cons, (IH Hnd). split.
      * intros [[= -> ->]|[[-> ->]|[Hne Hin]]].
        -- right. split; [done|]. by left.
        -- by left.
        -- right. split; [done|]. by right.
      * intros [[-> ->]|[Hne [[= -> ->]|Hin]]].
        -- right. by left.
        -- by left.
        -- right. right. done.
Qed.

(** What [simulate] answers for one move from a game state. *)
Lemma simulate_one s move s' :
  game_state s → simulate s [move] = Ok s' →
  _in_bounds s move = true ∧ cell_at s move = Some None
  ∧ apply_move move s = (Ok tt, s').
Proof.
  intros Hgs. rewrite simulate_game_state by done.
  destruct (__init__ _ _ _); cbn [mbind result_bind foldM]; [|done..].
  unfold simulate_step. destruct move as [row col].
  destruct (_in_bounds s (row, col)) eqn:Hb; cbn [negb]; [|done].
  destruct (grid_get s row col) as [here| |] eqn:Hget;
    cbn [mbind result_bind]; [|done..].
  case_bool_decide as Hhere; [done|].
  destruct (apply_move (row, col) s) as [[[]|e|x] s1]; cbn [mbind result_bind];
    [|done..].
  intros [= <-]. split; [done|]. split; [|done].
  apply grid_get_cell_at; [done|]. rewrite Hget.
  destruct here; [|done]. by destruct Hhere.
Qed.

(** The dictionary of [sim_num_pieces]: one entry for every move, with
    the number of pieces of [turn] after the move. *)
Lemma num_pieces_spec s moves turn d :
  game_state s → num_pieces s moves turn = Ok d →
  NoDup d.*1
  ∧ (∀ move, move ∈ moves →
       _in_bounds s move = true ∧ cell_at s move = Some None)
  ∧ ∀ move n,
      (move, n) ∈ d
      ↔ move ∈ moves
        ∧ n = Z.of_nat (pieces_of (_grid (apply_move move s).2) turn).
Proof.
  intros Hgs. unfold num_pieces.
  set (val move := Z.of_nat (pieces_of (_grid (apply_move move s).2) turn)).
  assert (Hgen : ∀ moves d0 d,
            NoDup d0.*1 →
            foldM (fun pieces_dict move =>
                     sim ← simulate s [move];
                     Ok (Store.dict_set pieces_dict move
                           (Z.of_nat (pieces_of (_grid sim) turn))))
                  d0 moves = Ok d →
            NoDup d.*1
            ∧ (∀ move, move ∈ moves →
                 _in_bounds s move = true ∧ cell_at s move = Some None)
            ∧ ∀ move n,
                (move, n) ∈ d
                ↔ ((move ∉ moves) ∧ (move, n) ∈ d0)
                  ∨ (move ∈ moves ∧ n = val move)).
  { clear moves d. induction moves as [|move moves IH]; intros d0 d Hnd; cbn [foldM].
    - intros [= <-]. split; [done|]. split.
      + intros move H. by apply elem_of_nil in H.
      + intros move n. split.
        * intros Hin. left. split; [apply not_elem_of_nil|done].
        * intros [[_ Hin]|[H _]]; [done|]. by apply elem_of_nil in H.
    - destruct (simulate s [move]) as [s'| |] eqn:Hsim;
        cbn [mbind result_bind]; [|done..].
      destruct (simulate_one s move s' Hgs Hsim) as (Hb & Hempty & Happ).
      assert (Hval : Z.of_nat (pieces_of (_grid s') turn) = val move).
      { unfold val. by rewrite Happ. }
      rewrite Hval.
      intros (Hnd' & Hmoves & Hiff)%IH; [|by apply dict_set_NoDup].
      split; [done|]. split.
      + intros move' [->|Hin]%elem_of_cons; [done|by apply Hmoves].
      + intros move' n. rewrite Hiff, dict_set_elem, elem_of_cons by done.
        split.
        * intros [[Hnot [[-> ->]|[Hne Hin]]]|[Hin ->]].
          -- right. split; [by left|done].
          -- left. split; [|done]. intros [?|?]; done.
          -- right. split; [by right|done].
        * intros [[Hnot Hin]|[[->|Hin] ->]].
          -- left. split; [intros ?; apply Hnot; by right|].
             right. split; [|done]. intros ->. apply Hnot. by left.
          -- destruct (decide (move ∈ moves)) as [Hin|Hnot].
             ++ by right.
             ++ left. split; [done|]. by left.
          -- by right. }
  intros Hfold. destruct (Hgen moves [] d) as (Hnd & Hmoves & Hiff);
    [apply NoDup_nil_2|done|].
  split; [done|]. split; [done|]. intros move n. rewrite Hiff. split.
  - intros [[_ H]|?]; [by apply elem_of_nil in H|done].
  - intros ?. by right.
Qed.


Lemma count_turn_fold sim s' turn h (cells : list (position * cell)) :
  Store.view h sim = Some s' →
  (∀ pos c, (pos, c) ∈ cells → cell_at s' pos = Some c) →
  ∀ n,
    Store.foldH (fun num_pieces '((i, j), _) =>
             piece ← Store.observe sim (fun s => piece_at s (i, j));
             mret (if bool_decide (piece = Some turn) then num_pieces + 1
                   else num_pieces))
          n cells h
    = (Ok (n + Z.of_nat (count turn cells.*2)), h).
Proof.
  intros Hv. induction cells as [|[[i j] c] cells IH]; intros Hcells n.
  - cbn [Store.foldH]. unfold mret, Store.H_ret. do 2 f_equal.
    change (count turn ([] : list (position * cell)).*2) with 0%nat. lia.
  - cbn [Store.foldH]. unfold mbind at 1, Store.H_bind at 1.
    unfold mbind at 1, Store.H_bind at 1, Store.observe. rewrite Hv.
    assert (Hc : cell_at s' (i, j) = Some c) by (apply Hcells; by left).
    unfold piece_at. rewrite (cell_at_in_bounds _ _ _ Hc). cbn [negb].
    rewrite (cell_at_grid_get _ _ _ _ Hc). unfold mret at 1, Store.H_ret at 1.
    rewrite IH by (intros pos c' Hin; apply Hcells; by right).
    do 2 f_equal. cbn [fmap list_fmap snd]. unfold count.
    case_bool_decide as Hturn.
    + rewrite filter_cons_True by done. cbn [length]. lia.
    + rewrite filter_cons_False by done. lia.
Qed.

Lemma count_turn_value sim s' turn h :
  Store.view h sim = Some s' → square (_side s') (_grid s') →
  Store.count_turn sim turn h
  = (Ok (Z.of_nat (pieces_of (_grid s') turn)),
     (Store.alloc_grid (_grid s') h).2).
Proof.
  intros Hv Hsq. unfold Store.count_turn.
  unfold mbind at 1, Store.H_bind at 1.
  unfold Store.grid. unfold mbind at 1, Store.H_bind at 1, Store.observe.
  rewrite Hv.
  pose proof (view_alloc_grid h sim s' (_grid s') Hv) as Hv1.
  unfold Store.alloc_grid in *. cbn [snd] in *.
  set (h1 := Store.mkHeap _ _) in *.
  unfold mbind at 1, Store.H_bind at 1, Store.read_grid. cbn [Store.grids h1].
  rewrite lookup_insert_eq.
  rewrite (count_turn_fold sim s' turn h1 _ Hv1).
  - rewrite enumerate_grid_snd, pieces_of_count. done.
  - intros pos c Hin. by apply enumerate_grid_cell_at.
Qed.

Lemma sim_num_pieces_fold self s turn moves : ∀ d h,
  game_state s → Store.view h self = Some s →
  match Store.foldH (fun pieces_dict move =>
                 sim ← Store.simulate_moves self [move];
                 num_pieces ← Store.count_turn sim turn;
                 mret (Store.dict_set pieces_dict move num_pieces))
              d moves h with
  | (Ok d', h') =>
      foldM (fun pieces_dict move =>
               sim ← simulate s [move];
               Ok (Store.dict_set pieces_dict move
                     (Z.of_nat (pieces_of (_grid sim) turn))))
            d moves = Ok d'
      ∧ Store.view h' self = Some s
  | (Raise e, h') =>
      foldM (fun pieces_dict move =>
               sim ← simulate s [move];
               Ok (Store.dict_set pieces_dict move
                     (Z.of_nat (pieces_of (_grid sim) turn))))
            d moves = Raise e
      ∧ Store.view h' self = Some s
  | (Fault x, h') =>
      foldM (fun pieces_dict move =>
               sim ← simulate s [move];
               Ok (Store.dict_set pieces_dict move
                     (Z.of_nat (pieces_of (_grid sim) turn))))
            d moves = Fault x
  end.
Proof.
  induction moves as [|move moves IH]; intros d h Hgs Hv.
  - cbn. done.
  - cbn [Store.foldH foldM]. unfold mbind at 1, Store.H_bind at 1.
    unfold mbind at 1, Store.H_bind at 1.
    pose proof (simulate_moves_value h self [move] s Hv) as Hsim.
    destruct (StoreFacts.view_kept h self s Hv) as (o & Hk & Hback).
    pose proof (StoreFacts.simulate_moves_kept self o (_grid s) [move] h Hk)
      as Hkept.
    destruct (Store.simulate_moves self [move] h) as [[sim|e|x] h1].
    + destruct Hsim as (s' & Heq & Hsim & Hne & Hv1).
      destruct (simulate_ok_game_state s [move] s' Hgs Heq) as [(_ & Hsq & _) _].
      rewrite Heq. cbn [mbind result_bind].
      unfold mbind at 1, Store.H_bind at 1.
      rewrite (count_turn_value sim s' turn h1 Hsim Hsq).
      unfold mret at 1, Store.H_ret at 1.
      apply IH; [done|]. by apply view_alloc_grid.
    + rewrite Hsim. cbn [mbind result_bind]. split; [done|].
      by apply Hback.
    + by rewrite Hsim.
Qed.

(** [sim_num_pieces] on objects does what [num_pieces] does on values,
    and leaves the receiver as it was. *)
Lemma sim_num_pieces_value h self moves turn s :
  game_state s → Store.view h self = Some s →
  match Store.sim_num_pieces self moves turn h with
  | (Ok d, h') => num_pieces s moves turn = Ok d ∧ Store.view h' self = Some s
  | (Raise e, h') =>
      num_pieces s moves turn = Raise e ∧ Store.view h' self = Some s
  | (Fault x, h') => num_pieces s moves turn = Fault x
  end.
Proof. intros Hgs Hv. by apply sim_num_pieces_fold. Qed.


(** What [simulate] answers for no move and for one move at an empty
    cell of the board. *)
Lemma simulate_single s s0 :
  game_state s → __init__ (_side s) (_players s) (_othello s) = Ok s0 →
  simulate s [] = Ok s
  ∧ ∀ move, _in_bounds s move = true → cell_at s move = Some None →
      simulate s [move] = Ok (apply_move move s).2.
Proof.
  intros Hgs Hinit. rewrite !simulate_game_state by done. rewrite Hinit.
  split; [done|]. intros move Hb Hempty.
  rewrite simulate_game_state by done. rewrite Hinit.
  cbn [mbind result_bind foldM]. unfold simulate_step.
  destruct move as [row col]. rewrite Hb. cbn [negb].
  rewrite (cell_at_grid_get _ _ _ _ Hempty). cbn [mbind result_bind].
  rewrite bool_decide_eq_false_2 by (by intros H; apply H).
  pose proof (apply_move_total_lemma s (row, col) Hgs) as Htotal.
  destruct (apply_move (row, col) s) as [[[]|e|x] s1]; [done| |done].
  destruct Htotal as (_ & Hout & _). congruence.
Qed.

Lemma foldM_app {A B} (f : B → A → result B) (l1 l2 : list A) : ∀ acc,
  foldM f acc (l1 ++ l2) = (acc' ← foldM f acc l1; foldM f acc' l2).
Proof.
  induction l1 as [|x l1 IH]; intros acc; [done|].
  cbn [app foldM]. destruct (f acc x); cbn [mbind result_bind]; [|done..].
  apply IH.
Qed.

Lemma simulate_step_side s s' cur move :
  _side s' = _side s → simulate_step s' cur move = simulate_step s cur move.
Proof.
  intros Hside. unfold simulate_step, _in_bounds. destruct move as [row col].
  by rewrite Hside.
Qed.

Lemma foldM_ext {A B} (f f' : B → A → result B) (l : list A) acc :
  (∀ b a, f b a = f' b a) → foldM f acc l = foldM f' acc l.
Proof.
  intros Hf. revert acc. induction l as [|x l IH]; intros acc; [done|].
  cbn [foldM]. rewrite Hf. destruct (f' acc x); cbn [mbind result_bind]; [|done..].
  apply IH.
Qed.

(** Simulating a list of moves is simulating its parts in turn. *)
Lemma simulate_app_lemma s moves1 moves2 :
  game_state s →
  simulate s (moves1 ++ moves2) = (s' ← simulate s moves1; simulate s' moves2).
Proof.
  intros Hgs. rewrite !simulate_game_state by done.
  destruct (__init__ _ _ _) as [s0| |] eqn:Hinit; cbn [mbind result_bind];
    [|done..].
  rewrite foldM_app.
  destruct (foldM (simulate_step s) s moves1) as [s'| |] eqn:Hfold;
    cbn [mbind result_bind]; [|done..].
  destruct (simulate_fold_game_state s moves1 s s' Hgs Hfold)
    as [Hgs' (Hside & Hplayers & Hothello)].
  rewrite simulate_game_state by done.
  rewrite Hside, Hplayers, Hothello, Hinit. cbn [mbind result_bind].
  apply foldM_ext. intros b a. symmetry. by apply simulate_step_side.
Qed.

(** X15. Simulating a list of moves from a game state is simulating
    its first part and then, from the state that this gives, the rest;
    a failure in the first part is the failure of the whole. *)
Theorem simulate_app s moves1 moves2 :
  game_state s →
  simulate s (moves1 ++ moves2) = (s' ← simulate s moves1; simulate s' moves2).
Proof. apply simulate_app_lemma. Qed.

(** X15, for two moves from the opening of Othello. *)
Lemma simulate_app_witness :
  simulate othello_8 ([(2, 3)] ++ [(2, 2)])
  = (s' ← simulate othello_8 [(2, 3)]; simulate s' [(2, 2)]).
Proof.
  apply (simulate_app othello_8 [(2, 3)] [(2, 2)]).
  apply (bool_decide_unpack _). vm_compute. exact I.
Defined.

(** X16. For a game state of an engine that [Reversi] can make, the
    simulation of no move gives the state itself, and the simulation of
    one move at an empty cell of the board gives the state that
    [apply_move] leaves. *)
Theorem simulate_plays s s0 :
  game_state s → __init__ (_side s) (_players s) (_othello s) = Ok s0 →
  simulate s [] = Ok s
  ∧ ∀ move, _in_bounds s move = true → cell_at s move = Some None →
      simulate s [move] = Ok (apply_move move s).2.
Proof. apply simulate_single. Qed.

(** X16, at the opening of Othello. *)
Lemma simulate_plays_witness :
  simulate othello_8 [] = Ok othello_8
  ∧ ∀ move, _in_bounds othello_8 move = true →
      cell_at othello_8 move = Some None →
      simulate othello_8 [move] = Ok (apply_move move othello_8).2.
Proof.
  apply (simulate_plays othello_8 othello_8).
  - apply (bool_decide_unpack _). vm_compute. exact I.
  - reflexivity.
Defined.


(** X17. [simulate_moves] on objects ends as [simulate] does on engine
    values: with the same exception, or with a new object, another one
    than the receiver, that stands for the engine value that [simulate]
    gives, while the receiver stands for what it stood for. *)
Theorem simulate_moves_simulate h self moves s :
  Store.view h self = Some s →
  match Store.simulate_moves self moves h with
  | (Ok sim, h') =>
      ∃ s', simulate s moves = Ok s' ∧ Store.view h' sim = Some s'
            ∧ sim ≠ self ∧ Store.view h' self = Some s
  | (Raise e, h') => simulate s moves = Raise e
  | (Fault x, h') => simulate s moves = Fault x
  end.
Proof. apply simulate_moves_value. Qed.

(** X17, for one move from the opening of Othello. *)
Lemma simulate_moves_simulate_witness :
  match Store.simulate_moves 0%nat [(2, 3)] heap_8 with
  | (Ok sim, h') =>
      ∃ s', simulate othello_8 [(2, 3)] = Ok s' ∧ Store.view h' sim = Some s'
            ∧ sim ≠ 0%nat ∧ Store.view h' 0%nat = Some othello_8
  | (Raise e, h') => simulate othello_8 [(2, 3)] = Raise e
  | (Fault x, h') => simulate othello_8 [(2, 3)] = Fault x
  end.
Proof.
  apply (simulate_moves_simulate heap_8 0%nat [(2, 3)] othello_8).
  vm_compute. reflexivity.
Defined.

(** X18. When [sim_num_pieces] returns for an engine in a game state,
    the engine is as it was, every move that was given is an empty cell
    of the board, and the dictionary has one entry for every move that
    was given, and no other: the number of pieces of [turn] on the grid
    that [apply_move] leaves after that move alone. *)
Theorem sim_num_pieces_counts h self moves turn s d h' :
  Store.view h self = Some s → game_state s →
  Store.sim_num_pieces self moves turn h = (Ok d, h') →
  Store.view h' self = Some s
  ∧ NoDup d.*1
  ∧ (∀ move, move ∈ moves →
       _in_bounds s move = true ∧ cell_at s move = Some None)
  ∧ ∀ move n,
      (move, n) ∈ d
      ↔ move ∈ moves
        ∧ n = Z.of_nat (pieces_of (_grid (apply_move move s).2) turn).
Proof.
  intros Hv Hgs Hnum.
  pose proof (sim_num_pieces_value h self moves turn s Hgs Hv) as Hval.
  rewrite Hnum in Hval. destruct Hval as [Hd Hv']. split; [done|].
  by apply num_pieces_spec.
Qed.

(** X18, for two of the first moves of a game of Othello. *)
Lemma sim_num_pieces_counts_witness :
  Store.view (Store.sim_num_pieces 0%nat [(2, 3); (4, 5)] 1 heap_8).2 0%nat
  = Some othello_8
  ∧ NoDup [((2, 3), 4); ((4, 5), 4)].*1
  ∧ (∀ move, move ∈ [(2, 3); (4, 5)] →
       _in_bounds othello_8 move = true ∧ cell_at othello_8 move = Some None)
  ∧ ∀ move n,
      (move, n) ∈ [((2, 3), 4); ((4, 5), 4)]
      ↔ move ∈ [(2, 3); (4, 5)]
        ∧ n = Z.of_nat (pieces_of (_grid (apply_move move othello_8).2) 1).
Proof.
  apply (sim_num_pieces_counts heap_8 0%nat [(2, 3); (4, 5)] 1 othello_8
           [((2, 3), 4); ((4, 5), 4)]
           (Store.sim_num_pieces 0%nat [(2, 3); (4, 5)] 1 heap_8).2).
  - vm_compute. reflexivity.
  - apply (bool_decide_unpack _). vm_compute. exact I.
  - vm_compute. reflexivity.
Defined.

(** ** [Piece] *)

(** X19. [Piece(side, players, othello, pos)] makes the piece exactly
    when the three checks of [Reversi(side, players, othello)] pass and
    the position is on the board: then [piece_at] is that position and
    [player_num] answers, without an [IndexError], with the cell of a
    new game, one of the four pieces of the opening of Othello or
    [None]. It raises the exception of the engine's constructor when
    that one raises, and otherwise, the position being off the board, a
    [ValueError] of its own. *)
Theorem piece_player_num side players othello pos :
  match Piece.__init__ side players othello pos with
  | Ok p =>
      (3 <= side ∧ players mod 2 = side mod 2 ∧ (othello = true → players = 2))
      ∧ (0 <= pos.1 < side ∧ 0 <= pos.2 < side)
      ∧ Piece.piece_at p = pos
      ∧ Piece.player_num p
        = Ok (if othello then othello_seed side pos else None)
  | Raise e =>
      __init__ side players othello = Raise e
      ∨ ((3 <= side ∧ players mod 2 = side mod 2
          ∧ (othello = true → players = 2))
         ∧ ¬ (0 <= pos.1 < side ∧ 0 <= pos.2 < side)
         ∧ e = ValueError Msg.sim_out_of_bounds)
  | Fault _ => False
  end.
Proof.
  unfold Piece.__init__.
  pose proof (init_cases side players othello) as Hcases.
  destruct (__init__ side players othello) as [s0|e|x] eqn:Hinit;
    cbn [mbind result_bind]; [|by left|done].
  destruct Hcases as (Hside & Hpar & Ho).
  destruct (init_ok side players othello Hside Hpar Ho) as (g & Hg & Hsq & Hcells).
  rewrite Hinit in Hg. injection Hg as ->.
  destruct (_in_bounds _ pos) eqn:Hb; cbn [negb].
  - split; [done|]. split; [|split; [done|]].
    + destruct pos as [row col]. by apply in_bounds_spec in Hb.
    + specialize (Hcells pos). rewrite Hb in Hcells.
      unfold Piece.player_num, Piece.piece_at. cbn [Piece._pos Piece._grid].
      destruct pos as [row col]. by apply cell_at_grid_get in Hcells.
  - right. split; [done|]. split; [|done]. destruct pos as [row col].
    intros Hin.
    rewrite (proj2 (in_bounds_spec (mkReversi side players othello g 1) row col)
               Hin) in Hb.
    discriminate Hb.
Qed.

(** X19, for a piece of the opening of Othello. *)
Lemma piece_player_num_witness :
  ∃ p, Piece.__init__ 8 2 true (3, 3) = Ok p
       ∧ Piece.piece_at p = (3, 3)
       ∧ Piece.player_num p = Ok (Some 2).
Proof.
  pose proof (piece_player_num 8 2 true (3, 3)) as H.
  destruct (Piece.__init__ 8 2 true (3, 3)) as [p|e|x] eqn:Hp.
  - exists p. split; [reflexivity|]. destruct H as (_ & _ & Hat & Hnum).
    split; [exact Hat|exact Hnum].
  - vm_compute in Hp. discriminate Hp.
  - destruct H.
Defined.

(** A position off the board, and an engine that cannot be made. *)
Example piece_off_board :
  Piece.__init__ 8 2 true (8, 0) = Raise (ValueError Msg.sim_out_of_bounds)
  ∧ Piece.__init__ 8 3 false (0, 0) = Raise (ValueError Msg.parity).
Proof. split; reflexivity. Qed.

(** ** The strategies *)

Lemma py_max_spec values :
  values ≠ [] →
  ∃ m, Bot.py_max values = Ok m ∧ m ∈ values ∧ ∀ v, v ∈ values → v <= m.
Proof.
  destruct values as [|v values]; [done|]. intros _. cbn [Bot.py_max].
  eexists. split; [done|].
  revert v. induction values as [|w values IH]; intros v; cbn [foldl].
  - split; [by left|]. intros v' ->%list_elem_of_singleton. lia.
  - destruct (IH (Z.max v w)) as [Hin Hle]. split.
    + apply elem_of_cons in Hin as [Heq|Hin]; [|by right; right].
      rewrite Heq. destruct (Z.max_spec v w) as [[_ ->]|[_ ->]];
        [right; by left|by left].
    + specialize (Hle (Z.max v w) ltac:(by left)) as Hvw.
      intros v' [Heq|[Heq|Hv']%elem_of_cons]%elem_of_cons.
      * lia.
      * lia.
      * apply Hle. by right.
Qed.

Lemma choice_spec {A} randbelow (seq : list A) :
  seq ≠ [] → (randbelow (length seq) < length seq)%nat →
  ∃ x, Bot.choice randbelow seq = Ok x ∧ x ∈ seq.
Proof.
  intros Hne Hlt. unfold Bot.choice.
  rewrite bool_decide_eq_false_2 by (by destruct seq).
  destruct (lookup_lt_is_Some_2 seq _ Hlt) as [x Hx]. rewrite Hx.
  exists x. split; [done|]. by eapply list_elem_of_lookup_2.
Qed.

(** The keys with the greatest value, as the comprehension of
    [Smart.best_move] collects them. *)
Lemma best_moves_spec (num_pc : list (position * Z)) :
  num_pc ≠ [] →
  ∃ best m,
    foldM (fun best_moves '(key, val) =>
             m ← Bot.py_max (num_pc.*2);
             Ok (if bool_decide (val = m) then best_moves ++ [key]
                 else best_moves))
          [] num_pc = Ok best
    ∧ best ≠ []
    ∧ (∀ v, v ∈ num_pc.*2 → v <= m)
    ∧ ∀ key, key ∈ best ↔ (key, m) ∈ num_pc.
Proof.
  intros Hne.
  destruct (py_max_spec (num_pc.*2)) as (m & Hmax & Hin & Hle).
  { by destruct num_pc. }
  rewrite Hmax.
  assert (Hgen : ∀ (l : list (position * Z)) (acc : list position),
            ∃ best,
              foldM (fun best_moves '(key, val) =>
                       m ← Ok m;
                       Ok (if bool_decide (val = m) then best_moves ++ [key]
                           else best_moves))
                    acc l = Ok best
              ∧ ∀ key, key ∈ best ↔ key ∈ acc ∨ (key, m) ∈ l).
  { induction l as [|[key val] l IH]; intros acc; cbn [foldM].
    - exists acc. split; [done|]. intros key. split; [by left|].
      intros [?|H]; [done|]. by apply elem_of_nil in H.
    - cbn [mbind result_bind].
      destruct (IH (if bool_decide (val = m) then acc ++ [key] else acc))
        as (best & Hfold & Hbest).
      exists best. split; [exact Hfold|]. intros key'. rewrite Hbest, elem_of_cons.
      case_bool_decide as Hval.
      + subst val. rewrite elem_of_app, list_elem_of_singleton. split.
        * intros [[Ha | ->]|Hl]; [by left|right; by left|right; by right].
        * intros [Ha|[[= ->]|Hl]]; [left; by left|left; by right|by right].
      + split.
        * intros [Ha|Hl]; [by left|right; by right].
        * intros [Ha|[[= -> ->]|Hl]]; [by left|done|by right]. }
  destruct (Hgen num_pc []) as (best & Hbest & Hiff).
  exists best, m. split; [done|]. split; [|split; [done|]].
  - apply list_elem_of_fmap in Hin as ([key val] & -> & Hin). cbn [snd] in *.
    intros ->. apply (not_elem_of_nil key). apply Hiff. by right.
  - intros key. rewrite Hiff. split; [|by right].
    intros [H|?]; [|done]. by apply elem_of_nil in H.
Qed.

Lemma num_pieces_ok s moves turn :
  (∀ move, move ∈ moves → ∃ s', simulate s [move] = Ok s') →
  ∃ d, num_pieces s moves turn = Ok d.
Proof.
  unfold num_pieces. generalize ([] : list (position * Z)).
  induction moves as [|move moves IH]; intros d0 Hall; cbn [foldM].
  - by exists d0.
  - destruct (Hall move) as [s' ->]; [by left|]. cbn [mbind result_bind].
    apply IH. intros move' Hin. apply Hall. by right.
Qed.


(** X20. For a game in a game state with at least one available move,
    and a random source that draws an index below the length it is
    given, [Smart.best_move] answers with one of the available moves,
    one after which the player to move has at least as many pieces as
    after every other available move, and leaves the game as it was. *)
Theorem smart_best_move_best randbelow h game s s0 moves :
  Store.view h game = Some s → game_state s →
  __init__ (_side s) (_players s) (_othello s) = Ok s0 →
  available_moves s = Ok moves → moves ≠ [] →
  (∀ n, (0 < n)%nat → (randbelow n < n)%nat) →
  ∃ move h',
    Bot.smart_best_move randbelow game h = (Ok move, h')
    ∧ Store.view h' game = Some s
    ∧ move ∈ moves
    ∧ ∀ other, other ∈ moves →
        (pieces_of (_grid (apply_move other s).2) (_turn s)
         <= pieces_of (_grid (apply_move move s).2) (_turn s))%nat.
Proof.
  intros Hv Hgs Hinit Hmoves Hne Hrand.
  pose proof Hgs as (Hp & Hsq & _ & _).
  destruct (available_moves_spec s Hsq (center_on_board_players s ltac:(lia)))
    as (moves' & Hm' & _ & Hlegal).
  rewrite Hmoves in Hm'. injection Hm' as <-.
  destruct (simulate_single s s0 Hgs Hinit) as [_ Hone].
  assert (Hsim : ∀ move, move ∈ moves → ∃ s', simulate s [move] = Ok s').
  { intros move [Hb Hl]%Hlegal. apply legal_move_true in Hl as [_ Hempty].
    eexists. by apply Hone. }
  destruct (num_pieces_ok s moves (_turn s) Hsim) as [d Hd].
  destruct (num_pieces_spec s moves (_turn s) d Hgs Hd) as (Hnd & _ & Hiff).
  unfold Bot.smart_best_move.
  unfold mbind at 1, Store.H_bind at 1, Store.observe. rewrite Hv, Hmoves.
  unfold mbind at 1, Store.H_bind at 1, Store.turn, Store.observe. rewrite Hv.
  unfold mbind at 1, Store.H_bind at 1.
  pose proof (sim_num_pieces_value h game moves (_turn s) s Hgs Hv) as Hval.
  destruct (Store.sim_num_pieces game moves (_turn s) h) as [[d'|e|x] h'];
    [|destruct Hval; congruence|congruence].
  destruct Hval as [Hd' Hv']. rewrite Hd in Hd'. injection Hd' as <-.
  assert (Hdne : d ≠ []).
  { destruct moves as [|move moves]; [done|].
    intros ->. apply (not_elem_of_nil (move, Z.of_nat
      (pieces_of (_grid (apply_move move s).2) (_turn s)))).
    apply Hiff. split; [by left|done]. }
  destruct (best_moves_spec d Hdne) as (best & m & Hbest & Hbne & Hle & Hin).
  unfold Store.lift_result. rewrite Hbest. cbn [mbind result_bind].
  destruct (choice_spec randbelow best Hbne) as (move & -> & Hmove).
  { apply Hrand. destruct best; [done|cbn; lia]. }
  exists move, h'. split; [done|]. split; [done|].
  apply Hin, Hiff in Hmove as [Hmove Hm]. split; [done|].
  intros other Hother.
  assert (Ho : (other, Z.of_nat (pieces_of (_grid (apply_move other s).2) (_turn s)))
               ∈ d) by by apply Hiff.
  assert (Hv2 : Z.of_nat (pieces_of (_grid (apply_move other s).2) (_turn s))
                ∈ d.*2).
  { apply list_elem_of_fmap. by eexists (_, _). }
  specialize (Hle _ Hv2). lia.
Qed.

(** X20, at the opening of Othello, with the random source that draws
    the first element. *)
Lemma smart_best_move_best_witness :
  ∃ move h',
    Bot.smart_best_move (fun _ => 0%nat) 0%nat heap_8 = (Ok move, h')
    ∧ Store.view h' 0%nat = Some othello_8
    ∧ move ∈ [(3, 2); (5, 4); (2, 3); (4, 5)]
    ∧ ∀ other, other ∈ [(3, 2); (5, 4); (2, 3); (4, 5)] →
        (pieces_of (_grid (apply_move other othello_8).2) (_turn othello_8)
         <= pieces_of (_grid (apply_move move othello_8).2) (_turn othello_8))%nat.
Proof.
  apply (smart_best_move_best (fun _ => 0%nat) heap_8 0%nat othello_8
           othello_8 [(3, 2); (5, 4); (2, 3); (4, 5)]).
  - vm_compute. reflexivity.
  - apply (bool_decide_unpack _). vm_compute. exact I.
  - reflexivity.
  - vm_compute. reflexivity.
  - discriminate.
  - intros n Hn. exact Hn.
Defined.

(** X21. For a game in a game state, [Random.best_move] raises
    [IndexError] when there is no available move, and otherwise (with
    a random source that draws an index below the length) answers with
    one of the available moves, at which [legal_move] says yes; the
    heap is as it was. *)
Theorem random_best_move_legal randbelow h game s moves :
  Store.view h game = Some s → game_state s →
  available_moves s = Ok moves →
  (randbelow (length moves) < length moves)%nat ∨ moves = [] →
  match moves with
  | [] => Bot.random_best_move randbelow game h = (Raise IndexError, h)
  | _ :: _ =>
      ∃ move, Bot.random_best_move randbelow game h = (Ok move, h)
              ∧ move ∈ moves ∧ legal_move s move = Ok true
  end.
Proof.
  intros Hv Hgs Hmoves Hrand. pose proof Hgs as (Hp & Hsq & _ & _).
  destruct (available_moves_spec s Hsq (center_on_board_players s ltac:(lia)))
    as (moves' & Hm' & _ & Hlegal).
  rewrite Hmoves in Hm'. injection Hm' as <-.
  unfold Bot.random_best_move.
  unfold mbind, Store.H_bind, Store.observe. rewrite Hv, Hmoves.
  unfold Store.lift_result.
  destruct moves as [|move0 moves]; [done|].
  destruct Hrand as [Hrand|[=]].
  destruct (choice_spec randbelow (move0 :: moves) ltac:(done) Hrand)
    as (move & -> & Hmove).
  exists move. split; [done|]. split; [done|]. by apply Hlegal.
Qed.

(** X21, at the opening of Othello. *)
Lemma random_best_move_legal_witness :
  ∃ move, Bot.random_best_move (fun _ => 0%nat) 0%nat heap_8 = (Ok move, heap_8)
          ∧ move ∈ [(3, 2); (5, 4); (2, 3); (4, 5)]
          ∧ legal_move othello_8 move = Ok true.
Proof.
  apply (random_best_move_legal (fun _ => 0%nat) heap_8 0%nat othello_8
           [(3, 2); (5, 4); (2, 3); (4, 5)]).
  - vm_compute. reflexivity.
  - apply (bool_decide_unpack _). vm_compute. exact I.
  - vm_compute. reflexivity.
  - left. cbn. lia.
Defined.

(** ** Lists that are shared, and lists that are not *)

(** X22. After [load_game] has returned, the engine works on the list
    of the caller: [apply_move] acts as on the engine value with the
    loaded grid and turn, and the list that was passed to [load_game]
    holds the grid of the engine after the move. *)
Theorem load_game_aliases h self turn grid s g pos h1 :
  Store.view h self = Some s → Store.grids h !! grid = Some g →
  Store.load_game self turn grid h = (Ok tt, h1) →
  ∃ h2,
    Store.apply_move self pos h1
    = ((apply_move pos
          (mkReversi (_side s) (_players s) (_othello s) g turn)).1, h2)
    ∧ Store.view h2 self
      = Some (apply_move pos
                (mkReversi (_side s) (_players s) (_othello s) g turn)).2
    ∧ Store.grids h2 !! grid
      = Some (_grid (apply_move pos
                       (mkReversi (_side s) (_players s) (_othello s) g turn)).2).
Proof.
  intros Hv Hg. rewrite (StoreFacts.load_game_heap h self turn grid s g Hv Hg).
  destruct (load_game_checks turn g s); [|done..]. intros [= <-].
  set (s1 := mkReversi (_side s) (_players s) (_othello s) g turn).
  pose proof (apply_move_same_engine pos s1) as (Hside & Hplayers & Hothello).
  unfold Store.apply_move, Store.call. cbn [Store.objects Store.grids].
  rewrite lookup_insert_eq. cbn [Store.o_grid Store.o_side Store.o_players
    Store.o_othello Store.o_turn]. rewrite Hg. fold s1.
  destruct (apply_move pos s1) as [r s'] eqn:Happ. cbn [fst snd] in *.
  eexists. split; [done|]. split.
  - unfold Store.view. cbn. rewrite lookup_insert_eq. cbn.
    rewrite lookup_insert_eq. cbn.
    cbn [s1 _side _players _othello] in Hside, Hplayers, Hothello.
    rewrite <- Hside, <- Hplayers, <- Hothello. by destruct s'.
  - cbn. by rewrite lookup_insert_eq.
Qed.

(** X22, for a copy of the grid of the opening of Othello. *)
Lemma load_game_aliases_witness :
  ∃ h2,
    Store.apply_move 0%nat (2, 3) (Store.load_game 0%nat 1 1%nat heap_8_copy).2
    = ((apply_move (2, 3)
          (mkReversi (_side othello_8) (_players othello_8)
             (_othello othello_8) (_grid othello_8) 1)).1, h2)
    ∧ Store.view h2 0%nat
      = Some (apply_move (2, 3)
                (mkReversi (_side othello_8) (_players othello_8)
                   (_othello othello_8) (_grid othello_8) 1)).2
    ∧ Store.grids h2 !! 1%nat
      = Some (_grid (apply_move (2, 3)
                       (mkReversi (_side othello_8) (_players othello_8)
                          (_othello othello_8) (_grid othello_8) 1)).2).
Proof.
  apply (load_game_aliases heap_8_copy 0%nat 1 1%nat othello_8
           (_grid othello_8) (2, 3)).
  - vm_compute. reflexivity.
  - vm_compute. reflexivity.
  - vm_compute. reflexivity.
Defined.

(** X23. The list that the [grid] property answers with is a new one
    that holds the cells of the engine, and the engine is as it was; a
    move of the engine afterwards does not show in that list. *)
Theorem grid_snapshot h self s l h1 :
  Store.view h self = Some s → Store.grid self h = (Ok l, h1) →
  Store.grids h !! l = None
  ∧ Store.grids h1 !! l = Some (_grid s)
  ∧ Store.view h1 self = Some s
  ∧ ∀ pos, Store.grids (Store.apply_move self pos h1).2 !! l = Some (_grid s).
Proof.
  intros Hv. pose proof (view_alloc_grid h self s (_grid s) Hv) as Hv1.
  destruct (view_object h self s Hv) as (o & Ho & Hg & Hs).
  unfold Store.grid. unfold mbind, Store.H_bind, Store.observe. rewrite Hv.
  unfold Store.alloc_grid in *. cbn [snd] in Hv1. intros [= <- <-].
  assert (Hfresh : Store.grids h !! fresh (dom (Store.grids h)) = None).
  { apply not_elem_of_dom, is_fresh. }
  split; [done|]. split; [cbn; by rewrite lookup_insert_eq|]. split; [done|].
  intros pos. unfold Store.apply_move, Store.call. cbn [Store.objects Store.grids].
  rewrite Ho.
  assert (Hne : fresh (dom (Store.grids h)) ≠ Store.o_grid o).
  { intros Heq. rewrite Heq, Hg in Hfresh. done. }
  rewrite lookup_insert_ne by done. rewrite Hg.
  destruct (apply_move pos _) as [r s']. cbn.
  rewrite lookup_insert_ne by done. by rewrite lookup_insert_eq.
Qed.

(** X23, for the engine of the opening of Othello. *)
Lemma grid_snapshot_witness :
  Store.grids heap_8 !! 1%nat = None
  ∧ Store.grids heap_8_copy !! 1%nat = Some (_grid othello_8)
  ∧ Store.view heap_8_copy 0%nat = Some othello_8
  ∧ ∀ pos, Store.grids (Store.apply_move 0%nat pos heap_8_copy).2 !! 1%nat
           = Some (_grid othello_8).
Proof.
  apply (grid_snapshot heap_8 0%nat othello_8 1%nat heap_8_copy).
  - vm_compute. reflexivity.
  - vm_compute. reflexivity.
Defined.


(** ** The piece that [_check_direction] finds *)

Lemma check_direction_position self player pos rs cs p :
  square (_side self) (_grid self) → (rs, cs) ∈ directions →
  _check_direction self player pos (rs, cs) = Ok (Some p) →
  ∃ n : nat,
    (1 <= n)%nat
    ∧ (∀ k, 1 <= k <= Z.of_nat n → foreign_at self player pos rs cs k)
    ∧ cell_at self (ahead pos (rs, cs) (Z.of_nat n + 1)) = Some (Some player)
    ∧ p = ahead pos (rs, cs) (Z.of_nat n + 1).
Proof.
  intros Hsq Hd. unfold _check_direction. destruct pos as [row col] eqn:Ep.
  assert (H1 : ahead pos (rs, cs) 1 = (row + rs, col + cs)).
  { rewrite ahead_1. by rewrite Ep. }
  rewrite <- Ep in *. clear Ep.
  destruct (_in_bounds self (row + rs, col + cs)) eqn:Hb; cbn [negb]; [|done].
  destruct (cell_at_square self _ Hsq Hb) as [lp Hlp].
  rewrite (cell_at_grid_get _ _ _ _ Hlp). cbn [mbind result_bind].
  destruct (not_in_none_player lp player) eqn:Hf; [|done].
  destruct (check_direction_loop_spec self player pos rs cs Hsq Hd
              (Z.to_nat (_side self)) 1 _ _ lp H1 Hlp) as (w & -> & Hw).
  { pose proof (room_bounds self _ _ Hd Hb). lia. }
  cbn [mbind result_bind].
  destruct w as [[[r c] lp']|]; [|done].
  destruct (_in_bounds self (r, c) && bool_decide (lp' = Some player)) eqn:Hok;
    [|done].
  intros [= <-]. apply andb_true_iff in Hok as [_ Hp%bool_decide_eq_true].
  subst lp'. destruct Hw as (m & Hm & Hrc & Hc & Hn & Hbefore).
  assert (Hm1 : m ≠ 1).
  { intros ->. rewrite <- Hrc in H1. injection H1 as -> ->.
    rewrite Hlp in Hc. injection Hc as ->.
    apply not_in_none_player_true in Hf as (q & [= <-] & Hne). done. }
  exists (Z.to_nat (m - 1)).
  replace (Z.of_nat (Z.to_nat (m - 1)) + 1) with m by lia.
  split; [lia|]. split; [|split; [by rewrite <- Hrc|done]].
  intros k Hk. apply Hbefore. lia.
Qed.

Lemma check_direction_anchor_lemma self player pos d :
  square (_side self) (_grid self) → d ∈ directions →
  ∃ o, _check_direction self player pos d = Ok o
       ∧ ∀ p, o = Some p
              ↔ ∃ n : nat,
                  (1 <= n)%nat
                  ∧ (∀ k, 1 <= k <= Z.of_nat n →
                       ∃ q, cell_at self (ahead pos d k) = Some (Some q)
                            ∧ q ≠ player)
                  ∧ cell_at self (ahead pos d (Z.of_nat n + 1))
                    = Some (Some player)
                  ∧ p = ahead pos d (Z.of_nat n + 1).
Proof.
  intros Hsq Hd. destruct d as [rs cs].
  destruct (check_direction_spec self player pos rs cs Hsq Hd) as (o & Ho & Hcap).
  exists o. split; [done|]. intros p. split.
  - intros ->. by apply check_direction_position.
  - intros (n & Hn & Hfor & Hland & ->).
    destruct o as [p'|]; cycle 1.
    { exfalso. apply (proj2 Hcap); [|done]. by exists n. }
    destruct (check_direction_position self player pos rs cs p' Hsq Hd Ho)
      as (n' & Hn' & Hfor' & Hland' & ->).
    do 2 f_equal.
    destruct (Nat.lt_trichotomy n n') as [Hlt|[->|Hgt]]; [|done|].
    + destruct (Hfor' (Z.of_nat n + 1)) as (q & Hq & Hne); [lia|].
      rewrite Hland in Hq. by injection Hq as <-.
    + destruct (Hfor (Z.of_nat n' + 1)) as (q & Hq & Hne); [lia|].
      rewrite Hland' in Hq. by injection Hq as <-.
Qed.

(** X24. On a grid that is [side] by [side], [_check_direction] answers
    for each of the eight directions, and it answers with a position
    exactly when the ray passes through one or more cells of other
    players and then lands on a cell of [player]: the position is that
    of this cell. *)
Theorem check_direction_anchor self player pos d :
  square (_side self) (_grid self) → d ∈ directions →
  ∃ o, _check_direction self player pos d = Ok o
       ∧ ∀ p, o = Some p
              ↔ ∃ n : nat,
                  (1 <= n)%nat
                  ∧ (∀ k, 1 <= k <= Z.of_nat n →
                       ∃ q, cell_at self (ahead pos d k) = Some (Some q)
                            ∧ q ≠ player)
                  ∧ cell_at self (ahead pos d (Z.of_nat n + 1))
                    = Some (Some player)
                  ∧ p = ahead pos d (Z.of_nat n + 1).
Proof. apply check_direction_anchor_lemma. Qed.

(** X24, to the south of (2, 3) at the opening of Othello. *)
Lemma check_direction_anchor_witness :
  ∃ o, _check_direction othello_8 1 (2, 3) (1, 0) = Ok o
       ∧ ∀ p, o = Some p
              ↔ ∃ n : nat,
                  (1 <= n)%nat
                  ∧ (∀ k, 1 <= k <= Z.of_nat n →
                       ∃ q, cell_at othello_8 (ahead (2, 3) (1, 0) k)
                            = Some (Some q)
                            ∧ q ≠ 1)
                  ∧ cell_at othello_8 (ahead (2, 3) (1, 0) (Z.of_nat n + 1))
                    = Some (Some 1)
                  ∧ p = ahead (2, 3) (1, 0) (Z.of_nat n + 1).
Proof.
  apply (check_direction_anchor othello_8 1 (2, 3) (1, 0)).
  - apply (bool_decide_unpack _). vm_compute. exact I.
  - by left.
Defined.

(** ** The player to move *)

(** X25. After [apply_move] at a position of the board of a game state,
    the game is over or the player to move has a move: [done] and
    [available_moves] answer, and when [done] says no, the list of
    [available_moves] is not empty. A caller that moves for the player
    to move, as the loop of [play] in [bot.py] does, finds a move as
    long as the game is not over. *)
Theorem apply_move_mover_can_move self pos :
  game_state self → _in_bounds self pos = true →
  ∃ self' d moves,
    apply_move pos self = (Ok tt, self')
    ∧ done self' = (Ok d, self')
    ∧ available_moves self' = Ok moves
    ∧ (d = false → moves ≠ []).
Proof.
  destruct self as [side players othello g t].
  intros (Hp & Hsq & _ & Ht) Hb. cbn [_side _players _grid _turn] in *.
  destruct (apply_move_spec side players othello g t pos Hsq Hp Ht Hb)
    as (g' & k & Happ & (Hsq' & _) & _ & Hat).
  cbn zeta in Happ, Hat.
  set (next := Nat.iter k (following players) (following players t)) in *.
  set (self' := mkReversi side players othello g' next).
  assert (Hon : center_on_board self').
  { apply center_on_board_players. cbn. lia. }
  destruct (done_spec self' Hsq' Hon) as (d & Hdone & Hyes & Hno).
  destruct (moves_of_ok self' Hsq' Hon next) as [moves Hmoves].
  exists self', d, moves. split; [done|]. split; [done|].
  split; [exact Hmoves|]. intros -> ->.
  destruct (Hno eq_refl) as (player & Hplayer & Hm).
  destruct Hat as [Hat|[_ Hover]].
  - by apply Hat.
  - apply Hm. by apply Hover.
Qed.

(** X25, on the grid of the turn-skip test. *)
Lemma apply_move_mover_can_move_witness :
  ∃ self' d moves,
    apply_move (2, 0) skip_4 = (Ok tt, self')
    ∧ done self' = (Ok d, self')
    ∧ available_moves self' = Ok moves
    ∧ (d = false → moves ≠ []).
Proof.
  apply (apply_move_mover_can_move skip_4 (2, 0)).
  - apply (bool_decide_unpack _). vm_compute. exact I.
  - reflexivity.
Defined.

(** ** More players than the side *)

Lemma mapM_raise {A B} (f : A → result B) (l : list A) e :
  (∀ x, x ∈ l → f x = Raise e ∨ ∃ y, f x = Ok y) →
  (∃ x, x ∈ l ∧ f x = Raise e) →
  mapM f l = Raise e.
Proof.
  induction l as [|x l IH]; intros Hall (x0 & Hin & Hx0).
  - by apply elem_of_nil in Hin.
  - cbn [mapM]. destruct (Hall x ltac:(by left)) as [Hx|[y Hx]]; rewrite Hx; [done|].
    cbn [mbind result_bind]. rewrite IH; [done| |].
    + intros x' Hx'. apply Hall. by right.
    + apply elem_of_cons in Hin as [->|Hin]; [congruence|by exists x0].
Qed.

Section off_board.
Context (self : Reversi).
Hypothesis Hsq : square (_side self) (_grid self).
Hypothesis Hoff : ∃ sq, in_center self sq ∧ _in_bounds self sq = false.

(** When a square of the center block is off the board, [legal_move]
    cannot look at the center block: it raises at every empty cell. *)
Lemma legal_move_off_board pos :
  _in_bounds self pos = true →
  legal_move self pos
  = match cell_at self pos with
    | Some (Some _) => Ok false
    | _ => Raise (ValueError Msg.out_of_bounds)
    end.
Proof.
  intros Hb. unfold legal_move. rewrite Hb. cbn [negb].
  destruct (cell_at_square self pos Hsq Hb) as [here Hhere]. rewrite Hhere.
  destruct pos as [row col].
  rewrite (cell_at_grid_get _ _ _ _ Hhere). cbn [mbind result_bind].
  destruct here as [q|]; [by rewrite bool_decide_eq_true_2|].
  rewrite bool_decide_eq_false_2 by (by intros H; apply H).
  rewrite (mapM_raise _ _ (ValueError Msg.out_of_bounds)); [done| |].
  - intros sq _. unfold piece_at.
    destruct (_in_bounds self sq) eqn:Hsqb; cbn [negb]; [|by left].
    destruct (cell_at_square self sq Hsq Hsqb) as [c Hc]. destruct sq as [i j].
    right. exists c. by apply cell_at_grid_get.
  - destruct Hoff as (sq & Hin & Hout). exists sq.
    split; [by apply elem_of_center_pieces|]. unfold piece_at. by rewrite Hout.
Qed.

Lemma collect_moves_off_board (cells : list (position * cell)) :
  (∀ pos c, (pos, c) ∈ cells → cell_at self pos = Some c) →
  ∀ moves0 : gset position,
    foldM (fun (moves : gset position) '((i, j), _) =>
             b ← legal_move self (i, j);
             Ok (if b : bool then {[ (i, j) ]} ∪ moves else moves))
          moves0 cells
    = if decide (None ∈ cells.*2)
      then Raise (ValueError Msg.out_of_bounds) else Ok moves0.
Proof.
  induction cells as [|[[i j] c] cells IH]; intros Hcells moves0.
  - cbn [foldM]. rewrite decide_False; [done|]. apply not_elem_of_nil.
  - cbn [foldM].
    assert (Hc : cell_at self (i, j) = Some c) by (apply Hcells; by left).
    rewrite legal_move_off_board by (by eapply cell_at_in_bounds). rewrite Hc.
    destruct c as [q|]; cbn [mbind result_bind].
    + rewrite IH by (intros pos c Hin; apply Hcells; by right).
      cbn [fmap list_fmap snd].
      destruct (decide (None ∈ cells.*2)) as [Hex|Hex].
      * rewrite decide_True; [done|]. by right.
      * rewrite decide_False; [done|]. by intros [[=]|?]%elem_of_cons.
    + rewrite decide_True; [done|]. cbn. by left.
Qed.

Lemma available_moves_off_board :
  (∃ pos, cell_at self pos = Some None) →
  available_moves self = Raise (ValueError Msg.out_of_bounds).
Proof.
  intros (pos & Hpos). unfold available_moves.
  rewrite collect_moves_off_board.
  - rewrite decide_True; [done|]. apply list_elem_of_fmap.
    exists (pos, None). split; [done|]. by apply enumerate_grid_cell_at.
  - intros p c Hin. by apply enumerate_grid_cell_at.
Qed.
End off_board.

(** An engine with more players than the side has a center block that
    leaves the board, and cells that are empty. *)
Lemma init_crowded side players othello self :
  __init__ side players othello = Ok self → side < players →
  ∃ g, self = mkReversi side players false g 1
       ∧ 3 <= side ∧ square side g
       ∧ (∀ pos, _in_bounds self pos = true → cell_at self pos = Some None)
       ∧ (∀ pos, _in_bounds self pos = true → in_center self pos)
       ∧ ∃ sq, in_center self sq ∧ _in_bounds self sq = false.
Proof.
  intros Hinit Hmany. pose proof (init_cases side players othello) as Hc.
  rewrite Hinit in Hc. destruct Hc as (Hside & Hpar & Ho).
  destruct (init_ok side players othello Hside Hpar Ho) as (g & Hg & Hsq & Hcells).
  rewrite Hinit in Hg. injection Hg as ->.
  destruct othello; [specialize (Ho eq_refl); lia|].
  exists g. split; [done|]. split; [done|]. split; [done|].
  assert (Hlo : (side - players) / 2 < 0).
  { apply Z.div_lt_upper_bound; lia. }
  split; [|split].
  - intros pos Hb. by rewrite Hcells, Hb.
  - intros [i j] Hb%in_bounds_spec. unfold in_center.
    cbn [_side _players fst snd] in *. lia.
  - exists ((side - players) / 2, (side - players) / 2). split.
    + unfold in_center. cbn [_side _players fst snd]. lia.
    + apply not_true_is_false. intros Hb%in_bounds_spec.
      cbn [_side] in Hb. lia.
Qed.

(** X26. An engine with more players than the side, which the
    constructor accepts when the parities agree, cannot be played: its
    center block leaves the board, so that [legal_move] raises the
    [ValueError] of [piece_at] at every position of the board, and
    [available_moves] and [done] raise it too. *)
Theorem too_many_players side players othello self :
  __init__ side players othello = Ok self → side < players →
  (∀ pos, _in_bounds self pos = true →
     legal_move self pos = Raise (ValueError Msg.out_of_bounds))
  ∧ available_moves self = Raise (ValueError Msg.out_of_bounds)
  ∧ done self = (Raise (ValueError Msg.out_of_bounds), self).
Proof.
  intros Hinit Hmany.
  destruct (init_crowded side players othello self Hinit Hmany)
    as (g & -> & Hside & Hsq & Hempty & _ & Hoff).
  set (self := mkReversi side players false g 1) in *.
  assert (Hav : available_moves self = Raise (ValueError Msg.out_of_bounds)).
  { apply available_moves_off_board; [done..|]. exists (0, 0).
    apply Hempty, in_bounds_spec. cbn. lia. }
  split; [|split; [done|]].
  - intros pos Hb. rewrite legal_move_off_board by done. by rewrite Hempty.
  - unfold done. unfold mbind at 1, M_bind at 1. cbn [get].
    unfold mbind at 1, M_bind at 1.
    assert (Hrange : range 1 (_players self + 1)
                     = 1 :: range 2 (_players self + 1)).
    { unfold range. cbn [_players self].
      replace (players + 1 - 1) with (Z.succ (players + 1 - 2)) by lia.
      rewrite seqZ_cons by lia. do 2 f_equal; lia. }
    rewrite Hrange. cbn [done_loop].
    unfold mbind at 1, M_bind at 1. cbn [set_turn].
    change (with_turn 1 self) with self.
    unfold mbind at 1, M_bind at 1, mbind at 1, M_bind at 1, read.
    by rewrite Hav.
Qed.

(** X26, for [Reversi(3, 5, False)]. *)
Lemma too_many_players_witness :
  (∀ pos, _in_bounds crowded_3 pos = true →
     legal_move crowded_3 pos = Raise (ValueError Msg.out_of_bounds))
  ∧ available_moves crowded_3 = Raise (ValueError Msg.out_of_bounds)
  ∧ done crowded_3 = (Raise (ValueError Msg.out_of_bounds), crowded_3).
Proof.
  apply (too_many_players 3 5 false crowded_3).
  - reflexivity.
  - lia.
Defined.

(** X27. In an engine with more players than the side, [apply_move] at
    a position of the board raises that [ValueError] after it has
    placed the piece and moved the turn to player 2: the exception
    comes from the loop that skips the players without a move. *)
Theorem apply_move_too_many_players side players othello self pos :
  __init__ side players othello = Ok self → side < players →
  _in_bounds self pos = true →
  ∃ self',
    apply_move pos self = (Raise (ValueError Msg.out_of_bounds), self')
    ∧ cell_at self' pos = Some (Some 1)
    ∧ _turn self' = 2
    ∧ ∀ p, p ≠ pos → cell_at self' p = cell_at self p.
Proof.
  intros Hinit Hmany Hb.
  destruct (init_crowded side players othello self Hinit Hmany)
    as (g & -> & Hside & Hsq & Hempty & Hcenter & Hoff).
  unfold apply_move. unfold mbind at 1, M_bind at 1. cbn [get].
  rewrite Hb. cbn [negb]. destruct pos as [row col].
  cbn [_othello negb andb].
  rewrite bool_decide_eq_true_2
    by (apply elem_of_center_pieces; by apply Hcenter).
  unfold mbind at 1, M_bind at 1.
  destruct (grid_set_spec side players false 1 g row col 1 None Hsq (Hempty _ Hb))
    as (g1 & Hset & Hsq1 & Hcells & _).
  cbn [_turn]. rewrite Hset.
  unfold mbind at 1, M_bind at 1.
  rewrite next_turn_spec by (cbn; lia).
  cbn [with_turn _side _players _othello _grid _turn].
  assert (Hnext : following players 1 = 2).
  { unfold following. rewrite bool_decide_eq_false_2 by lia. done. }
  rewrite Hnext. unfold mbind at 1, M_bind at 1. cbn [get _players].
  set (self' := mkReversi side players false g1 2).
  assert (Hav : available_moves self' = Raise (ValueError Msg.out_of_bounds)).
  { apply available_moves_off_board; [done|exact Hoff|].
    assert (Hother : ∃ p, p ≠ (row, col)
                   ∧ _in_bounds (mkReversi side players false g 1) p = true).
    { destruct (decide ((row, col) = (0, 0))) as [Heq|Hne].
      - exists (0, 1). split; [by rewrite Heq|]. apply in_bounds_spec. cbn. lia.
      - exists (0, 0). split; [done|]. apply in_bounds_spec. cbn. lia. }
    destruct Hother as (p & Hp & Hpb). exists p.
    change (cell_at self' p) with (cell_at (mkReversi side players false g1 1) p).
    rewrite Hcells, decide_False by done. by apply Hempty. }
  exists self'. split.
  - change (with_turn 2 _) with self'. generalize (Z.to_nat (_players self')).
    intros fuel. destruct fuel; cbn [skip_loop];
      unfold mbind at 1, M_bind at 1, read; by rewrite Hav.
  - change (cell_at self') with (cell_at (mkReversi side players false g1 1)).
    split; [by rewrite Hcells, decide_True|]. split; [done|].
    intros p Hp. by rewrite Hcells, decide_False.
Qed.

(** X27, for [Reversi(3, 5, False)]. *)
Lemma apply_move_too_many_players_witness :
  ∃ self',
    apply_move (1, 1) crowded_3 = (Raise (ValueError Msg.out_of_bounds), self')
    ∧ cell_at self' (1, 1) = Some (Some 1)
    ∧ _turn self' = 2
    ∧ ∀ p, p ≠ (1, 1) → cell_at self' p = cell_at crowded_3 p.
Proof.
  apply (apply_move_too_many_players 3 5 false crowded_3 (1, 1)).
  - reflexivity.
  - lia.
  - reflexivity.
Defined.

(** ** No player, or fewer *)

Lemma no_members {A} (l : list A) : (∀ x, x ∉ l) → l = [].
Proof. destruct l as [|x l]; [done|]. intros H. destruct (H x). by left. Qed.

(** An engine without a player has an empty center block and an empty
    grid. *)
Lemma init_nobody side players othello self :
  __init__ side players othello = Ok self → players <= 0 →
  ∃ g, self = mkReversi side players false g 1
       ∧ 3 <= side ∧ square side g
       ∧ (∀ pos, _in_bounds self pos = true → cell_at self pos = Some None)
       ∧ (∀ pos, ¬ in_center self pos).
Proof.
  intros Hinit Hnone. pose proof (init_cases side players othello) as Hc.
  rewrite Hinit in Hc. destruct Hc as (Hside & Hpar & Ho).
  destruct (init_ok side players othello Hside Hpar Ho) as (g & Hg & Hsq & Hcells).
  rewrite Hinit in Hg. injection Hg as ->.
  destruct othello; [specialize (Ho eq_refl); lia|].
  exists g. split; [done|]. split; [done|]. split; [done|]. split.
  - intros pos Hb. by rewrite Hcells, Hb.
  - intros [i j] [Hi _]. cbn [_side _players fst snd] in Hi.
    pose proof (Z.div_mod (side - players) 2 ltac:(lia)) as Hdm.
    pose proof (Z.mod_pos_bound (side - players) 2 ltac:(lia)) as Hm.
    assert ((side - players) mod 2 = 0); [|lia].
    rewrite Zminus_mod, Hpar, Z.sub_diag. done.
Qed.

Lemma empty_no_capture self pos :
  (∀ p, p ≠ pos → ∀ q, cell_at self p ≠ Some (Some q)) →
  ¬ captures_some self pos.
Proof.
  intros Hempty (d & Hd & n & Hn & Hfor & _).
  destruct (Hfor 1) as (q & Hq & _); [lia|].
  apply (Hempty (ahead pos d 1)) in Hq; [done|]. by apply ahead_ne.
Qed.

Lemma nobody_no_moves self t :
  square (_side self) (_grid self) →
  (∀ pos, _in_bounds self pos = true → cell_at self pos = Some None) →
  (∀ pos, ¬ in_center self pos) →
  available_moves (with_turn t self) = Ok [].
Proof.
  intros Hsq Hempty Hcenter.
  assert (Hon : center_on_board (with_turn t self)).
  { intros sq Hin. by destruct (Hcenter sq). }
  destruct (available_moves_spec (with_turn t self) Hsq Hon)
    as (moves & -> & _ & Hiff).
  f_equal. apply no_members. intros pos [Hb Hl]%Hiff.
  destruct (legal_move_spec (with_turn t self) Hsq pos Hon Hb) as (b & Hb' & Hlegal).
  rewrite Hl in Hb'. injection Hb' as <-.
  destruct (proj1 Hlegal eq_refl) as [_ [[_ Hc]|(_ & _ & Hin)]].
  - revert Hc. apply empty_no_capture. intros p _ q Hq.
    pose proof (cell_at_in_bounds _ _ _ Hq) as Hpb.
    change (cell_at (with_turn t self) p) with (cell_at self p) in Hq.
    rewrite (Hempty p Hpb) in Hq. done.
  - by destruct (Hcenter pos).
Qed.

(** X28. An engine made with no player, or with a negative number of
    players, which the constructor accepts when the parities agree, is
    over at once and has no winner: there is no available move, [done]
    says yes, and [outcome] is the empty list. *)
Theorem no_players side players othello self :
  __init__ side players othello = Ok self → players <= 0 →
  available_moves self = Ok []
  ∧ done self = (Ok true, self)
  ∧ outcome self = (Ok [], self).
Proof.
  intros Hinit Hnone.
  destruct (init_nobody side players othello self Hinit Hnone)
    as (g & -> & Hside & Hsq & Hempty & Hcenter).
  set (self := mkReversi side players false g 1) in *.
  assert (Hdone : done self = (Ok true, self)).
  { unfold done. unfold mbind at 1, M_bind at 1. cbn [get].
    unfold range. cbn [_players self].
    replace (players + 1 - 1) with players by lia.
    rewrite seqZ_nil by lia. cbn [done_loop].
    unfold mbind at 1, M_bind at 1. cbn [mret M_ret].
    unfold mbind at 1, M_bind at 1. done. }
  split; [|split; [done|]].
  - apply (nobody_no_moves self 1); done.
  - unfold outcome. unfold mbind at 1, M_bind at 1. rewrite Hdone.
    cbn [negb]. unfold mbind at 1, M_bind at 1. cbn [get mret M_ret].
    do 2 f_equal.
    assert (Hd : count_pieces (_grid self) = []).
    { apply no_members. intros [k v] Hkv.
      destruct (count_pieces_counted (_grid self)) as [_ Hc].
      apply Hc in Hkv as [_ Hpos]. apply count_pos in Hpos.
      destruct (concat_cell_at self (Some k) Hsq Hpos) as [pos Hq].
      rewrite (Hempty pos (cell_at_in_bounds _ _ _ Hq)) in Hq. done. }
    by rewrite Hd.
Qed.

(** X28, for [Reversi(3, -1, False)]. *)
Lemma no_players_witness :
  available_moves nobody_3 = Ok []
  ∧ done nobody_3 = (Ok true, nobody_3)
  ∧ outcome nobody_3 = (Ok [], nobody_3).
Proof.
  apply (no_players 3 (-1) false nobody_3).
  - reflexivity.
  - lia.
Defined.

(** X29. In the engine that [Reversi(side, -1, othello)] makes,
    [apply_move] at a position of the board raises [ZeroDivisionError]
    after it has placed the piece: the turn is taken modulo
    players + 1, which is 0. The turn is what it was. *)
Theorem apply_move_zero_division side othello self pos :
  __init__ side (-1) othello = Ok self → _in_bounds self pos = true →
  ∃ self',
    apply_move pos self = (Raise ZeroDivisionError, self')
    ∧ cell_at self' pos = Some (Some 1)
    ∧ _turn self' = 1
    ∧ ∀ p, p ≠ pos → cell_at self' p = cell_at self p.
Proof.
  intros Hinit Hb.
  destruct (init_nobody side (-1) othello self Hinit ltac:(lia))
    as (g & -> & Hside & Hsq & Hempty & Hcenter).
  unfold apply_move. unfold mbind at 1, M_bind at 1. cbn [get].
  rewrite Hb. cbn [negb]. destruct pos as [row col].
  cbn [_othello negb andb].
  rewrite bool_decide_eq_false_2
    by (rewrite elem_of_center_pieces; apply Hcenter).
  unfold mbind at 1, M_bind at 1.
  unfold mbind at 1, M_bind at 1.
  destruct (grid_set_spec side (-1) false 1 g row col 1 None Hsq (Hempty _ Hb))
    as (g1 & Hset & Hsq1 & Hcells & _).
  cbn [_turn]. rewrite Hset.
  unfold mbind at 1, M_bind at 1, read.
  destruct (retrace_directions_exact side (-1) false 1 (row, col) g1 Hsq1)
    as (dirs & -> & _ & Hdirs).
  assert (dirs = []) as ->.
  { apply no_members. intros [rs cs] [Hd Hc]%Hdirs.
    apply (empty_no_capture (mkReversi side (-1) false g1 1) (row, col)).
    - intros p Hp q. rewrite Hcells, decide_False by done. intros Hq.
      rewrite (Hempty p (cell_at_in_bounds _ _ _ Hq)) in Hq. done.
    - exists (rs, cs). done. }
  cbn [forM_ mret M_ret].
  unfold mbind at 1, M_bind at 1.
  unfold next_turn. unfold mbind at 1, M_bind at 1. cbn [get].
  unfold mbind at 1, M_bind at 1, lift, py_mod. cbn [_players].
  rewrite bool_decide_eq_true_2 by lia.
  eexists. split; [done|]. split; [by rewrite Hcells, decide_True|].
  split; [done|]. intros p Hp. by rewrite Hcells, decide_False.
Qed.

(** X29, for [Reversi(3, -1, False)]. *)
Lemma apply_move_zero_division_witness :
  ∃ self',
    apply_move (1, 1) nobody_3 = (Raise ZeroDivisionError, self')
    ∧ cell_at self' (1, 1) = Some (Some 1)
    ∧ _turn self' = 1
    ∧ ∀ p, p ≠ (1, 1) → cell_at self' p = cell_at nobody_3 p.
Proof.
  apply (apply_move_zero_division 3 false nobody_3 (1, 1)).
  - reflexivity.
  - reflexivity.
Defined.

(** * The claims on engines of any number of players, and in the heap *)

(** ** [done] and [legal_move] with more players than the side *)

Lemma game_state_data self :
  game_state self ↔ data_state self ∧ _players self <= _side self.
Proof. unfold game_state, data_state. intuition lia. Qed.










(** ** The grids of the engines of a heap *)

Lemma init_fields side players othello s :
  __init__ side players othello = Ok s →
  _side s = side ∧ _players s = players ∧ _othello s = othello.
Proof.
  intros Hinit. pose proof (init_cases side players othello) as Hc.
  rewrite Hinit in Hc. destruct Hc as (Hside & Hpar & Ho).
  destruct (init_ok side players othello Hside Hpar Ho) as (g & Hg & _).
  rewrite Hinit in Hg. by injection Hg as ->.
Qed.

Section heap_inv.
Context (rows : bool).

(** A new list is not the grid of an engine. *)
Lemma heap_inv_grid_ne h a oa :
  heap_inv rows h → Store.objects h !! a = Some oa →
  Store.o_grid oa ≠ fresh (dom (Store.grids h)).
Proof.
  intros [Hobj _] Ha Heq. destruct (Hobj a oa Ha) as (ga & Hga & _).
  apply (is_fresh (dom (Store.grids h))). rewrite <- Heq.
  apply elem_of_dom. by eexists.
Qed.

Lemma heap_inv_new side players othello h :
  heap_inv rows h → heap_inv rows (Store.new side players othello h).2.
Proof.
  intros Hh. pose proof Hh as [Hobj Hinj]. unfold Store.new.
  destruct (__init__ side players othello) as [s|e|x] eqn:Hinit; [|done..].
  cbn [snd]. destruct (init_fields _ _ _ _ Hinit) as (Hside & Hplayers & Ho).
  assert (Hl : Store.objects h !! fresh (dom (Store.objects h)) = None).
  { apply not_elem_of_dom, is_fresh. }
  split; cbn [Store.objects Store.grids].
  - intros self o [[<- <-]|[Hne Hself]]%lookup_insert_Some.
    + exists (_grid s). cbn [Store.o_grid]. rewrite lookup_insert_eq.
      split; [done|]. unfold object_inv.
      cbn [Store.o_side Store.o_players Store.o_othello Store.o_turn].
      rewrite Hside, Hplayers, Ho. split; [by exists s|]. intros Hp.
      pose proof (init_inv _ _ _ _ Hp Hinit) as Hinv.
      replace (mkReversi side players othello (_grid s) (_turn s)) with s
        by (destruct s; cbn in *; congruence).
      destruct rows; [done|by eapply inv_weaken].
    + destruct (Hobj self o Hself) as (g & Hg & Hinv). exists g.
      split; [|done]. rewrite lookup_insert_ne; [done|].
      by apply not_eq_sym, (heap_inv_grid_ne h self).
  - intros a b oa ob [[<- <-]|[Hna Ha]]%lookup_insert_Some
      [[<- <-]|[Hnb Hb]]%lookup_insert_Some Heq; cbn [Store.o_grid] in Heq.
    + done.
    + by destruct (heap_inv_grid_ne h b ob).
    + by destruct (heap_inv_grid_ne h a oa).
    + by eapply Hinj.
Qed.

Lemma heap_inv_alloc_grid g h :
  heap_inv rows h → heap_inv rows (Store.alloc_grid g h).2.
Proof.
  intros Hh. pose proof Hh as [Hobj Hinj]. unfold Store.alloc_grid.
  split; cbn [snd Store.objects Store.grids]; [|done].
  intros self o Hself. destruct (Hobj self o Hself) as (go & Hgo & Hinv).
  exists go. split; [|done]. rewrite lookup_insert_ne; [done|].
  by apply not_eq_sym, (heap_inv_grid_ne h self).
Qed.

Lemma heap_inv_write_list l g h :
  heap_inv rows h → unheld h l → heap_inv rows (Store.write_list l g h).2.
Proof.
  intros Hh Hfree. pose proof Hh as [Hobj Hinj]. unfold Store.write_list.
  destruct (Store.grids h !! l); [|done].
  split; cbn [snd Store.objects Store.grids]; [|done].
  intros self o Hself. destruct (Hobj self o Hself) as (go & Hgo & Hinv).
  exists go. split; [|done]. rewrite lookup_insert_ne; [done|].
  by apply not_eq_sym, (Hfree self).
Qed.

Lemma heap_inv_grid self h :
  heap_inv rows h → heap_inv rows (Store.grid self h).2.
Proof.
  intros Hh. unfold Store.grid, mbind, Store.H_bind, Store.observe.
  destruct (Store.view h self) as [s|]; [|done].
  by apply heap_inv_alloc_grid.
Qed.

(** [apply_move] writes to the list of its engine, which no other
    engine holds. *)
Lemma heap_inv_apply_move self pos h :
  heap_inv rows h → heap_inv rows (Store.apply_move self pos h).2.
Proof.
  intros Hh. pose proof Hh as [Hobj Hinj]. unfold Store.apply_move, Store.call.
  destruct (Store.objects h !! self) as [o|] eqn:Hself; [|done].
  destruct (Hobj self o Hself) as (g & Hg & Hmade & Hinv). rewrite Hg.
  set (s := mkReversi _ _ _ g _) in *.
  destruct (apply_move pos s) as [r s'] eqn:Happ. cbn [snd].
  split; cbn [Store.objects Store.grids].
  - intros b ob [[<- <-]|[Hne Hb]]%lookup_insert_Some.
    + exists (_grid s'). cbn [Store.o_grid]. rewrite lookup_insert_eq.
      split; [done|]. split; [done|].
      cbn [Store.o_side Store.o_players Store.o_othello Store.o_turn].
      intros Hp. specialize (Hinv Hp).
      pose proof (keeps_apply_move _ _ _ _ _ Hp pos s Hinv) as Hinv'.
      rewrite Happ in Hinv'. cbn [snd] in Hinv'.
      pose proof Hinv' as (H1 & H2 & H3 & _).
      replace (mkReversi _ _ _ (_grid s') (_turn s')) with s'
        by (destruct s'; cbn in *; congruence).
      done.
    + destruct (Hobj b ob Hb) as (gb & Hgb & Hinvb). exists gb.
      split; [|done]. rewrite lookup_insert_ne; [done|].
      intros Heq. apply Hne. by eapply Hinj.
  - intros a b oa ob [[<- <-]|[Hna Ha]]%lookup_insert_Some
      [[<- <-]|[Hnb Hb]]%lookup_insert_Some Heq; cbn [Store.o_grid] in Heq.
    + done.
    + by eapply Hinj.
    + by eapply Hinj.
    + by eapply Hinj.
Qed.

(** [load_game] checks the turn, the number of rows and the labels of
    the list it is given; the length of the rows is the caller's. *)
Lemma heap_inv_load_game self turn grid h :
  heap_inv rows h → unshared h self grid →
  (rows = true → ∀ o g,
     Store.objects h !! self = Some o → Store.grids h !! grid = Some g →
     Forall (fun row => length row = Z.to_nat (Store.o_side o)) g) →
  heap_inv rows (Store.load_game self turn grid h).2.
Proof.
  intros Hh Hun Hrows. pose proof Hh as [Hobj Hinj]. unfold Store.load_game.
  destruct (Store.grids h !! grid) as [g|] eqn:Hgrid; [|done].
  unfold Store.observe, Store.view.
  destruct (Store.objects h !! self) as [o|] eqn:Hself; [|done].
  cbn [mbind option_bind].
  destruct (Hobj self o Hself) as (g0 & Hg0 & Hmade & Hinv). rewrite Hg0.
  cbn [mbind option_bind]. rewrite load_game_checks_spec.
  cbn [_players _grid].
  destruct (decide (turn <= 0 ∨ turn > Store.o_players o)) as [Ht|Ht]; [done|].
  destruct (decide (length g ≠ length g0)) as [Hl|Hl]; [done|].
  destruct (decide (labelled (Store.o_players o) g)) as [Hlab|Hlab]; [|done].
  rewrite Hself. cbn [snd]. split; cbn [Store.objects Store.grids].
  - intros b ob [[<- <-]|[Hne Hb]]%lookup_insert_Some.
    + exists g. cbn [Store.o_grid]. split; [done|]. split; [done|].
      cbn [Store.o_side Store.o_players Store.o_othello Store.o_turn].
      intros Hp. destruct (Hinv Hp) as (_ & _ & _ & Hlen & _).
      cbn [_grid] in Hlen.
      repeat split; cbn [_side _players _othello _grid _turn]; try done; try lia.
      destruct rows; [|done]. by eapply (Hrows eq_refl).
    + by apply (Hobj b ob).
  - intros a b oa ob [[<- <-]|[Hna Ha]]%lookup_insert_Some
      [[<- <-]|[Hnb Hb]]%lookup_insert_Some Heq; cbn [Store.o_grid] in Heq.
    + done.
    + by destruct (Hun b ob Hb).
    + by destruct (Hun a oa Ha).
    + by eapply Hinj.
Qed.
End heap_inv.

Lemma reachable_heap_inv rows allowed h :
  (∀ h self grid, allowed h self grid → unshared h self grid) →
  (rows = true → full_rows allowed) →
  reachable allowed h → heap_inv rows h.
Proof.
  intros Hun Hrows Hreach.
  induction Hreach as [|h side players othello _ IH|h g _ IH|h l g _ IH Hfree
                       |h self _ IH|h self pos _ IH
                       |h self turn grid _ IH Hallowed].
  - split.
    + intros self o Ho. cbn [Store.objects] in Ho. by rewrite lookup_empty in Ho.
    + intros a b oa ob Ha. cbn [Store.objects] in Ha.
      by rewrite lookup_empty in Ha.
  - by apply heap_inv_new.
  - by apply heap_inv_alloc_grid.
  - by apply heap_inv_write_list.
  - by apply heap_inv_grid.
  - by apply heap_inv_apply_move.
  - apply heap_inv_load_game; [done|by apply Hun|].
    intros Hr o g Ho Hg. by eapply (Hrows Hr).
Qed.

Lemma unshared_single h self grid :
  (∀ other, other ≠ self → Store.objects h !! other = None) →
  unshared h self grid.
Proof. intros Hnone other o Ho Hne. by rewrite Hnone in Ho. Qed.

Lemma single_object (h : Store.heap) self o :
  Store.objects h = {[ self := o ]} →
  ∀ other, other ≠ self → Store.objects h !! other = None.
Proof. intros -> other Hne. by apply lookup_singleton_ne. Qed.

Lemma heap_8_copy_single other :
  other ≠ 0%nat → Store.objects heap_8_copy !! other = None.
Proof.
  apply (single_object _ _ (Store.mkObject 8 2 true 0%nat 1)).
  vm_compute. reflexivity.
Qed.

(** C8 (amended). A program makes engines and lists and calls
    [apply_move], [load_game] and [grid] on them, with whatever result;
    it gives no list to [load_game] while another engine holds that
    list or a row of it, and it does not write to a list while an engine
    holds it.
    Then every engine of the heap has a grid, and every engine made
    with at least one player has a grid of exactly [side] rows, with
    every cell [None] or a label in [[1, players]], and a turn in
    [[1, players]], [side] and [players] being numbers that the
    constructor accepts; every row has length [side] as long as the rows
    of every list given to [load_game] have the length of the side of
    the engine: [load_game] checks the number of rows, not the length of
    each row. *)
Theorem reachable_grid allowed h self o :
  (∀ h self grid, allowed h self grid → unshared h self grid) →
  reachable allowed h →
  Store.objects h !! self = Some o → 1 <= Store.o_players o →
  ∃ s, Store.view h self = Some s
       ∧ (∃ s0, __init__ (_side s) (_players s) (_othello s) = Ok s0)
       ∧ length (_grid s) = Z.to_nat (_side s)
       ∧ labelled (_players s) (_grid s)
       ∧ 1 <= _turn s <= _players s
       ∧ (full_rows allowed → square (_side s) (_grid s)).
Proof.
  intros Hun Hreach Hself Hp.
  destruct (reachable_heap_inv false allowed h Hun ltac:(done) Hreach)
    as [Hobj _].
  destruct (Hobj self o Hself) as (g & Hg & Hmade & Hinv).
  destruct (Hinv Hp) as (_ & _ & _ & Hlen & _ & Hlab & Ht).
  eexists. split; [unfold Store.view; rewrite Hself; cbn; by rewrite Hg|].
  cbn [_side _players _othello _grid _turn] in *.
  do 4 (split; [done|]). intros Hfull. split; [done|].
  destruct (reachable_heap_inv true allowed h Hun ltac:(done) Hreach)
    as [Hobj' _].
  destruct (Hobj' self o Hself) as (g' & Hg' & _ & Hinv').
  rewrite Hg in Hg'. injection Hg' as <-.
  by destruct (Hinv' Hp) as (_ & _ & _ & _ & Hrows & _).
Qed.

(** C8, for the engine of [Reversi(8, 2, True)] after it is given a copy
    of its grid and a move is applied. *)
Lemma reachable_grid_witness :
  ∃ s, Store.view loaded_heap 0%nat = Some s
       ∧ (∃ s0, __init__ (_side s) (_players s) (_othello s) = Ok s0)
       ∧ length (_grid s) = Z.to_nat (_side s)
       ∧ labelled (_players s) (_grid s)
       ∧ 1 <= _turn s <= _players s
       ∧ (full_rows unshared → square (_side s) (_grid s)).
Proof.
  apply (reachable_grid unshared loaded_heap 0%nat
           (Store.mkObject 8 2 true 1%nat 1)).
  - done.
  - apply reach_apply_move, reach_load_game.
    + apply reach_grid, reach_new, reach_empty.
    + apply unshared_single, heap_8_copy_single.
  - vm_compute. reflexivity.
  - cbn. lia.
Defined.

(** C8 as it is written fails in three ways. [load_game] accepts four
    rows of one cell each for an engine of side four. An engine made
    with no player holds the label 1 after a move. And a list that is
    given to two engines, one of two players and one of four, holds the
    label 3 in the engine of two players after player 3 has moved in
    the other: the rows of that list are full and both engines have
    players, so that the first two amendments do not cover it. *)
Lemma load_game_ragged_counterexample :
  (reachable unshared ragged_heap
   ∧ Store.view ragged_heap 0%nat = Some ragged_4
   ∧ ¬ square 4 (_grid ragged_4))
  ∧ (reachable unshared nobody_heap
     ∧ Store.view nobody_heap 0%nat = Some nobody_4
     ∧ ¬ labelled 0 (_grid nobody_4))
  ∧ (reachable (fun _ _ _ => True) shared_heap
     ∧ Store.view shared_heap 0%nat = Some shared_4
     ∧ square 4 (_grid shared_4)
     ∧ ¬ labelled 2 (_grid shared_4)).
Proof.
  split; [|split]; (split; [|split; [vm_compute; reflexivity|]]).
  - apply reach_load_game; [apply reach_list, reach_new, reach_empty|].
    apply unshared_single.
    apply (single_object _ _ (Store.mkObject 4 2 true 0%nat 1)).
    vm_compute. reflexivity.
  - intros [_ Hrows]. apply Forall_cons in Hrows as [Hrow _]. discriminate Hrow.
  - apply reach_apply_move, reach_new, reach_empty.
  - intros Hlab. apply Forall_cons in Hlab as [Hrow _].
    apply Forall_cons in Hrow as [Hcell _]. cbn in Hcell. lia.
  - repeat first [apply reach_apply_move | apply reach_load_game
                 | apply reach_grid | apply reach_new | apply reach_empty | done].
  - split; [apply (bool_decide_unpack _); vm_compute; exact I|].
    intros Hlab. apply Forall_cons in Hlab as [Hrow _].
    apply Forall_cons in Hrow as [Hcell _]. cbn in Hcell. lia.
Qed.

(** In [shared_heap] the two engines hold the list at 2. *)
Example shared_heap_grid :
  (Store.o_grid <$> Store.objects shared_heap !! 0%nat) = Some 2%nat
  ∧ (Store.o_grid <$> Store.objects shared_heap !! 1%nat) = Some 2%nat.
Proof. split; vm_compute; reflexivity. Qed.
